(** * Space Invaders engine: entity pool, spatial grid, collisions, power-ups

    A shallow embedding of the engine code of the game
    (core/game-engine.js, entities/player.js, entities/bullet.js and the
    collision and power-up methods of the Game class in main.js), with
    the properties of the design document proved or refuted on it.

    Conventions.
    - A JavaScript number that holds a coordinate, a size or a speed is a
      rational [Q] (exact arithmetic); a counter is a [nat]; a
      [Date.now()] time stamp is a [Z] in milliseconds.
    - An object is a reference [ref] into an object store (a list of
      object states, the reference being the index); two references are
      the same object exactly when they are equal.
    - A JavaScript array is a list in array order: [push] appends at the
      end, [pop] takes the last element, [unshift] conses at the front.
    - A JavaScript [Set] is a list without repetition in insertion order. *)

From Stdlib Require Import ZArith QArith Qround Qminmax Qabs Lia Lqa.
From stdpp Require Import base list strings gmap.

Local Open Scope nat_scope.

(** ** Object store *)

Definition ref := nat.

(** [new C(...)]: the new object takes the next free address. *)
Definition alloc {T} (v : T) (heap : list T) : ref * list T :=
  (length heap, heap ++ [v]).

(** ** JavaScript containers *)

Module JsArray.
(** [a.pop()] on a non-empty array: the last element and the rest. *)
Definition pop {A} (a : list A) : option (A * list A) :=
  match last a with
  | Some x => Some (x, removelast a)
  | None => None
  end.

Definition push {A} (a : list A) (x : A) : list A := a ++ [x].
End JsArray.

Module JsSet.
Definition has (s : list ref) (x : ref) : bool := bool_decide (x ∈ s).
Definition add (s : list ref) (x : ref) : list ref :=
  if has s x then s else s ++ [x].
Definition delete (s : list ref) (x : ref) : list ref :=
  filter (λ y, y ≠ x) s.
Definition size (s : list ref) : nat := length s.
End JsSet.

(** ** Comparisons of numbers *)

(** [a < b] and [a > b] on numbers, as booleans. *)
Definition Qltb (a b : Q) : bool := negb (Qle_bool b a).
Definition Qgtb (a b : Q) : bool := Qltb b a.

(** ** core/game-engine.js: ObjectPool *)

Module ObjectPool.

Record Stats := mkStats {
  totalCreated : nat;
  maxActive : nat;
  poolHits : nat;
  poolMisses : nat
}.

Record t := mkPool {
  pool : list ref;      (* this.pool, the free objects *)
  active : list ref;    (* this.active, a Set *)
  stats : Stats
}.

Section WithCallbacks.
Context {T : Type}.
(** [createFn ()] builds a new object; its fields may depend on the
    call (random fields), here on the address it gets. [resetFn obj]
    rewrites the fields of [obj] in place. *)
Variable createFn : ref → T.
Variable resetFn : T → T.

Definition call_createFn (heap : list T) : ref * list T :=
  alloc (createFn (length heap)) heap.

Definition call_resetFn (obj : ref) (heap : list T) : list T :=
  alter resetFn obj heap.

(** The pre-population loop of the constructor. *)
Fixpoint prepopulate (n : nat) (heap : list T) (pool : list ref)
  : list T * list ref :=
  match n with
  | O => (heap, pool)
  | S n' =>
      let '(obj, heap') := call_createFn heap in
      prepopulate n' heap' (JsArray.push pool obj)
  end.

Definition constructor (initialSize : nat) (heap : list T)
   : list T * t :=
  let '(heap', pool0) := prepopulate initialSize heap [] in
  (heap', {| pool := pool0;
             active := [];
             stats := {| totalCreated := initialSize;
                         maxActive := 0;
                         poolHits := 0;
                         poolMisses := 0 |} |}).

Definition get (st : list T * t) : ref * (list T * t) :=
  let '(heap, p) := st in
  let s := stats p in
  let '(obj, heap', pool', s') :=
    match JsArray.pop (pool p) with
    | Some (obj, rest) =>
        (obj, heap, rest,
         {| totalCreated := totalCreated s;
            maxActive := maxActive s;
            poolHits := S (poolHits s);
            poolMisses := poolMisses s |})
    | None =>
        let '(obj, heap') := call_createFn heap in
        (obj, heap', pool p,
         {| totalCreated := S (totalCreated s);
            maxActive := maxActive s;
            poolHits := poolHits s;
            poolMisses := S (poolMisses s) |})
    end in
  let active' := JsSet.add (active p) obj in
  (obj, (heap',
         {| pool := pool';
            active := active';
            stats := {| totalCreated := totalCreated s';
                        maxActive := Nat.max (maxActive s') (JsSet.size active');
                        poolHits := poolHits s';
                        poolMisses := poolMisses s' |} |})).

Definition release (obj : ref) (st : list T * t)
   : list T * t :=
  let '(heap, p) := st in
  if JsSet.has (active p) obj then
    (call_resetFn obj heap,
     {| pool := JsArray.push (pool p) obj;
        active := JsSet.delete (active p) obj;
        stats := stats p |})
  else st.

Definition releaseAll (st : list T * t) : list T * t :=
  let '(heap, p) := st in
  (foldl (λ h obj, call_resetFn obj h) heap (active p),
   {| pool := foldl JsArray.push (pool p) (active p);
      active := [];
      stats := stats p |}).

Definition getActiveObjects (p : t) : list ref := active p.

(** [optimize()]: the free list is cut or filled to the size
    [max(maxActive * 1.5, 10)]. [splice(0, excess)] takes the integer
    part of [excess] objects from the front; the loop [i < needed] runs
    once for every integer below [needed]. The counters are not
    touched. *)
Definition optimize (st : list T * t) : list T * t :=
  let '(heap, p) := st in
  let avgActive := inject_Z (Z.of_nat (maxActive (stats p))) in
  let optimalSize := Qmax (avgActive * 1.5) 10 in
  let poolLength := inject_Z (Z.of_nat (length (pool p))) in
  if Qgtb poolLength optimalSize then
    (* reduce the pool size *)
    let excess := (poolLength - optimalSize)%Q in
    (heap,
     {| pool := drop (Z.to_nat (Qfloor excess)) (pool p);
        active := active p;
        stats := stats p |})
  else if Qltb poolLength optimalSize then
    (* increase the pool size *)
    let needed := (optimalSize - poolLength)%Q in
    let '(heap', pool') :=
      prepopulate (Z.to_nat (Qceiling needed)) heap (pool p) in
    (heap', {| pool := pool'; active := active p; stats := stats p |})
  else st.

(** A sequence of calls on one pool. *)
Inductive PoolCall := Get | Release (obj : ref).

Definition call (st : list T * t) (c : PoolCall)
   : list T * t :=
  match c with
  | Get => (get st).2
  | Release obj => release obj st
  end.

Definition calls (cs : list PoolCall) (st : list T * t)
   : list T * t :=
  foldl call st cs.
End WithCallbacks.

End ObjectPool.

(** ** core/game-engine.js: SpatialGrid *)

Module SpatialGrid.

Record t (E : Type) := mkGrid {
  cellSize : Q;
  cols : Z;
  rows : Z;
  grid : list (list E)
}.
Arguments mkGrid {E}.
Arguments cellSize {E}.
Arguments cols {E}.
Arguments rows {E}.
Arguments grid {E}.

Section WithEntities.
Context {E : Type}.
(** [entity.x] and [entity.y] of the entities the grid buckets. *)
Variables ent_x ent_y : E → Q.

Local Open Scope Z_scope.

(** [Array(cols * rows).fill().map(() => [])]. *)
Definition constructor (width height cellSize : Q) : t E :=
  let cols := Qceiling (width / cellSize) in
  let rows := Qceiling (height / cellSize) in
  {| cellSize := cellSize;
     cols := cols;
     rows := rows;
     grid := replicate (Z.to_nat (cols * rows)) [] |}.

Definition getCellIndex (g : t E) (x y : Q) : Z :=
  let col := Qfloor (x / cellSize g) in
  let row := Qfloor (y / cellSize g) in
  row * cols g + col.

Definition index_in_grid (g : t E) (index : Z) : bool :=
  (0 <=? index) && (index <? Z.of_nat (length (grid g))).

Definition insert (g : t E) (entity : E) : t E :=
  let index := getCellIndex g (ent_x entity) (ent_y entity) in
  if index_in_grid g index then
    {| cellSize := cellSize g;
       cols := cols g;
       rows := rows g;
       grid := alter (λ bucket, JsArray.push bucket entity)
                     (Z.to_nat index) (grid g) |}
  else g.

(** The two nested loops over [dy] and [dx], both from -1 to 1. *)
Definition neighbourhood : list (Z * Z) :=
  dy ← [-1; 0; 1]; dx ← [-1; 0; 1]; [(dy, dx)].

(** The body of the inner loop, for the cell at offset [(dy, dx)] of
    the cell [(row, col)]. *)
Definition visit (g : t E) (col row : Z) (results : list E)
    (d : Z * Z) : list E :=
  let '(dy, dx) := d in
  let checkCol := col + dx in
  let checkRow := row + dy in
  let index := checkRow * cols g + checkCol in
  if index_in_grid g index then
    results ++ default [] (grid g !! Z.to_nat index)
  else results.

Definition getNearbyEntities (g : t E) (x y : Q) : list E :=
  let col := Qfloor (x / cellSize g) in
  let row := Qfloor (y / cellSize g) in
  foldl (visit g col row) [] neighbourhood.

Definition clear (g : t E) : t E :=
  {| cellSize := cellSize g;
     cols := cols g;
     rows := rows g;
     grid := replicate (length (grid g)) [] |}.

(** A sequence of calls on one grid. *)
Inductive GridCall := Insert (entity : E) | Clear.

Definition grid_call (g : t E) (c : GridCall) : t E :=
  match c with
  | Insert entity => insert g entity
  | Clear => clear g
  end.

Definition grid_calls (cs : list GridCall) (g : t E) : t E :=
  foldl grid_call g cs.
End WithEntities.

End SpatialGrid.


(** ** entities/player.js *)

(** The names of the boolean properties that the power-ups switch on an
    object (the player, a bullet). *)
Inductive Flag :=
| rapidFire | shield | tripleShot | splitShot | laser
| quadShot | guidedShot | timeWarp | diamondShot | chainLightning.

Global Instance Flag_eq_dec : EqDecision Flag.
Proof. solve_decision. Defined.

Module Player.

Local Open Scope Q_scope.

Record t := mkPlayer {
  x : Q;
  y : Q;
  width : Q;
  height : Q;
  speed : Q;
  (* this.rapidFire, this.shield, ...: a property that the object does
     not have yet reads as false *)
  flags : Flag → bool;
  pointsMultiplier : Q;
  thrusterAnimation : Q
}.

(** [GAME_CONFIG.player]. *)
Definition config_width : Q := 40.
Definition config_height : Q := 30.
Definition config_speed : Q := 5.

Definition constructor (x y : Q) : t :=
  {| x := x; y := y;
     width := config_width; height := config_height; speed := config_speed;
     flags := λ _, false;
     pointsMultiplier := 1;
     thrusterAnimation := 0 |}.

Definition set_x (p : t) (x' : Q) : t :=
  {| x := x'; y := y p; width := width p; height := height p;
     speed := speed p; flags := flags p;
     pointsMultiplier := pointsMultiplier p;
     thrusterAnimation := thrusterAnimation p |}.

Definition set_thrusterAnimation (p : t) (a : Q) : t :=
  {| x := x p; y := y p; width := width p; height := height p;
     speed := speed p; flags := flags p;
     pointsMultiplier := pointsMultiplier p;
     thrusterAnimation := a |}.

Definition set_flag (p : t) (f : Flag) (b : bool) : t :=
  {| x := x p; y := y p; width := width p; height := height p;
     speed := speed p;
     flags := λ f', if decide (f' = f) then b else flags p f';
     pointsMultiplier := pointsMultiplier p;
     thrusterAnimation := thrusterAnimation p |}.

Definition set_pointsMultiplier (p : t) (m : Q) : t :=
  {| x := x p; y := y p; width := width p; height := height p;
     speed := speed p; flags := flags p;
     pointsMultiplier := m;
     thrusterAnimation := thrusterAnimation p |}.

(** [update(keys, canvasWidth, mouseX = null, useMouseControl = false)];
    [keys] is the set of the codes of the keys held down. *)
Definition update (keys : gset string) (canvasWidth : Q)
    (mouseX : option Q) (useMouseControl : bool) (p : t) : t :=
  let p := set_thrusterAnimation p (thrusterAnimation p + 0.2) in
  let p :=
    match mouseX, useMouseControl with
    | Some mouseX, true =>
        (* mouse control with smoothing *)
        let targetX := mouseX - width p / 2 in
        let diff := targetX - x p in
        let smoothingFactor := 0.15 in
        set_x p (x p + diff * smoothingFactor)
    | _, _ =>
        (* keyboard control *)
        let p :=
          if bool_decide ("ArrowLeft" ∈ keys) && Qgtb (x p) 0
          then set_x p (x p - speed p) else p in
        if bool_decide ("ArrowRight" ∈ keys)
           && Qltb (x p) (canvasWidth - width p)
        then set_x p (x p + speed p) else p
    end in
  (* keep the player within bounds *)
  set_x p (Qmax 0 (Qmin (canvasWidth - width p) (x p))).

End Player.

(** ** entities/bullet.js *)

Module Bullet.

Local Open Scope Q_scope.

Record t := mkBullet {
  x : Q;
  y : Q;
  speed : Q;
  speedX : Q;                 (* horizontal velocity for spread shots *)
  color : string;
  (* this.splitShot, and the guidedShot, diamondShot and chainLightning
     properties that Game.shoot adds *)
  flags : Flag → bool;
  game : bool;                (* whether this.game refers to the game *)
  trail : list (Q * Q);       (* {x, y} records, most recent first *)
  width : Q;
  height : Q
}.

(** [GAME_CONFIG.bullet]. *)
Definition config_width : Q := 4.
Definition config_height : Q := 10.
Definition config_speed : Q := 5.

(** [reset] writes the fields it names and leaves the others. *)
Definition reset (x y speed : Q) (color : string) (game : bool) (b : t) : t :=
  {| x := x;
     y := y;
     speed := speed;
     speedX := 0;
     color := color;
     flags := λ f, if decide (f = splitShot) then false else flags b f;
     game := game;
     trail := [];
     width := width b;
     height := height b |}.

Definition constructor (x y speed : Q) (color : string) (game : bool) : t :=
  {| x := x;
     y := y;
     speed := speed;
     speedX := 0;
     color := color;
     flags := λ _, false;
     game := game;
     trail := [];
     width := config_width;
     height := config_height |}.

Definition set_speedX (b : t) (v : Q) : t :=
  {| x := x b; y := y b; speed := speed b; speedX := v; color := color b;
     flags := flags b; game := game b; trail := trail b;
     width := width b; height := height b |}.

Definition set_flag (b : t) (f : Flag) (v : bool) : t :=
  {| x := x b; y := y b; speed := speed b; speedX := speedX b;
     color := color b;
     flags := λ f', if decide (f' = f) then v else flags b f';
     game := game b; trail := trail b;
     width := width b; height := height b |}.

(** A trail particle that [update] asks the particle pool of the game
    for: the arguments [x, y, vx, vy] of its [reset]. *)
Record TrailParticle := mkTrailParticle {
  tp_x : Q; tp_y : Q; tp_vx : Q; tp_vy : Q
}.

(** [update()]. The values [r0], [r1], [r2] are those of the calls of
    [Math.random()], in the order of the calls; a call that is not
    reached leaves its value unused. *)
Definition update (r0 r1 r2 : Q) (b : t) : t * option TrailParticle :=
  (* store the previous position for the trail effect *)
  let trail1 := (x b, y b) :: trail b in
  let trail2 :=
    if decide (5 < length trail1)%nat then removelast trail1 else trail1 in
  let b' :=
    {| x := x b + speedX b;
       y := y b + speed b;
       speed := speed b; speedX := speedX b; color := color b;
       flags := flags b; game := game b;
       trail := trail2;
       width := width b; height := height b |} in
  if game b && Qltb r0 0.3 then
    let vx := (r1 - 0.5) * 2 in
    let vy := (r2 - 0.5) * 2 in
    (b', Some {| tp_x := x b'; tp_y := y b'; tp_vx := vx; tp_vy := vy |})
  else (b', None).

(** A sequence of [update] calls, one triple of random values each. *)
Definition updates (rs : list (Q * Q * Q)) (b : t) : t :=
  foldl (λ b '(r0, r1, r2), (update r0 r1 r2 b).1) b rs.

(** The positions at which the calls of [updates] found the bullet,
    oldest first. *)
Fixpoint positions (rs : list (Q * Q * Q)) (b : t) : list (Q * Q) :=
  match rs with
  | [] => []
  | (r0, r1, r2) :: rs' => (x b, y b) :: positions rs' (update r0 r1 r2 b).1
  end.

End Bullet.

(** ** entities/alien.js *)

Module Alien.

Inductive type := normal | shielded | shooter.

Global Instance type_eq_dec : EqDecision type.
Proof. solve_decision. Defined.

Record t := mkAlien {
  x : Q;
  y : Q;
  row : Z;
  width : Q;
  height : Q;
  type_ : type;               (* this.type *)
  shieldStrength : Z          (* read for a shielded alien only *)
}.

Definition set_shieldStrength (a : t) (s : Z) : t :=
  {| x := x a; y := y a; row := row a; width := width a;
     height := height a; type_ := type_ a; shieldStrength := s |}.

End Alien.

(** ** entities/power-up.js *)

Module PowerUp.

(** The keys of [Game.powerUps] that hold an [{active, expireTime}]
    record, in the order of the object literal. *)
Inductive key :=
| shield | rapidFire | quadShot | splitShot | slowMotion | multiplier
| laser | guidedShot | timeWarp | diamondShot | wingman | chainLightning.

Global Instance key_eq_dec : EqDecision key.
Proof. solve_decision. Defined.

(** The type names of [this.types]: ['life'] and ['bomb'], which have no
    such record, and the twelve names above. *)
Inductive type := life | bomb | keyed (k : key).

Global Instance type_eq_dec : EqDecision type.
Proof. solve_decision. Defined.

Definition types : list type :=
  [life; keyed rapidFire; keyed shield; keyed quadShot; keyed slowMotion;
   bomb; keyed multiplier; keyed laser; keyed splitShot; keyed guidedShot;
   keyed timeWarp; keyed diamondShot; keyed wingman; keyed chainLightning].

(** The collectible item: the fields the engine reads. *)
Record t := mkPowerUp {
  x : Q;
  y : Q;
  width : Q;
  height : Q;
  speed : Q;
  type_ : type
}.

(** [reset(x, y, gameInstance = null)], for the fields above. Without a
    game instance the type is drawn at random from [this.types], with
    one it is the result of [selectOptimalType(gameInstance)]; [drawn]
    stands for the type that is selected. *)
Definition reset (x y : Q) (drawn : type) (p : t) : t :=
  {| x := x; y := y; width := width p; height := height p;
     speed := speed p; type_ := drawn |}.

(** [new PowerUp(x, y)]: the reset, then the size and the speed. *)
Definition constructor (x y : Q) (drawn : type) : t :=
  {| x := x; y := y; width := 20; height := 20; speed := 2;
     type_ := drawn |}.

End PowerUp.

(** ** core/game-engine.js: GAME_CONFIG.powerUps *)

(** The three shapes of a configuration entry: [type: 'instant'],
    [type: 'permanent'], and an entry with a [duration] in
    milliseconds. Each carries its [score]. *)
Inductive PowerUpConfig :=
| Instant (score : Z)
| Permanent (score : Z)
| Timed (duration : Z) (score : Z).

Definition config_score (c : PowerUpConfig) : Z :=
  match c with
  | Instant s | Permanent s | Timed _ s => s
  end.

Definition GAME_CONFIG_powerUps (type : PowerUp.type) : PowerUpConfig :=
  match type with
  | PowerUp.life => Instant 50
  | PowerUp.bomb => Instant 150
  | PowerUp.keyed PowerUp.shield => Permanent 75
  | PowerUp.keyed PowerUp.rapidFire => Timed 5000 100
  | PowerUp.keyed PowerUp.quadShot => Timed 10000 125
  | PowerUp.keyed PowerUp.slowMotion => Timed 7000 80
  | PowerUp.keyed PowerUp.multiplier => Timed 15000 90
  | PowerUp.keyed PowerUp.laser => Timed 2500 150
  | PowerUp.keyed PowerUp.splitShot => Timed 8000 125
  | PowerUp.keyed PowerUp.guidedShot => Timed 6000 100
  | PowerUp.keyed PowerUp.timeWarp => Timed 4000 120
  | PowerUp.keyed PowerUp.diamondShot => Timed 5000 110
  | PowerUp.keyed PowerUp.wingman => Timed 8000 120
  | PowerUp.keyed PowerUp.chainLightning => Timed 7000 130
  end.

(** ** main.js: the bounding boxes *)

(** The [x], [y], [width] and [height] that every entity has. *)
Record Rect := mkRect {
  rect_x : Q;
  rect_y : Q;
  rect_width : Q;
  rect_height : Q
}.

Definition player_rect (p : Player.t) : Rect :=
  mkRect (Player.x p) (Player.y p) (Player.width p) (Player.height p).

Definition bullet_rect (b : Bullet.t) : Rect :=
  mkRect (Bullet.x b) (Bullet.y b) (Bullet.width b) (Bullet.height b).

(** [Game.collision(rect1, rect2)]. *)
Definition collision (rect1 rect2 : Rect) : bool :=
  Qltb (rect_x rect1) (rect_x rect2 + rect_width rect2)
  && Qgtb (rect_x rect1 + rect_width rect1) (rect_x rect2)
  && Qltb (rect_y rect1) (rect_y rect2 + rect_height rect2)
  && Qgtb (rect_y rect1 + rect_height rect1) (rect_y rect2).

(** ** main.js: the Game class *)

(** The objects of the store: bullets (of the player and of the aliens),
    aliens and power-up items. *)
Inductive Obj :=
| OBullet (b : Bullet.t)
| OAlien (a : Alien.t)
| OPowerUp (p : PowerUp.t).

Definition alien_rect (a : Alien.t) : Rect :=
  mkRect (Alien.x a) (Alien.y a) (Alien.width a) (Alien.height a).

Definition powerUp_rect (p : PowerUp.t) : Rect :=
  mkRect (PowerUp.x p) (PowerUp.y p) (PowerUp.width p) (PowerUp.height p).

Definition obj_rect (o : Obj) : Rect :=
  match o with
  | OBullet b => bullet_rect b
  | OAlien a => alien_rect a
  | OPowerUp p => powerUp_rect p
  end.

(** The box of the object behind a reference. *)
Definition rect_of (heap : list Obj) (r : ref) : Rect :=
  match heap !! r with
  | Some o => obj_rect o
  | None => mkRect 0 0 0 0
  end.

Module Game.

Local Open Scope Q_scope.

(** [expireTime]: a time stamp or [Infinity]. *)
Inductive ExpireTime := At (time : Z) | Infinity.

Record Timer := mkTimer {
  active : bool;
  expireTime : ExpireTime
}.

(** [this.powerUps]. *)
Record PowerUps := mkPowerUps {
  timer : PowerUp.key → Timer;
  multiplier_value : Q;         (* this.powerUps.multiplier.value *)
  bomb_count : nat;             (* this.powerUps.bomb.count *)
  bomb_ready : bool             (* this.powerUps.bomb.ready *)
}.

(** Calls that leave the modelled state alone: the audio system, the
    particle effects, the labels and the page, and the zaps that
    [createChainLightning] schedules with [setTimeout], which run after
    the frame. [ExplosionParticles] stands for the particles and sparks
    that [createExplosion] takes from the particle pool, not for the
    whole call: see [createExplosion] below. *)
Inductive Event :=
| PlaySound (frequency duration : Q) (wave : string)
| ExplosionParticles (x y : Q)
| CreateSplashLabel (type : PowerUp.type) (x y : Q)
| UpdateUI
| CreateChainLightning (x y : Q)
| SplitParticles (x y : Q).

Record t := mkGame {
  score : Q;                          (* this.state.score *)
  lives : Z;                          (* this.state.lives *)
  player : Player.t;
  wingman_active : bool;              (* this.wingman.active *)
  heap : list Obj;
  pools_bullets : ObjectPool.t;
  pools_alienBullets : ObjectPool.t;
  pools_powerUps : ObjectPool.t;
  aliens : list ref;
  powerUps : PowerUps;
  spatialGrid : SpatialGrid.t ref;
  log : list Event;
  lastDropTime : Z                    (* this.powerUpManager.lastDropTime *)
}.

Definition set_score (g : t) (v : Q) : t :=
  mkGame v (lives g) (player g) (wingman_active g) (heap g)
    (pools_bullets g) (pools_alienBullets g) (pools_powerUps g) (aliens g)
    (powerUps g) (spatialGrid g) (log g) (lastDropTime g).

Definition set_lives (g : t) (v : Z) : t :=
  mkGame (score g) v (player g) (wingman_active g) (heap g)
    (pools_bullets g) (pools_alienBullets g) (pools_powerUps g) (aliens g)
    (powerUps g) (spatialGrid g) (log g) (lastDropTime g).

Definition set_player (g : t) (v : Player.t) : t :=
  mkGame (score g) (lives g) v (wingman_active g) (heap g)
    (pools_bullets g) (pools_alienBullets g) (pools_powerUps g) (aliens g)
    (powerUps g) (spatialGrid g) (log g) (lastDropTime g).

Definition set_wingman_active (g : t) (v : bool) : t :=
  mkGame (score g) (lives g) (player g) v (heap g)
    (pools_bullets g) (pools_alienBullets g) (pools_powerUps g) (aliens g)
    (powerUps g) (spatialGrid g) (log g) (lastDropTime g).

Definition set_heap (g : t) (v : list Obj) : t :=
  mkGame (score g) (lives g) (player g) (wingman_active g) v
    (pools_bullets g) (pools_alienBullets g) (pools_powerUps g) (aliens g)
    (powerUps g) (spatialGrid g) (log g) (lastDropTime g).

Definition set_pools_bullets (g : t) (v : ObjectPool.t) : t :=
  mkGame (score g) (lives g) (player g) (wingman_active g) (heap g)
    v (pools_alienBullets g) (pools_powerUps g) (aliens g)
    (powerUps g) (spatialGrid g) (log g) (lastDropTime g).

Definition set_aliens (g : t) (v : list ref) : t :=
  mkGame (score g) (lives g) (player g) (wingman_active g) (heap g)
    (pools_bullets g) (pools_alienBullets g) (pools_powerUps g) v
    (powerUps g) (spatialGrid g) (log g) (lastDropTime g).

Definition set_powerUps (g : t) (v : PowerUps) : t :=
  mkGame (score g) (lives g) (player g) (wingman_active g) (heap g)
    (pools_bullets g) (pools_alienBullets g) (pools_powerUps g) (aliens g)
    v (spatialGrid g) (log g) (lastDropTime g).

Definition set_spatialGrid (g : t) (v : SpatialGrid.t ref) : t :=
  mkGame (score g) (lives g) (player g) (wingman_active g) (heap g)
    (pools_bullets g) (pools_alienBullets g) (pools_powerUps g) (aliens g)
    (powerUps g) v (log g) (lastDropTime g).

Definition emit (e : Event) (g : t) : t :=
  mkGame (score g) (lives g) (player g) (wingman_active g) (heap g)
    (pools_bullets g) (pools_alienBullets g) (pools_powerUps g) (aliens g)
    (powerUps g) (spatialGrid g) (log g ++ [e]) (lastDropTime g).

Definition set_lastDropTime (g : t) (v : Z) : t :=
  mkGame (score g) (lives g) (player g) (wingman_active g) (heap g)
    (pools_bullets g) (pools_alienBullets g) (pools_powerUps g) (aliens g)
    (powerUps g) (spatialGrid g) (log g) v.

Definition set_timer (k : PowerUp.key) (tm : Timer) (p : PowerUps)
  : PowerUps :=
  {| timer := λ k', if decide (k' = k) then tm else timer p k';
     multiplier_value := multiplier_value p;
     bomb_count := bomb_count p;
     bomb_ready := bomb_ready p |}.

Definition set_player_flag (f : Flag) (b : bool) (g : t) : t :=
  set_player g (Player.set_flag (player g) f b).

(** *** The power-up timers *)

(** [expirationMap[key]]; there is none for ['slowMotion']. *)
Definition expirationMap (key : PowerUp.key) : option (t → t) :=
  match key with
  | PowerUp.shield => Some (set_player_flag shield false)
  | PowerUp.rapidFire => Some (set_player_flag rapidFire false)
  | PowerUp.quadShot => Some (set_player_flag quadShot false)
  | PowerUp.multiplier =>
      Some (λ g,
        let g := set_player g (Player.set_pointsMultiplier (player g) 1) in
        set_powerUps g
          {| timer := timer (powerUps g);
             multiplier_value := 1;
             bomb_count := bomb_count (powerUps g);
             bomb_ready := bomb_ready (powerUps g) |})
  | PowerUp.laser => Some (set_player_flag laser false)
  | PowerUp.splitShot => Some (set_player_flag splitShot false)
  | PowerUp.guidedShot => Some (set_player_flag guidedShot false)
  | PowerUp.timeWarp => Some (set_player_flag timeWarp false)
  | PowerUp.diamondShot => Some (set_player_flag diamondShot false)
  | PowerUp.wingman => Some (λ g, set_wingman_active g false)
  | PowerUp.chainLightning => Some (set_player_flag chainLightning false)
  | PowerUp.slowMotion => None
  end.

(** The keys of [this.powerUps], as [Object.entries] lists them. *)
Definition entries : list PowerUp.type :=
  [PowerUp.keyed PowerUp.shield; PowerUp.keyed PowerUp.rapidFire;
   PowerUp.keyed PowerUp.quadShot; PowerUp.keyed PowerUp.splitShot;
   PowerUp.keyed PowerUp.slowMotion; PowerUp.keyed PowerUp.multiplier;
   PowerUp.bomb;
   PowerUp.keyed PowerUp.laser; PowerUp.keyed PowerUp.guidedShot;
   PowerUp.keyed PowerUp.timeWarp; PowerUp.keyed PowerUp.diamondShot;
   PowerUp.keyed PowerUp.wingman; PowerUp.keyed PowerUp.chainLightning].

(** The body of the loop of [updatePowerUpTimers] for one entry. *)
Definition sweep (currentTime : Z) (g : t) (key : PowerUp.type) : t :=
  match key with
  | PowerUp.keyed k =>
      let powerUp := timer (powerUps g) k in
      match expireTime powerUp with
      | Infinity => g           (* permanent power-ups are skipped *)
      | At expire =>
          if active powerUp && (currentTime >? expire)%Z then
            let g := set_powerUps g
                       (set_timer k (mkTimer false (At expire)) (powerUps g)) in
            match expirationMap k with
            | Some expirationEffect => expirationEffect g
            | None => g
            end
          else g
      end
  | _ =>
      (* the bomb entry has no expireTime and no active property: both
         tests fail *)
      g
  end.

(** [updatePowerUpTimers()], with the value [Date.now()] returns. *)
Definition updatePowerUpTimers (currentTime : Z) (g : t) : t :=
  foldl (sweep currentTime) g entries.

(** *** Collecting a power-up *)

Definition handleInstantPowerUp (type : PowerUp.type) (g : t) : t :=
  match type with
  | PowerUp.life =>
      emit (PlaySound 660 0.3 "sine")
           (set_lives g (Z.min (lives g + 1) 5))
  | PowerUp.bomb =>
      emit (PlaySound 220 0.6 "sawtooth")
           (set_powerUps g
              {| timer := timer (powerUps g);
                 multiplier_value := multiplier_value (powerUps g);
                 bomb_count := S (bomb_count (powerUps g));
                 bomb_ready := true |})
  | _ => g
  end.

Definition handlePermanentPowerUp (type : PowerUp.type) (g : t) : t :=
  match type with
  | PowerUp.keyed PowerUp.shield =>
      let g := set_powerUps g
                 (set_timer PowerUp.shield (mkTimer true Infinity)
                            (powerUps g)) in
      let g := set_player_flag shield true g in
      emit (PlaySound 440 0.4 "sine") g
  | _ => g
  end.

(** The property of the player that an entry of [effectMap] names. *)
Inductive PlayerProp :=
| PFlag (f : Flag)                     (* set to true *)
| PPointsMultiplier (playerValue : Q)  (* 'pointsMultiplier' *)
| PWingman.                            (* 'wingman' *)

Record Effect := mkEffect {
  powerUpKey : PowerUp.key;
  playerProp : option PlayerProp;
  sound : Event
}.

Definition effectMap (type : PowerUp.type) : option Effect :=
  match type with
  | PowerUp.keyed PowerUp.rapidFire =>
      Some (mkEffect PowerUp.rapidFire (Some (PFlag rapidFire))
                     (PlaySound 880 0.3 "triangle"))
  | PowerUp.keyed PowerUp.shield =>
      Some (mkEffect PowerUp.shield (Some (PFlag shield))
                     (PlaySound 440 0.4 "sine"))
  | PowerUp.keyed PowerUp.quadShot =>
      Some (mkEffect PowerUp.quadShot (Some (PFlag quadShot))
                     (PlaySound 1100 0.3 "square"))
  | PowerUp.keyed PowerUp.slowMotion =>
      Some (mkEffect PowerUp.slowMotion None
                     (PlaySound 330 0.5 "sawtooth"))
  | PowerUp.keyed PowerUp.multiplier =>
      Some (mkEffect PowerUp.multiplier (Some (PPointsMultiplier 2))
                     (PlaySound 1320 0.3 "sine"))
  | PowerUp.keyed PowerUp.laser =>
      Some (mkEffect PowerUp.laser (Some (PFlag laser))
                     (PlaySound 1760 0.3 "sine"))
  | PowerUp.keyed PowerUp.splitShot =>
      Some (mkEffect PowerUp.splitShot (Some (PFlag splitShot))
                     (PlaySound 1320 0.3 "triangle"))
  | PowerUp.keyed PowerUp.guidedShot =>
      Some (mkEffect PowerUp.guidedShot (Some (PFlag guidedShot))
                     (PlaySound 880 0.4 "sine"))
  | PowerUp.keyed PowerUp.timeWarp =>
      Some (mkEffect PowerUp.timeWarp (Some (PFlag timeWarp))
                     (PlaySound 440 0.5 "triangle"))
  | PowerUp.keyed PowerUp.diamondShot =>
      Some (mkEffect PowerUp.diamondShot (Some (PFlag diamondShot))
                     (PlaySound 1320 0.3 "sine"))
  | PowerUp.keyed PowerUp.wingman =>
      Some (mkEffect PowerUp.wingman (Some PWingman)
                     (PlaySound 660 0.3 "sawtooth"))
  | PowerUp.keyed PowerUp.chainLightning =>
      Some (mkEffect PowerUp.chainLightning (Some (PFlag chainLightning))
                     (PlaySound 1100 0.4 "triangle"))
  | PowerUp.life | PowerUp.bomb => None
  end.

Definition handleTimedPowerUp (type : PowerUp.type) (duration : Z)
    (currentTime : Z) (g : t) : t :=
  match effectMap type with
  | Some effect =>
      (* activate the power-up *)
      let g := set_powerUps g
                 (set_timer (powerUpKey effect)
                    (mkTimer true (At (currentTime + duration)))
                    (powerUps g)) in
      (* update the player properties *)
      let g :=
        match playerProp effect with
        | Some PWingman => set_wingman_active g true
        | Some (PFlag f) => set_player_flag f true g
        | Some (PPointsMultiplier playerValue) =>
            set_player g (Player.set_pointsMultiplier (player g) playerValue)
        | None => g
        end in
      emit (sound effect) g
  | None => g
  end.

(** [applyPowerUp(type)], with the value [Date.now()] returns. *)
Definition applyPowerUp (type : PowerUp.type) (currentTime : Z) (g : t) : t :=
  let config := GAME_CONFIG_powerUps type in
  (* add the score of the power-up *)
  let g := set_score g (score g + inject_Z (config_score config)) in
  let g :=
    match config with
    | Instant _ => handleInstantPowerUp type g
    | Permanent _ => handlePermanentPowerUp type g
    | Timed duration _ => handleTimedPowerUp type duration currentTime g
    end in
  let g := emit (CreateSplashLabel type
                   (Player.x (player g) + Player.width (player g) / 2)
                   (Player.y (player g) - 30)) g in
  emit UpdateUI g.

(** *** The bullet pool of the game *)

(** [() => new Bullet(0, 0, 0, '#00ff00', this)] and
    [(bullet) => bullet.reset(0, 0, 0, '#00ff00', this)]. *)
Definition bullets_createFn (_ : ref) : Obj :=
  OBullet (Bullet.constructor 0 0 0 "#00ff00" true).

Definition on_bullet (f : Bullet.t → Bullet.t) (o : Obj) : Obj :=
  match o with
  | OBullet b => OBullet (f b)
  | _ => o
  end.

Definition on_alien (f : Alien.t → Alien.t) (o : Obj) : Obj :=
  match o with
  | OAlien a => OAlien (f a)
  | _ => o
  end.

Definition bullets_resetFn : Obj → Obj :=
  on_bullet (Bullet.reset 0 0 0 "#00ff00" true).

(** [this.pools.bullets.get()] and [this.pools.bullets.release(obj)]. *)
Definition bullets_get (g : t) : ref * t :=
  let '(obj, (heap', pool')) :=
    ObjectPool.get bullets_createFn (heap g, pools_bullets g) in
  (obj, set_pools_bullets (set_heap g heap') pool').

Definition bullets_release (obj : ref) (g : t) : t :=
  let '(heap', pool') :=
    ObjectPool.release bullets_resetFn obj (heap g, pools_bullets g) in
  set_pools_bullets (set_heap g heap') pool'.

(** *** The pool of the power-up items and createExplosion *)

(** [() => new PowerUp(0, 0)] and [(powerUp) => powerUp.reset(0, 0)];
    [drawn] is the type that the constructor or the reset draws. *)
Definition powerUps_createFn (drawn : PowerUp.type) (_ : ref) : Obj :=
  OPowerUp (PowerUp.constructor 0 0 drawn).

Definition on_powerUp (f : PowerUp.t → PowerUp.t) (o : Obj) : Obj :=
  match o with
  | OPowerUp p => OPowerUp (f p)
  | _ => o
  end.

Definition powerUps_resetFn (drawn : PowerUp.type) : Obj → Obj :=
  on_powerUp (PowerUp.reset 0 0 drawn).

Definition set_pools_powerUps (g : t) (v : ObjectPool.t) : t :=
  mkGame (score g) (lives g) (player g) (wingman_active g) (heap g)
    (pools_bullets g) (pools_alienBullets g) v (aliens g)
    (powerUps g) (spatialGrid g) (log g) (lastDropTime g).

Definition powerUps_get (drawn : PowerUp.type) (g : t) : ref * t :=
  let '(obj, (heap', pool')) :=
    ObjectPool.get (powerUps_createFn drawn) (heap g, pools_powerUps g) in
  (obj, set_pools_powerUps (set_heap g heap') pool').

Definition powerUps_release (drawn : PowerUp.type) (obj : ref) (g : t) : t :=
  let '(heap', pool') :=
    ObjectPool.release (powerUps_resetFn drawn) obj
      (heap g, pools_powerUps g) in
  set_pools_powerUps (set_heap g heap') pool'.

(** The constants of [this.powerUpManager]. *)
Definition minDropInterval : Z := 2000.
Definition maxActivePowerUps : nat := 3.
Definition dropChanceReduction : Q := 0.5.
Definition comboCooldown : Z := 5000.

(** What one call of [spawnPowerUpIfAppropriate] reads from outside the
    game: the value of [Date.now()], the value of [Math.random()] in the
    test of the drop chance, the type that [new PowerUp(0, 0)] draws
    when the pool has to create the item, and the type that
    [reset(x, y, this)] selects for it. *)
Record Chance := mkChance {
  chance_now : Z;
  chance_roll : Q;
  chance_created : PowerUp.type;
  chance_selected : PowerUp.type
}.

(** [spawnPowerUpIfAppropriate(x, y, isBomb = false)]. *)
Definition spawnPowerUpIfAppropriate (c : Chance) (x y : Q) (isBomb : bool)
    (g : t) : t :=
  let currentTime := chance_now c in
  (* the minimum drop interval *)
  if (currentTime - lastDropTime g <? minDropInterval)%Z then g else
  (* the active power-ups on screen *)
  let activePowerUps := ObjectPool.getActiveObjects (pools_powerUps g) in
  let activeCount := length activePowerUps in
  if (maxActivePowerUps <=? activeCount)%nat then g else
  (* the combo cooldown *)
  let hasComboPowerUps :=
    active (timer (powerUps g) PowerUp.quadShot)
    && active (timer (powerUps g) PowerUp.splitShot) in
  if hasComboPowerUps && (currentTime - lastDropTime g <? comboCooldown)%Z
  then g else
  (* the dynamic drop chance *)
  let baseChance := if isBomb then 0.25 else 0.08 in
  let baseChance :=
    if (1 <? activeCount)%nat then baseChance * dropChanceReduction
    else baseChance in
  let baseChance :=
    if hasComboPowerUps then baseChance * 0.3 else baseChance in
  if Qltb (chance_roll c) baseChance then
    let '(powerUp, g) := powerUps_get (chance_created c) g in
    let g :=
      set_heap g
        (alter (on_powerUp (PowerUp.reset x y (chance_selected c)))
               powerUp (heap g)) in
    set_lastDropTime g currentTime
  else g.

(** [createExplosion(x, y)], with [isBomb] false: the particles and
    sparks, which are left to the particle system, the sound, and the
    power-up that may drop. *)
Definition createExplosion (c : Chance) (x y : Q) (g : t) : t :=
  let g := emit (ExplosionParticles x y) g in
  let g := emit (PlaySound 220 0.2 "sawtooth") g in
  spawnPowerUpIfAppropriate c x y false g.

(** *** checkCollisions: the grid and the bullets of the player *)

(** The grid is cleared and filled with the aliens and with the active
    bullets, alien bullets and power-up items. *)
Definition rebuildGrid (g : t) : t :=
  let insert :=
    SpatialGrid.insert (λ r, rect_x (rect_of (heap g) r))
                       (λ r, rect_y (rect_of (heap g) r)) in
  let grid := SpatialGrid.clear (spatialGrid g) in
  let grid := foldl insert grid (aliens g) in
  let grid := foldl insert grid
                (ObjectPool.getActiveObjects (pools_bullets g)) in
  let grid := foldl insert grid
                (ObjectPool.getActiveObjects (pools_alienBullets g)) in
  let grid := foldl insert grid
                (ObjectPool.getActiveObjects (pools_powerUps g)) in
  set_spatialGrid g grid.

(** [createSplitBullets(x, y)]. The velocity [(speedX, speedY)] of the
    [i]-th bullet comes from a random angle; [velocity i] stands for it.
    The particles of each bullet are left to the particle system. *)
Definition createSplitBullets (velocity : nat → Q * Q) (x y : Q) (g : t) : t :=
  let splitCount :=
    if active (timer (powerUps g) PowerUp.quadShot) then 3%nat else 4%nat in
  let g :=
    foldl (λ g i,
             let '(speedX, speedY) := velocity i in
             let '(bullet, g) := bullets_get g in
             let g :=
               set_heap g
                 (alter (on_bullet (λ b,
                           Bullet.set_speedX
                             (Bullet.reset x y speedY "#ff88cc" true b)
                             speedX))
                        bullet (heap g)) in
             emit (SplitParticles x y) g)
          g (seq 0 splitCount) in
  emit (PlaySound 1320 0.2 "triangle") g.

(** The test of the inner loop:
    [this.aliens.includes(alien) && this.collision(bullet, alien)]. *)
Definition hits (g : t) (bullet alien : ref) : bool :=
  bool_decide (alien ∈ aliens g)
  && collision (rect_of (heap g) bullet) (rect_of (heap g) alien).

(** The body of that test, up to its [break]. A reference in
    [this.aliens] is an alien and one in the bullet pool is a bullet;
    the last case is for stores that break this. [chance] is what the
    call of [createExplosion] reads from outside the game. *)
Definition resolve (velocity : nat → Q * Q) (chance : Chance)
    (bullet alien : ref) (g : t) : t :=
  match heap g !! bullet, heap g !! alien with
  | Some (OBullet b), Some (OAlien a) =>
      let centreX := Alien.x a + Alien.width a / 2 in
      let centreY := Alien.y a + Alien.height a / 2 in
      if bool_decide (Alien.type_ a = Alien.shielded)
         && (Alien.shieldStrength a >? 1)%Z
      then
        (* reduce the shield strength *)
        let g :=
          set_heap g
            (alter (on_alien (λ a,
                      Alien.set_shieldStrength a (Alien.shieldStrength a - 1)))
                   alien (heap g)) in
        let g := bullets_release bullet g in
        (* visual feedback for the shield hit *)
        let g := createExplosion chance centreX centreY g in
        emit (PlaySound 880 0.1 "sine") g
      else
        let g := createExplosion chance centreX centreY g in
        (* the special bullet effects *)
        let g :=
          if Bullet.flags b splitShot then
            bullets_release bullet
              (createSplitBullets velocity (Bullet.x b) (Bullet.y b) g)
          else if Bullet.flags b diamondShot then
            g                 (* the bullet is not released *)
          else if Bullet.flags b chainLightning then
            bullets_release bullet
              (emit (CreateChainLightning (Bullet.x b) (Bullet.y b)) g)
          else bullets_release bullet g in
        (* remove the alien from the main array *)
        let g :=
          match list_find (λ r, r = alien) (aliens g) with
          | Some (alienIndex, _) => set_aliens g (delete alienIndex (aliens g))
          | None => g
          end in
        (* the score of the alien *)
        let baseScore := (4 - inject_Z (Alien.row a)) * 10 in
        let baseScore :=
          match Alien.type_ a with
          | Alien.shielded => baseScore * 2
          | Alien.shooter => baseScore * 1.5
          | Alien.normal => baseScore
          end in
        let multiplier :=
          if active (timer (powerUps g) PowerUp.multiplier)
          then multiplier_value (powerUps g) else 1 in
        let g := set_score g (score g + baseScore * multiplier) in
        let g := emit (PlaySound 1100 0.1 "square") g in
        emit UpdateUI g
  | _, _ => g
  end.

(** The inner loop over the candidates, given in the order in which the
    loop takes them. *)
Fixpoint scan (velocity : nat → Q * Q) (chance : Chance) (bullet : ref)
    (candidates : list ref) (g : t) : t :=
  match candidates with
  | [] => g
  | alien :: rest =>
      if hits g bullet alien
      then resolve velocity chance bullet alien g   (* ends with break *)
      else scan velocity chance bullet rest g
  end.

(** The body of the outer loop: [j] runs from [nearbyAliens.length - 1]
    down to 0. *)
Definition bulletVsAliens (velocity : ref → nat → Q * Q)
    (chances : ref → Chance) (g : t) (bullet : ref) : t :=
  let nearbyAliens :=
    SpatialGrid.getNearbyEntities (spatialGrid g)
      (rect_x (rect_of (heap g) bullet)) (rect_y (rect_of (heap g) bullet)) in
  scan (velocity bullet) (chances bullet) bullet (reverse nearbyAliens) g.



(** *** checkCollisions: the bullets of the aliens *)

(** [() => new Bullet(0, 0, 0, '#ff4400', this)] and
    [(bullet) => bullet.reset(0, 0, 0, '#ff4400', this)]. *)
Definition alienBullets_createFn (_ : ref) : Obj :=
  OBullet (Bullet.constructor 0 0 0 "#ff4400" true).

Definition alienBullets_resetFn : Obj → Obj :=
  on_bullet (Bullet.reset 0 0 0 "#ff4400" true).

Definition set_pools_alienBullets (g : t) (v : ObjectPool.t) : t :=
  mkGame (score g) (lives g) (player g) (wingman_active g) (heap g)
    (pools_bullets g) v (pools_powerUps g) (aliens g)
    (powerUps g) (spatialGrid g) (log g) (lastDropTime g).

Definition alienBullets_release (obj : ref) (g : t) : t :=
  let '(heap', pool') :=
    ObjectPool.release alienBullets_resetFn obj
      (heap g, pools_alienBullets g) in
  set_pools_alienBullets (set_heap g heap') pool'.

(** [this.effects.screenShake]. *)
Record ScreenShake := mkScreenShake {
  shake_active : bool;
  shake_intensity : Q;
  shake_duration : Q;
  shake_startTime : Z
}.

(** [addScreenShake(intensity, duration)], with the value [Date.now()]
    returns. *)
Definition addScreenShake (intensity duration : Q) (now : Z) : ScreenShake :=
  mkScreenShake true intensity duration now.

(** The body of the loop of the alien bullets for one bullet. The state
    is the game and the screen shake; the result also says whether the
    body has called [gameOver()], after which [checkCollisions]
    returns. [now] is the value of [Date.now()] in [addScreenShake],
    [chance] what the call of [createExplosion] reads. *)
Definition alienBulletVsPlayer (now : Z) (chance : Chance)
    (st : t * ScreenShake) (bullet : ref) : t * ScreenShake * bool :=
  let '(g, shake) := st in
  if collision (rect_of (heap g) bullet) (player_rect (player g)) then
    let g := alienBullets_release bullet g in
    if active (timer (powerUps g) PowerUp.shield) then
      (* the shield absorbs the hit *)
      let g := set_powerUps g
                 (set_timer PowerUp.shield
                    (mkTimer false
                       (expireTime (timer (powerUps g) PowerUp.shield)))
                    (powerUps g)) in
      let g := set_player_flag shield false g in
      let g := emit (PlaySound 880 0.2 "sine") g in
      let g := createExplosion chance (Player.x (player g))
                               (Player.y (player g)) g in
      (g, shake, false)
    else
      (* the player takes damage *)
      let g := set_lives g (lives g - 1) in
      let g := emit (PlaySound 150 0.3 "sawtooth") g in
      let g := emit UpdateUI g in
      let g := createExplosion chance (Player.x (player g))
                               (Player.y (player g)) g in
      let shake := addScreenShake 10 200 now in
      (g, shake, (lives g <=? 0)%Z)
  else (g, shake, false).

(** The loop over the alien bullets in the order the loop takes them; it
    stops when the body has called [gameOver()]. *)
Fixpoint alienBulletsLoop (now : ref → Z) (chances : ref → Chance)
    (bullets : list ref) (st : t * ScreenShake) : t * ScreenShake * bool :=
  match bullets with
  | [] => (st, false)
  | bullet :: rest =>
      let '(st', over) :=
        alienBulletVsPlayer (now bullet) (chances bullet) st bullet in
      if over then (st', true) else alienBulletsLoop now chances rest st'
  end.

(** [i] runs from [alienBullets.length - 1] down to 0 over the bullets
    that were active when the loop started. *)
Definition alienBulletsVsPlayer (now : ref → Z) (chances : ref → Chance)
    (st : t * ScreenShake) : t * ScreenShake * bool :=
  let alienBullets := ObjectPool.getActiveObjects (pools_alienBullets st.1) in
  alienBulletsLoop now chances (reverse alienBullets) st.

(** *** checkPowerUpCollisions *)

(** The [type], [x] and [y] of the object behind a reference to a
    power-up item, as the loop reads them after the release. *)
Definition powerUp_at (heap : list Obj) (r : ref) : option PowerUp.t :=
  match heap !! r with
  | Some (OPowerUp p) => Some p
  | _ => None
  end.

(** The body of the loop for one item: [drawn item] is the type that the
    reset of the item draws in the release, [now item] the time that
    [applyPowerUp] reads, [chances item] what the call of
    [createExplosion] reads. *)
Definition collectPowerUp (drawn : ref → PowerUp.type) (now : ref → Z)
    (chances : ref → Chance) (g : t) (powerUp : ref) : t :=
  if collision (rect_of (heap g) powerUp) (player_rect (player g)) then
    let g := powerUps_release (drawn powerUp) powerUp g in
    match powerUp_at (heap g) powerUp with
    | Some p =>
        let g := applyPowerUp (PowerUp.type_ p) (now powerUp) g in
        createExplosion (chances powerUp) (PowerUp.x p) (PowerUp.y p) g
    | None => g
    end
  else g.

Definition checkPowerUpCollisions (drawn : ref → PowerUp.type)
    (now : ref → Z) (chances : ref → Chance) (g : t) : t :=
  let activePowerUps := ObjectPool.getActiveObjects (pools_powerUps g) in
  foldl (collectPowerUp drawn now chances) g (reverse activePowerUps).

(** *** shoot *)

(** [a || b] for a number [a] that may be undefined: 0 and undefined
    give [b]. *)
Definition js_or (a : option Q) (b : Q) : Q :=
  match a with
  | Some v => if Qeq_bool v 0 then b else v
  | None => b
  end.

(** The object that [getBulletConfiguration()] returns. *)
Record BulletConfig := mkBulletConfig {
  count : nat;
  positions : list Q;
  speeds : list Q;
  color : string
}.

Definition set_color (config : BulletConfig) (c : string) : BulletConfig :=
  mkBulletConfig (count config) (positions config) (speeds config) c.

Definition getBulletConfiguration (g : t) : BulletConfig :=
  let on k := active (timer (powerUps g) k) in
  (* default configuration *)
  let config :=
    mkBulletConfig 1 [Player.x (player g) + Player.width (player g) / 2]
                   [0] "#00ff00" in
  let config := if on PowerUp.rapidFire
                then set_color config "#ff00ff" else config in
  let config := if on PowerUp.splitShot
                then set_color config "#ff0088" else config in
  let config := if on PowerUp.guidedShot
                then set_color config "#ff6600" else config in
  let config := if on PowerUp.diamondShot
                then set_color config "#00ffff" else config in
  let config := if on PowerUp.chainLightning
                then set_color config "#ff00ff" else config in
  if on PowerUp.quadShot then
    let config :=
      mkBulletConfig 4
        [Player.x (player g) + 2;
         Player.x (player g) + 8;
         Player.x (player g) + Player.width (player g) - 8;
         Player.x (player g) + Player.width (player g) - 2]
        [-3; -1; 1; 3]
        (color config) in
    if on PowerUp.splitShot then
      (* three bullets instead of four for the quad and split combo *)
      mkBulletConfig 3 (take 3 (positions config)) (take 3 (speeds config))
                     (color config)
    else config
  else config.

(** The laser beam: the test of [fireLaser] on an alien. *)
Definition in_beam (g : t) (a : Alien.t) : bool :=
  let laserWidth := 4 in
  let laserX := Player.x (player g) + Player.width (player g) / 2 in
  Qle_bool (Alien.x a) (laserX + laserWidth / 2)
  && Qle_bool (laserX - laserWidth / 2) (Alien.x a + Alien.width a)
  && Qle_bool 0 (Alien.y a + Alien.height a)
  && Qle_bool (Alien.y a) (Player.y (player g)).

(** The body of the loop of [fireLaser] over the aliens, at index [i];
    the state is the game and [laserHit]; [chances i] is what the call
    of [createExplosion] at this index reads. *)
Definition laserStep (chances : nat → Chance) (st : t * bool) (i : nat)
  : t * bool :=
  let '(g, laserHit) := st in
  match aliens g !! i with
  | Some alien =>
      match heap g !! alien with
      | Some (OAlien a) =>
          if in_beam g a then
            let g := createExplosion (chances i)
                       (Alien.x a + Alien.width a / 2)
                       (Alien.y a + Alien.height a / 2) g in
            (* remove the alien from the main array *)
            let g := set_aliens g (delete i (aliens g)) in
            let baseScore := (4 - inject_Z (Alien.row a)) * 10 in
            let multiplier :=
              if active (timer (powerUps g) PowerUp.multiplier)
              then multiplier_value (powerUps g) else 1 in
            let g := set_score g (score g + baseScore * multiplier) in
            let g := emit (PlaySound 1760 0.1 "sine") g in
            (g, true)
          else (g, laserHit)
      | _ => st
      end
  | None => st
  end.

(** [fireLaser()], with the value [Date.now()] returns. The particles of
    the beam are left to the particle system. *)
Definition fireLaser (now : Z) (chances : nat → Chance) (g : t)
  : t * ScreenShake :=
  let '(g, laserHit) :=
    foldl (laserStep chances) (g, false)
          (reverse (seq 0 (length (aliens g)))) in
  let g := if laserHit then emit UpdateUI g
           else emit (PlaySound 880 0.1 "sine") g in
  (g, addScreenShake (1 / 2) 30 now).

(** The body of the loop of [shoot] for the bullet [i]. The lists of a
    configuration are not empty, so that [positions[0]] is a number. *)
Definition shootBullet (bulletConfig : BulletConfig) (g : t) (i : nat) : t :=
  let bulletSpeed := - Bullet.config_speed in
  let '(bullet, g) := bullets_get g in
  let x := js_or (positions bulletConfig !! i)
                 (default 0 (positions bulletConfig !! 0%nat)) in
  let mark k f (b : Bullet.t) :=
    if active (timer (powerUps g) k) then Bullet.set_flag b f true else b in
  set_heap g
    (alter (on_bullet (λ b,
              let b := Bullet.reset x (Player.y (player g) - 10) bulletSpeed
                         (color bulletConfig) true b in
              let b := Bullet.set_speedX b
                         (js_or (speeds bulletConfig !! i) 0) in
              let b := mark PowerUp.splitShot splitShot b in
              let b := mark PowerUp.guidedShot guidedShot b in
              let b := mark PowerUp.diamondShot diamondShot b in
              mark PowerUp.chainLightning chainLightning b))
           bullet (heap g)).

(** [shoot()]; [nowLaser] and [now] are the values that [Date.now()]
    returns in [fireLaser] and in [shoot], [chances] is for the
    explosions of [fireLaser]. *)
Definition shoot (nowLaser now : Z) (chances : nat → Chance) (g : t)
  : t * ScreenShake :=
  (* the laser overrides the other shooting modes *)
  if active (timer (powerUps g) PowerUp.laser) then
    let '(g, _) := fireLaser nowLaser chances g in
    (g, addScreenShake 1 50 now)
  else
    let bulletConfig := getBulletConfiguration g in
    let g := foldl (shootBullet bulletConfig) g
               (seq 0 (count bulletConfig)) in
    (g, addScreenShake 1 50 now).

End Game.

(** ** entities/power-up.js: selectOptimalType *)

(** [Math.floor(r * n)] as an index. *)
Definition random_index (r : Q) (n : nat) : nat :=
  Z.to_nat (Qfloor (r * inject_Z (Z.of_nat n))).

(** [array.indexOf(v)]; [None] stands for -1. *)
Definition indexOf (v : PowerUp.type) (l : list PowerUp.type) : option nat :=
  fst <$> list_find (λ t, t = v) l.

Definition shootingPowerUps : list PowerUp.type :=
  [PowerUp.keyed PowerUp.quadShot; PowerUp.keyed PowerUp.splitShot;
   PowerUp.keyed PowerUp.rapidFire; PowerUp.keyed PowerUp.laser;
   PowerUp.keyed PowerUp.guidedShot].

Definition utilityTypes : list PowerUp.type :=
  [PowerUp.life; PowerUp.keyed PowerUp.shield;
   PowerUp.keyed PowerUp.slowMotion; PowerUp.bomb;
   PowerUp.keyed PowerUp.multiplier].

(** [selectOptimalType(gameInstance)]. [gameInstance] is the [powerUps]
    object of the game, or [None] for null. [random k] is the value of
    the call number [k] of [Math.random()] in the function, counted
    from 0. The result is [None] for undefined, when the index read is
    outside the array. *)
Definition selectOptimalType (gameInstance : option Game.PowerUps)
    (random : nat → Q) : option PowerUp.type :=
  match gameInstance with
  | None =>
      (* fallback to random selection *)
      PowerUp.types !! random_index (random 0%nat) (length PowerUp.types)
  | Some powerUps =>
      let on k := Game.active (Game.timer powerUps k) in
      (* the currently active power-ups *)
      let activePowerUps :=
        (if on PowerUp.quadShot then [PowerUp.keyed PowerUp.quadShot] else [])
        ++ (if on PowerUp.splitShot
            then [PowerUp.keyed PowerUp.splitShot] else [])
        ++ (if on PowerUp.rapidFire
            then [PowerUp.keyed PowerUp.rapidFire] else [])
        ++ (if on PowerUp.laser then [PowerUp.keyed PowerUp.laser] else [])
        ++ (if on PowerUp.guidedShot
            then [PowerUp.keyed PowerUp.guidedShot] else []) in
      let filteredTypes := PowerUp.types in
      let calls := 0%nat in
      (* if quad shot is active, reduce the chance of split shot *)
      let '(filteredTypes, calls) :=
        if on PowerUp.quadShot then
          match indexOf (PowerUp.keyed PowerUp.splitShot) filteredTypes with
          | Some splitShotIndex =>
              if Qltb (random calls) 0.7
              then (delete splitShotIndex filteredTypes, S calls)
              else (filteredTypes, S calls)
          | None => (filteredTypes, calls)
          end
        else (filteredTypes, calls) in
      (* if split shot is active, reduce the chance of quad shot *)
      let '(filteredTypes, calls) :=
        if on PowerUp.splitShot then
          match indexOf (PowerUp.keyed PowerUp.quadShot) filteredTypes with
          | Some quadShotIndex =>
              if Qltb (random calls) 0.7
              then (delete quadShotIndex filteredTypes, S calls)
              else (filteredTypes, S calls)
          | None => (filteredTypes, calls)
          end
        else (filteredTypes, calls) in
      let activeShootingCount :=
        length (filter (λ p, p ∈ shootingPowerUps) activePowerUps) in
      (* the default random selection from the filtered types *)
      let default calls :=
        filteredTypes
          !! random_index (random calls) (length filteredTypes) in
      if (2 <=? activeShootingCount)%nat then
        let availableUtility :=
          filter (λ t, t ∈ utilityTypes) filteredTypes in
        if (0 <? length availableUtility)%nat then
          if Qltb (random calls) 0.6 then
            availableUtility
              !! random_index (random (S calls)) (length availableUtility)
          else default (S calls)
        else default calls
      else default calls
  end.

(** ** Vocabulary of the properties *)

(** The slots of a pool built on a store of [n0] objects are the
    addresses [n0 .. n0 + totalCreated - 1]; they are split between the
    free list and the active set. *)
Definition pool_inv {T} (n0 : nat) (st : list T * ObjectPool.t) : Prop :=
  ObjectPool.pool st.2 ++ ObjectPool.active st.2
    ≡ₚ seq n0 (ObjectPool.totalCreated (ObjectPool.stats st.2))
  ∧ length st.1 = n0 + ObjectPool.totalCreated (ObjectPool.stats st.2).

(** A grid as the constructor lays it out for a [width] by [height]
    field. *)
Definition grid_inv {E} (width height size : Q) (g : SpatialGrid.t E) : Prop :=
  SpatialGrid.cellSize g = size
  ∧ SpatialGrid.cols g = Qceiling (width / size)
  ∧ SpatialGrid.rows g = Qceiling (height / size)
  ∧ length (SpatialGrid.grid g)
    = Z.to_nat (SpatialGrid.cols g * SpatialGrid.rows g).

(** [entity] is in the bucket number [index]. *)
Definition stored {E} (g : SpatialGrid.t E) (index : Z) (entity : E) : Prop :=
  ∃ bucket, SpatialGrid.grid g !! Z.to_nat index = Some bucket
            ∧ entity ∈ bucket.

(** A position outside the [width] by [height] extent. *)
Definition outside_extent (width height x y : Q) : Prop :=
  (x < 0 ∨ y < 0 ∨ width < x ∨ height < y)%Q.

(** The grid of the game, 800 by 600 with cells of 50, holding bare
    positions. *)
Definition game_grid : SpatialGrid.t (Q * Q) :=
  SpatialGrid.constructor 800 600 50.

(** What one expiration sweep at time [now] makes of a record. *)
Definition passed (now : Z) (e : Game.ExpireTime) : bool :=
  match e with
  | Game.At expire => (now >? expire)%Z
  | Game.Infinity => false
  end.

Definition swept (now : Z) (tm : Game.Timer) : Game.Timer :=
  if Game.active tm && passed now (Game.expireTime tm)
  then Game.mkTimer false (Game.expireTime tm)
  else tm.

(** The expiration sweeps of successive frames, at the given times. *)
Definition sweeps (times : list Z) (g : Game.t) : Game.t :=
  foldl (λ g now, Game.updatePowerUpTimers now g) g times.

(** The power-up records as the constructor of the game sets them. *)
Definition initial_powerUps : Game.PowerUps :=
  {| Game.timer := λ _, Game.mkTimer false (Game.At 0);
     Game.multiplier_value := 1;
     Game.bomb_count := 0;
     Game.bomb_ready := false |}.

(** A game at its start, before any entity is created. *)
Definition empty_pool : ObjectPool.t :=
  {| ObjectPool.pool := []; ObjectPool.active := [];
     ObjectPool.stats := ObjectPool.mkStats 0 0 0 0 |}.

Definition game_start : Game.t :=
  {| Game.score := 0;
     Game.lives := 3;
     Game.player := Player.constructor 400 550;
     Game.wingman_active := false;
     Game.heap := [];
     Game.pools_bullets := empty_pool;
     Game.pools_alienBullets := empty_pool;
     Game.pools_powerUps := empty_pool;
     Game.aliens := [];
     Game.powerUps := initial_powerUps;
     Game.spatialGrid := SpatialGrid.constructor 800 600 50;
     Game.log := [];
     Game.lastDropTime := 0 |}.

(** Two aliens of the first column, in the rows 0 and 1 of the layout
    of [createAliens], and one green bullet of the player inside the
    box of the second; the grid is not built yet. *)
Definition two_aliens_one_bullet : Game.t :=
  {| Game.score := 0;
     Game.lives := 3;
     Game.player := Player.constructor 400 550;
     Game.wingman_active := false;
     Game.heap :=
       [OAlien (Alien.mkAlien 100 50 0 40 30 Alien.normal 0);
        OAlien (Alien.mkAlien 100 90 1 40 30 Alien.normal 0);
        OBullet (Bullet.mkBullet 110 95 (-5) 0 "#00ff00" (λ _, false) true
                   [] 4 10)];
     Game.pools_bullets :=
       {| ObjectPool.pool := []; ObjectPool.active := [2%nat];
          ObjectPool.stats := ObjectPool.mkStats 1 1 0 1 |};
     Game.pools_alienBullets := empty_pool;
     Game.pools_powerUps := empty_pool;
     Game.aliens := [0%nat; 1%nat];
     Game.powerUps := initial_powerUps;
     Game.spatialGrid := SpatialGrid.constructor 800 600 50;
     Game.log := [];
     Game.lastDropTime := 0 |}.

(** The number of [get] calls in a sequence of calls. *)
Fixpoint gets (cs : list ObjectPool.PoolCall) : nat :=
  match cs with
  | [] => 0
  | ObjectPool.Get :: cs' => S (gets cs')
  | ObjectPool.Release _ :: cs' => gets cs'
  end.

(** The counters after [k] calls of [get] on a pool built with
    [initialSize] objects. *)
Definition counters_inv (initialSize k : nat) (p : ObjectPool.t) : Prop :=
  ObjectPool.poolHits (ObjectPool.stats p)
  + ObjectPool.poolMisses (ObjectPool.stats p) = k
  ∧ ObjectPool.totalCreated (ObjectPool.stats p)
    = initialSize + ObjectPool.poolMisses (ObjectPool.stats p)
  ∧ length (ObjectPool.active p) ≤ ObjectPool.maxActive (ObjectPool.stats p)
  ∧ ObjectPool.maxActive (ObjectPool.stats p) ≤ k.

(** The power-up key whose collection sets, and whose expiry clears,
    the player property [f]; [tripleShot] belongs to no key. *)
Definition flag_key (f : Flag) : option PowerUp.key :=
  match f with
  | rapidFire => Some PowerUp.rapidFire
  | shield => Some PowerUp.shield
  | tripleShot => None
  | splitShot => Some PowerUp.splitShot
  | laser => Some PowerUp.laser
  | quadShot => Some PowerUp.quadShot
  | guidedShot => Some PowerUp.guidedShot
  | timeWarp => Some PowerUp.timeWarp
  | diamondShot => Some PowerUp.diamondShot
  | chainLightning => Some PowerUp.chainLightning
  end.

(** The record of key [k] is active and its expiry time is before
    [now]: the sweep at [now] switches it off. *)
Definition fired (now : Z) (g : Game.t) (k : PowerUp.key) : bool :=
  Game.active (Game.timer (Game.powerUps g) k)
  && passed now (Game.expireTime (Game.timer (Game.powerUps g) k)).

(** The events of the power-up state machine: a collection and an
    expiration sweep, each with the time it reads. *)
Inductive PowerUpEvent :=
| Collect (type : PowerUp.type) (now : Z)
| Sweep (now : Z).

Definition powerUp_event (g : Game.t) (e : PowerUpEvent) : Game.t :=
  match e with
  | Collect type now => Game.applyPowerUp type now g
  | Sweep now => Game.updatePowerUpTimers now g
  end.

Definition powerUp_events (es : list PowerUpEvent) (g : Game.t) : Game.t :=
  foldl powerUp_event g es.

(** Two stores that hold the same bullets and aliens at the same
    addresses: they differ at most in power-up items. *)
Definition same_but_items (h h' : list Obj) : Prop :=
  ∀ r o, (∀ p, o ≠ OPowerUp p) → (h' !! r = Some o ↔ h !! r = Some o).

(** Two boxes that no box of width [bw] and height [bh] overlaps both:
    they are at least [bw] apart horizontally or [bh] apart
    vertically. *)
Definition separated (bw bh : Q) (a b : Rect) : Prop :=
  (rect_x a + rect_width a + bw <= rect_x b
   ∨ rect_x b + rect_width b + bw <= rect_x a
   ∨ rect_y a + rect_height a + bh <= rect_y b
   ∨ rect_y b + rect_height b + bh <= rect_y a)%Q.


(** The box of the alien in column [col] and row [row] of the layout of
    [createAliens], moved by [(dx, dy)]. *)
Definition layout_box (dx dy : Q) (col row : Z) : Rect :=
  mkRect (100 + inject_Z col * (40 + 10) + dx)
         (50 + inject_Z row * (30 + 10) + dy) 40 30.

(** The factor of the alien type in the score of a kill. *)
Definition type_factor (type : Alien.type) : Q :=
  match type with
  | Alien.normal => 1
  | Alien.shooter => 1.5
  | Alien.shielded => 2
  end.

(** Whether the box of an item overlaps the player, and the points
    that one pass of [checkPowerUpCollisions] adds when the reset of
    [item] draws the type [drawn item]. *)
Definition touches (g : Game.t) (item : ref) : bool :=
  collision (rect_of (Game.heap g) item) (player_rect (Game.player g)).

Definition collected_score (drawn : ref → PowerUp.type) (g : Game.t) : Z :=
  foldr (λ item s,
           if touches g item
           then (config_score (GAME_CONFIG_powerUps (drawn item)) + s)%Z
           else s)
        0%Z (reverse (ObjectPool.active (Game.pools_powerUps g))).

(** Whether the alien behind a reference is in the beam of the laser,
    the points [fireLaser] adds for it, and the sum over the aliens in
    the beam. *)
Definition beam_hits (g : Game.t) (alien : ref) : bool :=
  match Game.heap g !! alien with
  | Some (OAlien a) => Game.in_beam g a
  | _ => false
  end.

Definition laser_points (g : Game.t) (alien : ref) : Q :=
  match Game.heap g !! alien with
  | Some (OAlien a) =>
      (4 - inject_Z (Alien.row a)) * 10
      * (if Game.active (Game.timer (Game.powerUps g) PowerUp.multiplier)
         then Game.multiplier_value (Game.powerUps g) else 1)
  | _ => 0
  end.

Definition Qsum (l : list Q) : Q := foldr Qplus 0%Q l.

Definition laser_score (g : Game.t) (aliens : list ref) : Q :=
  Qsum (map (laser_points g) (filter (λ r, beam_hits g r = true) aliens)).

(** A shielded alien of strength 2 under a green bullet. *)
Definition shielded_alien : Alien.t :=
  Alien.mkAlien 100 50 0 40 30 Alien.shielded 2.

Definition green_bullet : Bullet.t :=
  Bullet.mkBullet 110 60 (-5) 0 "#00ff00" (λ _, false) true [] 4 10.

Definition one_shielded_alien : Game.t :=
  {| Game.score := 0;
     Game.lives := 3;
     Game.player := Player.constructor 400 550;
     Game.wingman_active := false;
     Game.heap := [OAlien shielded_alien; OBullet green_bullet];
     Game.pools_bullets :=
       {| ObjectPool.pool := []; ObjectPool.active := [1%nat];
          ObjectPool.stats := ObjectPool.mkStats 1 1 0 1 |};
     Game.pools_alienBullets := empty_pool;
     Game.pools_powerUps := empty_pool;
     Game.aliens := [0%nat];
     Game.powerUps := initial_powerUps;
     Game.spatialGrid := SpatialGrid.constructor 800 600 50;
     Game.log := [];
     Game.lastDropTime := 0 |}.

(** An alien bullet and a power-up item of type ['life'], both on the
    player. *)
Definition orange_bullet : Bullet.t :=
  Bullet.mkBullet 410 560 4 0 "#ff4400" (λ _, false) true [] 4 10.

Definition life_item : PowerUp.t :=
  PowerUp.mkPowerUp 405 555 20 20 2 PowerUp.life.

Definition player_under_fire : Game.t :=
  {| Game.score := 0;
     Game.lives := 1;
     Game.player := Player.constructor 400 550;
     Game.wingman_active := false;
     Game.heap := [OBullet orange_bullet; OPowerUp life_item];
     Game.pools_bullets := empty_pool;
     Game.pools_alienBullets :=
       {| ObjectPool.pool := []; ObjectPool.active := [0%nat];
          ObjectPool.stats := ObjectPool.mkStats 1 1 0 1 |};
     Game.pools_powerUps :=
       {| ObjectPool.pool := []; ObjectPool.active := [1%nat];
          ObjectPool.stats := ObjectPool.mkStats 1 1 0 1 |};
     Game.aliens := [];
     Game.powerUps := initial_powerUps;
     Game.spatialGrid := SpatialGrid.constructor 800 600 50;
     Game.log := [];
     Game.lastDropTime := 0 |}.


(** Two aliens of row 0, the second one shielded and above the middle
    of the player, after the player has collected the laser at time
    0. *)
Definition laser_game : Game.t :=
  Game.applyPowerUp (PowerUp.keyed PowerUp.laser) 0
    {| Game.score := 0;
       Game.lives := 3;
       Game.player := Player.constructor 400 550;
       Game.wingman_active := false;
       Game.heap :=
         [OAlien (Alien.mkAlien 100 50 0 40 30 Alien.normal 0);
          OAlien (Alien.mkAlien 400 50 0 40 30 Alien.shielded 2)];
       Game.pools_bullets := empty_pool;
       Game.pools_alienBullets := empty_pool;
       Game.pools_powerUps := empty_pool;
       Game.aliens := [0%nat; 1%nat];
       Game.powerUps := initial_powerUps;
       Game.spatialGrid := SpatialGrid.constructor 800 600 50;
       Game.log := [];
       Game.lastDropTime := 0 |}.

(** A call of [spawnPowerUpIfAppropriate] that drops nothing, and one
    that drops an item when the other tests let it. *)
Definition no_drop : Game.Chance :=
  Game.mkChance 0 1 PowerUp.life PowerUp.life.

Definition drop_bomb : Game.Chance :=
  Game.mkChance 10000 0 PowerUp.life PowerUp.bomb.

(** The number of active power-ups among the shooting ones, and the
    number of calls of [Math.random()] that [selectOptimalType] makes
    before it looks at that number. *)
Definition shooting_count (powerUps : Game.PowerUps) : nat :=
  let on k := if Game.active (Game.timer powerUps k) then 1%nat else 0%nat in
  (on PowerUp.quadShot + on PowerUp.splitShot + on PowerUp.rapidFire
   + on PowerUp.laser + on PowerUp.guidedShot)%nat.

Definition combo_draws (powerUps : Game.PowerUps) : nat :=
  (if Game.active (Game.timer powerUps PowerUp.quadShot) then 1 else 0)
  + (if Game.active (Game.timer powerUps PowerUp.splitShot) then 1 else 0).

(** The quad shot and the split shot are both active. *)
Definition quad_and_split : Game.PowerUps :=
  Game.set_timer PowerUp.quadShot (Game.mkTimer true (Game.At 10000))
    (Game.set_timer PowerUp.splitShot (Game.mkTimer true (Game.At 8000))
       initial_powerUps).

(** A diamond bullet in flight: the diamond shot was active when it was
    shot and has expired since. *)
Definition diamond_bullet : Bullet.t :=
  Bullet.mkBullet 420 300 (-5) 0 "#00ffff"
    (λ f, bool_decide (f = diamondShot)) true [] 4 10.

Definition diamond_in_flight : Game.t :=
  {| Game.score := 0;
     Game.lives := 3;
     Game.player := Player.constructor 400 550;
     Game.wingman_active := false;
     Game.heap := [OBullet diamond_bullet];
     Game.pools_bullets :=
       {| ObjectPool.pool := []; ObjectPool.active := [0%nat];
          ObjectPool.stats := ObjectPool.mkStats 1 1 0 1 |};
     Game.pools_alienBullets := empty_pool;
     Game.pools_powerUps := empty_pool;
     Game.aliens := [];
     Game.powerUps := initial_powerUps;
     Game.spatialGrid := SpatialGrid.constructor 800 600 50;
     Game.log := [];
     Game.lastDropTime := 0 |}.
(** * Properties *)

(** ** Containers *)

Section Containers.
Context {A : Type}.

Lemma pop_nil : JsArray.pop (@nil A) = None.
Proof. reflexivity. Qed.

Lemma pop_snoc (a : list A) (x : A) :
  JsArray.pop (a ++ [x]) = Some (x, a).
Proof. unfold JsArray.pop. by rewrite last_snoc, removelast_last. Qed.

Lemma pop_push (a : list A) (x : A) :
  JsArray.pop (JsArray.push a x) = Some (x, a).
Proof. apply pop_snoc. Qed.

Lemma pop_None (a : list A) : JsArray.pop a = None → a = [].
Proof.
  destruct a as [|y a _] using rev_ind; [done|].
  by rewrite pop_snoc.
Qed.

Lemma pop_Some (a rest : list A) (x : A) :
  JsArray.pop a = Some (x, rest) → a = JsArray.push rest x.
Proof.
  destruct a as [|y a _] using rev_ind; [done|].
  rewrite pop_snoc. by intros [= -> ->].
Qed.
End Containers.

Lemma has_true s x : JsSet.has s x = true ↔ x ∈ s.
Proof. unfold JsSet.has. by rewrite bool_decide_eq_true. Qed.

Lemma has_false s x : JsSet.has s x = false ↔ x ∉ s.
Proof. unfold JsSet.has. by rewrite bool_decide_eq_false. Qed.

Lemma elem_of_add s x y : y ∈ JsSet.add s x ↔ y = x ∨ y ∈ s.
Proof.
  unfold JsSet.add. destruct (JsSet.has s x) eqn:Hx.
  - apply has_true in Hx. split; [tauto|]. by intros [->|?].
  - rewrite elem_of_app, list_elem_of_singleton. tauto.
Qed.

Lemma elem_of_delete s x y : y ∈ JsSet.delete s x ↔ y ≠ x ∧ y ∈ s.
Proof. unfold JsSet.delete. by rewrite list_elem_of_filter. Qed.

Lemma delete_absent s x : x ∉ s → JsSet.delete s x = s.
Proof.
  intros Hx. unfold JsSet.delete. induction s as [|y s IH]; [done|].
  apply not_elem_of_cons in Hx as [Hne Hs].
  rewrite filter_cons_True by done. f_equal. by apply IH.
Qed.

Lemma delete_present s x :
  NoDup s → x ∈ s → s ≡ₚ x :: JsSet.delete s x.
Proof.
  induction s as [|y s IH]; intros Hnd Hx.
  - by apply elem_of_nil in Hx.
  - apply NoDup_cons in Hnd as [Hy Hnd].
    destruct (decide (y = x)) as [->|Hne].
    + replace (JsSet.delete (x :: s) x) with (JsSet.delete s x)
        by (unfold JsSet.delete; rewrite filter_cons_False; [done|]; tauto).
      by rewrite (delete_absent s x Hy).
    + replace (JsSet.delete (y :: s) x) with (y :: JsSet.delete s x)
        by (unfold JsSet.delete; by rewrite filter_cons_True).
      apply elem_of_cons in Hx as [->|Hx]; [done|].
      rewrite (IH Hnd Hx) at 1. apply Permutation_swap.
Qed.

(** ** ObjectPool *)

Section PoolProperties.
Import ObjectPool.
Context {T : Type} (createFn : ref → T) (resetFn : T → T).

Local Abbreviation constructor := (ObjectPool.constructor createFn).
Local Abbreviation get := (ObjectPool.get createFn).
Local Abbreviation release := (ObjectPool.release resetFn).
Local Abbreviation calls := (ObjectPool.calls createFn resetFn).

Lemma prepopulate_spec n heap pl :
  prepopulate createFn n heap pl =
    (heap ++ (createFn <$> seq (length heap) n), pl ++ seq (length heap) n).
Proof.
  revert heap pl. induction n as [|n IH]; intros heap pl; simpl.
  - by rewrite !app_nil_r.
  - rewrite IH. unfold JsArray.push.
    rewrite length_app, Nat.add_1_r. simpl.
    by rewrite <- !app_assoc.
Qed.

Lemma constructor_inv initialSize heap :
  pool_inv (length heap) (constructor initialSize heap).
Proof.
  unfold pool_inv, ObjectPool.constructor. rewrite prepopulate_spec. simpl.
  rewrite app_nil_r. split; [done|].
  by rewrite length_app, length_fmap, length_seq.
Qed.

Lemma get_inv n0 st : pool_inv n0 st → pool_inv n0 (get st).2.
Proof.
  destruct st as [heap p]. unfold pool_inv, ObjectPool.get. simpl.
  intros [Hperm Hlen].
  destruct (JsArray.pop (pool p)) as [[obj rest]|] eqn:Hpop; simpl.
  - apply pop_Some in Hpop. unfold JsArray.push in Hpop. split; [|done].
    assert (obj ∉ active p) as Hfree.
    { intros Hin. assert (NoDup (pool p ++ active p)) as Hnd
        by (rewrite Hperm; apply NoDup_seq).
      rewrite Hpop in Hnd. apply NoDup_app in Hnd as (_ & Hdis & _).
      apply (Hdis obj); [|done]. apply elem_of_app. right. by left. }
    unfold JsSet.add. apply has_false in Hfree. rewrite Hfree.
    rewrite <- Hperm, Hpop, <- !app_assoc.
    apply Permutation_app_head, Permutation_app_comm.
  - apply pop_None in Hpop. rewrite Hpop in *. cbn [app] in *.
    change (n0 :: seq (S n0) (totalCreated (stats p)))
      with (seq n0 (S (totalCreated (stats p)))).
    assert (length heap ∉ active p) as Hfresh.
    { intros Hin. rewrite Hperm in Hin. apply elem_of_seq in Hin. lia. }
    unfold JsSet.add. apply has_false in Hfresh. rewrite Hfresh.
    split; [|rewrite length_app; simpl; lia].
    rewrite seq_S, Hperm, Hlen. done.
Qed.

Lemma release_inv n0 obj st : pool_inv n0 st → pool_inv n0 (release obj st).
Proof.
  destruct st as [heap p]. unfold pool_inv, ObjectPool.release. simpl.
  intros [Hperm Hlen].
  destruct (JsSet.has (active p) obj) eqn:Hobj; simpl; [|done].
  apply has_true in Hobj. split.
  - assert (NoDup (active p)) as Hnd.
    { assert (NoDup (pool p ++ active p)) as Hnd
        by (rewrite Hperm; apply NoDup_seq).
      by apply NoDup_app in Hnd as (_ & _ & ?). }
    rewrite <- Hperm. unfold JsArray.push. rewrite <- app_assoc. simpl.
    apply Permutation_app_head. symmetry. by apply delete_present.
  - unfold call_resetFn. by rewrite length_alter.
Qed.

Lemma calls_inv n0 cs st : pool_inv n0 st → pool_inv n0 (calls cs st).
Proof.
  revert st. induction cs as [|c cs IH]; intros st Hinv; [done|].
  simpl. apply IH. destruct c; simpl.
  - by apply get_inv.
  - by apply release_inv.
Qed.

(** C1. Starting from a freshly constructed pool, after any finite
    sequence of [get] and [release] calls the number of active slots
    plus the number of free slots is [stats.totalCreated], and every
    slot the pool has allocated (the objects at the addresses from
    [length heap0] on) is in exactly one of the free list and the active
    set, where it is listed once. *)
Theorem pool_slots_partitioned (initialSize : nat) (heap0 : list T)
    (cs : list PoolCall) :
  let st := calls cs (constructor initialSize heap0) in
  let p := st.2 in
  length (active p) + length (pool p) = totalCreated (stats p)
  ∧ length st.1 = length heap0 + totalCreated (stats p)
  ∧ NoDup (pool p) ∧ NoDup (active p)
  ∧ ∀ slot : ref,
      (slot ∈ pool p ∨ slot ∈ active p ↔ length heap0 ≤ slot < length st.1)
      ∧ ¬ (slot ∈ pool p ∧ slot ∈ active p).
Proof.
  intros st p.
  destruct (calls_inv (length heap0) cs _
              (constructor_inv initialSize heap0)) as [Hperm Hlen].
  fold st in Hperm, Hlen. fold p in Hperm, Hlen.
  assert (NoDup (pool p ++ active p)) as Hnd
    by (rewrite Hperm; apply NoDup_seq).
  apply NoDup_app in Hnd as (Hndp & Hdis & Hnda).
  split; [|split; [done|split; [done|split; [done|]]]].
  - rewrite Nat.add_comm, <- length_app, Hperm. apply length_seq.
  - intros slot. split.
    + rewrite <- elem_of_app, Hperm, elem_of_seq. lia.
    + intros [Hp Ha]. by apply (Hdis slot).
Qed.

(** C8. [get] returns a slot in every pool state. If the free list is
    not empty the slot is its last element, which leaves the free list,
    and nothing is allocated; if it is empty a new object is allocated
    and [stats.totalCreated] grows by one. In both cases the slot is
    active afterwards. *)
Theorem get_returns_active_slot (st : list T * ObjectPool.t) :
  ∃ (obj : ref) (st' : list T * ObjectPool.t),
    get st = (obj, st')
    ∧ obj ∈ active st'.2
    ∧ ((pool st.2 ≠ []
        ∧ pool st.2 = pool st'.2 ++ [obj]
        ∧ st'.1 = st.1
        ∧ totalCreated (stats st'.2) = totalCreated (stats st.2)
        ∧ poolHits (stats st'.2) = S (poolHits (stats st.2)))
       ∨ (pool st.2 = []
          ∧ pool st'.2 = []
          ∧ obj = length st.1
          ∧ st'.1 = st.1 ++ [createFn obj]
          ∧ totalCreated (stats st'.2) = S (totalCreated (stats st.2))
          ∧ poolMisses (stats st'.2) = S (poolMisses (stats st.2)))).
Proof.
  destruct st as [heap p]. unfold ObjectPool.get. simpl.
  destruct (JsArray.pop (pool p)) as [[obj rest]|] eqn:Hpop.
  - apply pop_Some in Hpop. unfold JsArray.push in Hpop.
    eexists _, _. split; [done|]. simpl. split.
    + apply elem_of_add. by left.
    + left. rewrite Hpop. split; [|done]. by destruct rest.
  - apply pop_None in Hpop.
    eexists _, _. split; [done|]. simpl. split.
    + apply elem_of_add. by left.
    + right. by rewrite Hpop.
Qed.
End PoolProperties.

Section ReleaseProperties.
Import ObjectPool.
Context {T : Type} (resetFn : T → T).

Local Abbreviation release := (ObjectPool.release resetFn).

(** C2. [release] of a handle that is not active leaves the store, the
    free list, the active set and the counters as they are; after a
    [release] the handle is not active, so a second [release] of it
    changes nothing. *)
Theorem release_inactive_is_noop (obj : ref) (st : list T * ObjectPool.t) :
  (obj ∉ active st.2 → release obj st = st)
  ∧ (obj ∉ active (release obj st).2)
  ∧ release obj (release obj st) = release obj st.
Proof.
  assert (∀ st' : list T * ObjectPool.t,
            obj ∉ active st'.2 → release obj st' = st') as Hnoop.
  { intros [heap p] Hobj. unfold ObjectPool.release.
    apply has_false in Hobj. simpl in Hobj. by rewrite Hobj. }
  assert (obj ∉ active (release obj st).2) as Hgone.
  { destruct st as [heap p]. unfold ObjectPool.release.
    destruct (JsSet.has (active p) obj) eqn:Hobj; simpl.
    - rewrite elem_of_delete. tauto.
    - by apply has_false. }
  auto.
Qed.
End ReleaseProperties.

(** Concrete pools, with a counter as the only field of an object. *)
Example pool_run :
  ObjectPool.calls (λ _, 0) (λ _, 0)
    [ObjectPool.Get; ObjectPool.Get; ObjectPool.Release 1; ObjectPool.Get]
    (ObjectPool.constructor (λ _, 0) 2 [])
  = ([0; 0], {| ObjectPool.pool := [];
                ObjectPool.active := [0; 1];
                ObjectPool.stats := ObjectPool.mkStats 2 2 3 0 |}).
Proof. reflexivity. Qed.

Lemma release_inactive_is_noop_witness :
  ObjectPool.release (λ _ : nat, 0) 7
    ([5; 5], {| ObjectPool.pool := [0];
                ObjectPool.active := [1];
                ObjectPool.stats := ObjectPool.mkStats 2 1 1 0 |})
  = ([5; 5], {| ObjectPool.pool := [0];
                ObjectPool.active := [1];
                ObjectPool.stats := ObjectPool.mkStats 2 1 1 0 |}).
Proof.
  apply (proj1 (release_inactive_is_noop (λ _ : nat, 0) 7 _)).
  vm_compute. intros H. inversion H as [|? ? ? H']. inversion H'.
Defined.

(** ** Rounding of rationals *)

Section Rounding.
Local Open Scope Q_scope.

Lemma Qfloor_lower (z : Z) (x : Q) : inject_Z z <= x → (z ≤ Qfloor x)%Z.
Proof. intros H. rewrite <- (Qfloor_Z z). by apply Qfloor_resp_le. Qed.

Lemma Qfloor_upper (z : Z) (x : Q) : x < inject_Z z → (Qfloor x < z)%Z.
Proof.
  intros H. rewrite Zlt_Qlt.
  eapply Qle_lt_trans; [apply Qfloor_le|done].
Qed.

Lemma Qdiv_le_mono (a b c : Q) : 0 < c → a <= b → a / c <= b / c.
Proof.
  intros Hc Hab. apply Qle_shift_div_l; [done|].
  assert (a / c * c == a) as -> by (field; lra). done.
Qed.

Lemma Qdiv_lt_mono (a b c : Q) : 0 < c → a < b → a / c < b / c.
Proof.
  intros Hc Hab. apply Qlt_shift_div_l; [done|].
  assert (a / c * c == a) as -> by (field; lra). done.
Qed.

(** Two points at most one cell apart fall in the same or in adjacent
    columns. *)
Lemma Qfloor_div_near (a b c : Q) :
  0 < c → a <= b + c → (Qfloor (a / c) ≤ Qfloor (b / c) + 1)%Z.
Proof.
  intros Hc Hab.
  assert (Qfloor (a / c) < Qfloor (b / c) + 2)%Z; [|lia].
  apply Qfloor_upper.
  apply (Qdiv_le_mono _ _ c Hc) in Hab.
  assert ((b + c) / c == b / c + 1) as Heq by (field; lra).
  rewrite Heq in Hab.
  pose proof (Qlt_floor (b / c)) as Hb.
  rewrite inject_Z_plus in Hb |- *. simpl in Hb |- *.
  change (inject_Z 2) with 2. change (inject_Z 1) with 1 in Hb. lra.
Qed.

Lemma Qfloor_div_nonneg (x c : Q) : 0 < c → 0 <= x → (0 ≤ Qfloor (x / c))%Z.
Proof.
  intros Hc Hx. apply Qfloor_lower. change (inject_Z 0) with 0.
  apply Qle_shift_div_l; [done|]. lra.
Qed.

Lemma Qfloor_div_neg (x c : Q) : 0 < c → x < 0 → (Qfloor (x / c) < 0)%Z.
Proof.
  intros Hc Hx. apply Qfloor_upper. change (inject_Z 0) with 0.
  apply Qlt_shift_div_r; [done|]. lra.
Qed.

Lemma Qfloor_div_lt_ceiling (x w c : Q) :
  0 < c → x < w → (Qfloor (x / c) < Qceiling (w / c))%Z.
Proof.
  intros Hc Hx. apply Qfloor_upper.
  eapply Qlt_le_trans; [by apply Qdiv_lt_mono|apply Qle_ceiling].
Qed.

(** A point at or beyond [n] cells is in column [n] or further. *)
Lemma Qfloor_div_beyond (x c : Q) (n : Z) :
  0 < c → inject_Z n * c <= x → (n ≤ Qfloor (x / c))%Z.
Proof.
  intros Hc Hx. apply Qfloor_lower. by apply Qle_shift_div_l.
Qed.

Lemma Qfloor_div_within (x c : Q) (n : Z) :
  0 < c → x < inject_Z n * c → (Qfloor (x / c) < n)%Z.
Proof.
  intros Hc Hx. apply Qfloor_upper. by apply Qlt_shift_div_r.
Qed.
End Rounding.

(** ** SpatialGrid *)

Section GridProperties.
Import SpatialGrid.
Context {E : Type} (ent_x ent_y : E → Q).

Local Abbreviation insert := (SpatialGrid.insert ent_x ent_y).
Local Abbreviation grid_calls := (SpatialGrid.grid_calls ent_x ent_y).

Local Open Scope Z_scope.

Lemma index_in_grid_true (g : t E) index :
  index_in_grid g index = true ↔ 0 ≤ index < Z.of_nat (length (grid g)).
Proof. unfold index_in_grid. rewrite andb_true_iff. lia. Qed.

Lemma constructor_inv' width height size :
  grid_inv width height size (@constructor E width height size).
Proof. unfold grid_inv, constructor. simpl. by rewrite length_replicate. Qed.

Lemma insert_inv width height size (g : t E) entity :
  grid_inv width height size g → grid_inv width height size (insert g entity).
Proof.
  unfold grid_inv, SpatialGrid.insert.
  destruct (index_in_grid g _); simpl; [|done].
  by rewrite length_alter.
Qed.

Lemma clear_inv width height size (g : t E) :
  grid_inv width height size g → grid_inv width height size (clear g).
Proof. unfold grid_inv, clear. simpl. by rewrite length_replicate. Qed.

Lemma grid_calls_inv width height size cs (g : t E) :
  grid_inv width height size g → grid_inv width height size (grid_calls cs g).
Proof.
  revert g. induction cs as [|c cs IH]; intros g Hg; [done|].
  simpl. apply IH. destruct c; simpl.
  - by apply insert_inv.
  - by apply clear_inv.
Qed.

(** What [insert] does to the buckets. *)
Lemma insert_dropped (g : t E) entity :
  index_in_grid g (getCellIndex g (ent_x entity) (ent_y entity)) = false →
  insert g entity = g.
Proof. unfold SpatialGrid.insert. by intros ->. Qed.

Lemma insert_appended (g : t E) entity :
  index_in_grid g (getCellIndex g (ent_x entity) (ent_y entity)) = true →
  ∃ bucket,
    grid g !! Z.to_nat (getCellIndex g (ent_x entity) (ent_y entity))
      = Some bucket
    ∧ grid (insert g entity)
      = <[Z.to_nat (getCellIndex g (ent_x entity) (ent_y entity))
          := bucket ++ [entity]]> (grid g).
Proof.
  intros Hin. unfold SpatialGrid.insert. rewrite Hin. simpl.
  apply index_in_grid_true in Hin.
  destruct (lookup_lt_is_Some_2 (grid g)
              (Z.to_nat (getCellIndex g (ent_x entity) (ent_y entity))))
    as [bucket Hb]; [lia|].
  exists bucket. split; [done|].
  apply list_eq. intros i.
  destruct (decide (i = Z.to_nat (getCellIndex g (ent_x entity) (ent_y entity))))
    as [->|Hne].
  - rewrite list_lookup_alter_eq, Hb, list_lookup_insert_eq; [done|].
    by eapply lookup_lt_Some.
  - by rewrite list_lookup_alter_ne, list_lookup_insert_ne.
Qed.

Lemma insert_changes (g : t E) entity :
  index_in_grid g (getCellIndex g (ent_x entity) (ent_y entity)) = true →
  grid (insert g entity) ≠ grid g.
Proof.
  intros Hin. destruct (insert_appended g entity Hin) as (bucket & Hb & ->).
  intros Heq.
  assert (<[Z.to_nat (getCellIndex g (ent_x entity) (ent_y entity))
            := bucket ++ [entity]]> (grid g)
          !! Z.to_nat (getCellIndex g (ent_x entity) (ent_y entity))
          = Some (bucket ++ [entity])) as Hnew
    by (apply list_lookup_insert_eq; by eapply lookup_lt_Some).
  rewrite Heq, Hb in Hnew. injection Hnew as Hnew.
  apply (f_equal length) in Hnew. rewrite length_app in Hnew. simpl in Hnew.
  lia.
Qed.

Lemma insert_stores (g : t E) entity :
  index_in_grid g (getCellIndex g (ent_x entity) (ent_y entity)) = true →
  stored (insert g entity)
         (getCellIndex g (ent_x entity) (ent_y entity)) entity.
Proof.
  intros Hin. destruct (insert_appended g entity Hin) as (bucket & Hb & Hg).
  exists (bucket ++ [entity]). rewrite Hg. split.
  - apply list_lookup_insert_eq. by eapply lookup_lt_Some.
  - apply elem_of_app. right. by left.
Qed.

Lemma insert_keeps (g : t E) index entity other :
  stored g index entity → stored (insert g other) index entity.
Proof.
  intros (bucket & Hb & He). unfold SpatialGrid.insert.
  generalize (getCellIndex g (ent_x other) (ent_y other)). intros j.
  destruct (index_in_grid g j); [|by exists bucket].
  unfold stored. cbn [grid].
  destruct (decide (Z.to_nat j = Z.to_nat index)) as [Heq|Hne].
  - exists (JsArray.push bucket other). split.
    + by rewrite Heq, list_lookup_alter_eq, Hb.
    + apply elem_of_app. by left.
  - exists bucket. split; [|done]. by rewrite list_lookup_alter_ne.
Qed.

Lemma inserts_keep (g : t E) index entity later :
  stored g index entity → stored (foldl insert g later) index entity.
Proof.
  revert g. induction later as [|other later IH]; intros g Hs; [done|].
  simpl. apply IH. by apply insert_keeps.
Qed.

Lemma inserts_inv width height size (g : t E) later :
  grid_inv width height size g →
  grid_inv width height size (foldl insert g later).
Proof.
  revert g. induction later as [|other later IH]; intros g Hg; [done|].
  simpl. apply IH. by apply insert_inv.
Qed.

Lemma neighbourhood_covers dy dx :
  -1 ≤ dy ≤ 1 → -1 ≤ dx ≤ 1 → (dy, dx) ∈ neighbourhood.
Proof.
  intros Hdy Hdx. apply list_elem_of_In.
  assert (dy = -1 ∨ dy = 0 ∨ dy = 1) as [-> | [-> | ->]] by lia;
    assert (dx = -1 ∨ dx = 0 ∨ dx = 1) as [-> | [-> | ->]] by lia;
    simpl; tauto.
Qed.

(** The query returns what is stored in any in-range bucket of the
    3 by 3 neighbourhood. *)
Lemma nearby_contains (g : t E) x y dy dx entity :
  (dy, dx) ∈ neighbourhood →
  index_in_grid g ((Qfloor (y / cellSize g) + dy) * cols g
                   + (Qfloor (x / cellSize g) + dx)) = true →
  stored g ((Qfloor (y / cellSize g) + dy) * cols g
            + (Qfloor (x / cellSize g) + dx)) entity →
  entity ∈ getNearbyEntities g x y.
Proof.
  intros Hnb Hin (bucket & Hb & He). unfold getNearbyEntities.
  generalize (@nil E) at 1. revert Hnb.
  induction neighbourhood as [|[dy' dx'] nb IH]; intros Hnb results.
  - by apply elem_of_nil in Hnb.
  - cbn [foldl]. apply elem_of_cons in Hnb as [Heq|Hnb]; [|by apply IH].
    injection Heq as <- <-.
    assert (∀ acc, entity ∈ acc →
              entity ∈ foldl (visit g (Qfloor (x / cellSize g))
                                (Qfloor (y / cellSize g))) acc nb) as Hmono.
    { clear. induction nb as [|[dy' dx'] nb IH]; intros acc Hacc; [done|].
      cbn [foldl]. apply IH. unfold visit.
      destruct (index_in_grid g _); [|done].
      apply elem_of_app. by left. }
    apply Hmono. unfold visit. rewrite Hin, Hb.
    apply elem_of_app. by right.
Qed.

(** C4. An entity inserted at a position inside the configured extent
    is in the result of every later query at a point whose horizontal
    and vertical distances from that position are at most one cell
    size, whatever was inserted before or is inserted afterwards. *)
Theorem query_returns_inserted_entity (width height size : Q)
    (before : list (GridCall (E:=E))) (entity : E) (later : list E) (x y : Q) :
  (0 < size)%Q →
  (0 <= ent_x entity)%Q → (ent_x entity < width)%Q →
  (0 <= ent_y entity)%Q → (ent_y entity < height)%Q →
  (Qabs (x - ent_x entity) <= size)%Q →
  (Qabs (y - ent_y entity) <= size)%Q →
  entity ∈ getNearbyEntities
             (foldl insert
                (insert (grid_calls before (constructor width height size))
                        entity)
                later)
             x y.
Proof.
  intros Hc Hx0 Hxw Hy0 Hyh Hdx Hdy.
  set (g0 := grid_calls before (constructor width height size)).
  assert (grid_inv width height size g0) as Hinv0
    by apply grid_calls_inv, constructor_inv'.
  pose proof Hinv0 as (Hcs & Hcols & Hrows & Hlen).
  pose proof (Qfloor_div_nonneg _ _ Hc Hx0) as Hcol0.
  pose proof (Qfloor_div_lt_ceiling _ _ _ Hc Hxw) as Hcol1.
  pose proof (Qfloor_div_nonneg _ _ Hc Hy0) as Hrow0.
  pose proof (Qfloor_div_lt_ceiling _ _ _ Hc Hyh) as Hrow1.
  assert (index_in_grid g0 (getCellIndex g0 (ent_x entity) (ent_y entity))
          = true) as Hin.
  { apply index_in_grid_true. unfold getCellIndex.
    rewrite Hlen, Hcs, Hcols, Hrows. nia. }
  set (g2 := foldl insert (insert g0 entity) later).
  assert (stored g2 (getCellIndex g0 (ent_x entity) (ent_y entity)) entity)
    as Hstored by apply inserts_keep, insert_stores, Hin.
  assert (grid_inv width height size g2) as (Hcs2 & Hcols2 & Hrows2 & Hlen2)
    by apply inserts_inv, insert_inv, Hinv0.
  apply Qabs_diff_Qle_condition in Hdx as [Hdx1 Hdx2].
  apply Qabs_diff_Qle_condition in Hdy as [Hdy1 Hdy2].
  assert (Qfloor (x / size) ≤ Qfloor (ent_x entity / size) + 1) as Hc1
    by (apply Qfloor_div_near; [done|lra]).
  assert (Qfloor (ent_x entity / size) ≤ Qfloor (x / size) + 1) as Hc2
    by (apply Qfloor_div_near; [done|lra]).
  assert (Qfloor (y / size) ≤ Qfloor (ent_y entity / size) + 1) as Hr1
    by (apply Qfloor_div_near; [done|lra]).
  assert (Qfloor (ent_y entity / size) ≤ Qfloor (y / size) + 1) as Hr2
    by (apply Qfloor_div_near; [done|lra]).
  unfold getCellIndex in Hstored, Hin. rewrite Hcs, Hcols in Hstored, Hin.
  assert ((Qfloor (y / cellSize g2)
           + (Qfloor (ent_y entity / size) - Qfloor (y / size))) * cols g2
          + (Qfloor (x / cellSize g2)
             + (Qfloor (ent_x entity / size) - Qfloor (x / size)))
          = Qfloor (ent_y entity / size) * Qceiling (width / size)
            + Qfloor (ent_x entity / size)) as Hindex
    by (rewrite Hcs2, Hcols2; lia).
  apply (nearby_contains g2 x y
           (Qfloor (ent_y entity / size) - Qfloor (y / size))
           (Qfloor (ent_x entity / size) - Qfloor (x / size))).
  - apply neighbourhood_covers; lia.
  - rewrite Hindex. apply index_in_grid_true.
    apply index_in_grid_true in Hin.
    rewrite Hlen2, Hcols2, Hrows2. rewrite Hlen, Hcols, Hrows in Hin. done.
  - by rewrite Hindex.
Qed.

Lemma grid_size width height size (g : t E) :
  (0 < size)%Q → (0 <= width)%Q → (0 <= height)%Q →
  grid_inv width height size g →
  0 ≤ cols g ∧ 0 ≤ rows g ∧ Z.of_nat (length (grid g)) = cols g * rows g.
Proof.
  intros Hc Hw Hh (Hcs & Hcols & Hrows & Hlen).
  assert (0 ≤ cols g) as Hcols0.
  { rewrite Hcols, <- (Qceiling_Z 0). apply Qceiling_resp_le.
    apply Qle_shift_div_l; [done|]. change (inject_Z 0) with 0%Q. lra. }
  assert (0 ≤ rows g) as Hrows0.
  { rewrite Hrows, <- (Qceiling_Z 0). apply Qceiling_resp_le.
    apply Qle_shift_div_l; [done|]. change (inject_Z 0) with 0%Q. lra. }
  split; [done|split; [done|]]. rewrite Hlen. nia.
Qed.

(** C3, as the code has it. [insert] leaves every bucket unchanged
    exactly when the flat index [row * cols + col] of the entity's cell
    is negative or not below the number of buckets [cols * rows]. That
    is the case for every entity above the grid ([y < 0]) that is left
    of its right edge, and for every entity at or below its bottom edge
    that is not left of its left edge. An entity whose flat index is in
    range is appended to the bucket of that index, also when its
    position is outside the extent. *)
Theorem insert_drops_by_flat_index (width height size : Q)
    (before : list (GridCall (E:=E))) (entity : E) :
  (0 < size)%Q → (0 <= width)%Q → (0 <= height)%Q →
  let g := grid_calls before (constructor width height size) in
  let index := getCellIndex g (ent_x entity) (ent_y entity) in
  (insert g entity = g ↔ ¬ (0 ≤ index < cols g * rows g))
  ∧ ((ent_y entity < 0)%Q ∧ (ent_x entity < inject_Z (cols g) * size)%Q →
     insert g entity = g)
  ∧ ((inject_Z (rows g) * size <= ent_y entity)%Q ∧ (0 <= ent_x entity)%Q →
     insert g entity = g)
  ∧ (0 ≤ index < cols g * rows g →
     ∃ bucket, grid g !! Z.to_nat index = Some bucket
               ∧ grid (insert g entity)
                 = <[Z.to_nat index := bucket ++ [entity]]> (grid g)).
Proof.
  intros Hc Hw Hh g index.
  assert (grid_inv width height size g) as Hinv
    by apply grid_calls_inv, constructor_inv'.
  destruct (grid_size _ _ _ g Hc Hw Hh Hinv) as (Hcols0 & Hrows0 & Hlen).
  destruct Hinv as (Hcs & _).
  assert (∀ i, index_in_grid g i = false ↔ ¬ (0 ≤ i < cols g * rows g))
    as Hout.
  { intros i. rewrite <- Hlen, <- index_in_grid_true.
    by destruct (index_in_grid g i). }
  split; [|split; [|split]].
  - split.
    + intros Heq. apply Hout. fold index.
      destruct (index_in_grid g index) eqn:Hin; [|done].
      apply insert_changes in Hin. by rewrite Heq in Hin.
    + intros Hidx. by apply insert_dropped, Hout.
  - intros [Hy Hx]. apply insert_dropped, Hout. unfold getCellIndex.
    rewrite Hcs.
    pose proof (Qfloor_div_neg _ _ Hc Hy).
    pose proof (Qfloor_div_within _ _ _ Hc Hx). nia.
  - intros [Hy Hx]. apply insert_dropped, Hout. unfold getCellIndex.
    rewrite Hcs.
    pose proof (Qfloor_div_beyond _ _ _ Hc Hy).
    pose proof (Qfloor_div_nonneg _ _ Hc Hx). nia.
  - intros Hidx. apply insert_appended.
    apply index_in_grid_true. fold index. by rewrite Hlen.
Qed.
End GridProperties.

(** C3 fails as stated: the position (-10, 100) is left of the extent,
    and [insert] appends it to bucket 31, the last cell of the row above
    (row 1, column 15). *)
Lemma insert_outside_extent_counterexample :
  outside_extent 800 600 (-10) 100
  ∧ SpatialGrid.getCellIndex game_grid (-10) 100 = 31%Z
  ∧ SpatialGrid.grid game_grid !! 31 = Some []
  ∧ SpatialGrid.grid (SpatialGrid.insert fst snd game_grid (-10, 100)%Q) !! 31
    = Some [(-10, 100)%Q]
  ∧ SpatialGrid.grid (SpatialGrid.insert fst snd game_grid (-10, 100)%Q)
    ≠ SpatialGrid.grid game_grid.
Proof.
  split; [by left|]. split; [by vm_compute|]. split; [by vm_compute|].
  split; [by vm_compute|].
  intros Heq. apply (f_equal (λ l, l !! 31)) in Heq.
  vm_compute in Heq. discriminate.
Qed.

Lemma insert_drops_by_flat_index_witness :
  SpatialGrid.insert fst snd
    (SpatialGrid.grid_calls fst snd [SpatialGrid.Insert (10, 10)%Q]
       (SpatialGrid.constructor 800 600 50))
    (100, -5)%Q
  = SpatialGrid.grid_calls fst snd [SpatialGrid.Insert (10, 10)%Q]
      (SpatialGrid.constructor 800 600 50).
Proof.
  refine (proj1 (proj2 (insert_drops_by_flat_index fst snd 800 600 50
                          [SpatialGrid.Insert (10, 10)%Q] (100, -5)%Q _ _ _))
            _);
    [by vm_compute..|split; by vm_compute].
Defined.

Lemma query_returns_inserted_entity_witness :
  (120, 75)%Q
  ∈ SpatialGrid.getNearbyEntities
      (foldl (SpatialGrid.insert fst snd)
         (SpatialGrid.insert fst snd
            (SpatialGrid.grid_calls fst snd
               [SpatialGrid.Insert (10, 10)%Q; SpatialGrid.Clear]
               (SpatialGrid.constructor 800 600 50))
            (120, 75)%Q)
         [(130, 80)%Q])
      160 110.
Proof.
  apply (query_returns_inserted_entity fst snd 800 600 50
           [SpatialGrid.Insert (10, 10)%Q; SpatialGrid.Clear]
           (120, 75)%Q [(130, 80)%Q] 160 110);
    by vm_compute.
Defined.

(** ** Comparisons of numbers *)

Lemma Qltb_lt (a b : Q) : Qltb a b = true ↔ (a < b)%Q.
Proof.
  unfold Qltb. rewrite negb_true_iff, <- not_true_iff_false, Qle_bool_iff.
  split; [apply Qnot_le_lt|apply Qlt_not_le].
Qed.

(** ** The box overlap test *)

Lemma collision_true (a b : Rect) :
  collision a b = true ↔
  (rect_x a < rect_x b + rect_width b ∧ rect_x b < rect_x a + rect_width a
   ∧ rect_y a < rect_y b + rect_height b
   ∧ rect_y b < rect_y a + rect_height a)%Q.
Proof.
  unfold collision, Qgtb. rewrite !andb_true_iff, !Qltb_lt. tauto.
Qed.


(** C7. The overlap test gives the same answer for a pair of boxes taken
    in either order; nothing is assumed of the boxes, so a box of no area
    and a box inside the other are covered. *)
Theorem collision_symmetric (a b : Rect) : collision a b = collision b a.
Proof.
  unfold collision, Qgtb.
  destruct (Qltb (rect_x a) (rect_x b + rect_width b)),
           (Qltb (rect_x b) (rect_x a + rect_width a)),
           (Qltb (rect_y a) (rect_y b + rect_height b)),
           (Qltb (rect_y b) (rect_y a + rect_height a)); reflexivity.
Qed.

(** A point box inside a large box, and two boxes that only touch. *)
Example collision_contained :
  collision (mkRect 5 5 0 0) (mkRect 0 0 10 10) = true
  ∧ collision (mkRect 0 0 10 10) (mkRect 5 5 0 0) = true.
Proof. by vm_compute. Qed.

Example collision_touching :
  collision (mkRect 0 0 10 10) (mkRect 10 0 10 10) = false
  ∧ collision (mkRect 10 0 10 10) (mkRect 0 0 10 10) = false.
Proof. by vm_compute. Qed.

(** ** Player *)

Section PlayerProperties.
Local Open Scope Q_scope.

Lemma update_width keys canvasWidth mouseX useMouseControl p :
  Player.width (Player.update keys canvasWidth mouseX useMouseControl p)
  = Player.width p.
Proof.
  unfold Player.update.
  destruct mouseX as [m|], useMouseControl; simpl;
    repeat match goal with |- context [if ?c then _ else _] =>
             destruct c; simpl end; done.
Qed.

(** The clamp that ends [update]. *)
Lemma clamp_bounds (lo hi v : Q) :
  lo <= hi → lo <= Qmax lo (Qmin hi v) ∧ Qmax lo (Qmin hi v) <= hi.
Proof.
  intros Hle. split; [apply Q.le_max_l|].
  apply Q.max_lub; [done|apply Q.le_min_l].
Qed.

(** C9. After [update] the player is inside the play field,
    [0 <= x <= canvasWidth - width], whatever the keys, the mouse
    position and the control mode; the play field is at least as wide as
    the player. *)
Theorem update_keeps_player_in_field (keys : gset string) (canvasWidth : Q)
    (mouseX : option Q) (useMouseControl : bool) (p : Player.t) :
  Player.width p <= canvasWidth →
  let p' := Player.update keys canvasWidth mouseX useMouseControl p in
  0 <= Player.x p' ∧ Player.x p' <= canvasWidth - Player.width p'.
Proof.
  intros Hw p'. subst p'. rewrite update_width.
  unfold Player.update.
  destruct mouseX as [m|], useMouseControl; simpl;
    repeat match goal with |- context [if ?c then _ else _] =>
             destruct c; simpl end;
    apply clamp_bounds; lra.
Qed.
End PlayerProperties.

Lemma update_keeps_player_in_field_witness :
  let p' := Player.update {["ArrowRight"]} 800 None false
              (Player.constructor 758 550) in
  (0 <= Player.x p')%Q ∧ (Player.x p' <= 800 - Player.width p')%Q.
Proof.
  apply (update_keeps_player_in_field {["ArrowRight"]} 800 None false
           (Player.constructor 758 550)).
  by vm_compute.
Defined.

Example update_clamps_right :
  (Player.x (Player.update {["ArrowRight"]} 800 None false
               (Player.constructor 758 550)) == 760)%Q.
Proof. by vm_compute. Qed.

(** ** Bullet *)

Section BulletProperties.
Import Bullet.

Lemma take_app_take {A} (n : nat) (l m : list A) :
  take n (l ++ take n m) = take n (l ++ m).
Proof.
  rewrite !firstn_app, take_take. do 2 f_equal. lia.
Qed.

Lemma removelast_full {A} (n : nat) (l : list A) :
  length l = S n → removelast l = take n l.
Proof.
  destruct l as [|a l _] using rev_ind; [done|].
  rewrite length_app, removelast_last. simpl. intros Hlen.
  rewrite take_app_le by lia. apply symmetry, take_ge. lia.
Qed.

(** One [update] puts the position it finds in front of the trail and
    keeps the first five entries. *)
Lemma update_trail r0 r1 r2 b :
  length (trail b) ≤ 5 →
  trail (update r0 r1 r2 b).1 = take 5 ((x b, y b) :: trail b).
Proof.
  intros Hlen. unfold update.
  assert (trail (if game b && Qltb r0 0.3
                 then _ else _).1
          = if decide (5 < length ((x b, y b) :: trail b))
            then removelast ((x b, y b) :: trail b)
            else (x b, y b) :: trail b) as ->
    by (by destruct (game b && Qltb r0 0.3)).
  case_decide as Hlong.
  - apply removelast_full. simpl in *. lia.
  - apply symmetry, take_ge. simpl in *. lia.
Qed.

Lemma updates_trail rs b :
  length (trail b) ≤ 5 →
  trail (updates rs b) = take 5 (rev (positions rs b) ++ trail b).
Proof.
  revert b. induction rs as [|[[r0 r1] r2] rs IH]; intros b Hlen.
  - simpl. apply symmetry, take_ge. lia.
  - change (updates (((r0, r1), r2) :: rs) b)
      with (updates rs (update r0 r1 r2 b).1).
    rewrite IH, (update_trail r0 r1 r2 b Hlen).
    + rewrite take_app_take. simpl. by rewrite <- app_assoc.
    + rewrite (update_trail r0 r1 r2 b Hlen), length_take. lia.
Qed.

(** C10. After a [reset] and any sequence of [update] calls, the trail
    has at most five entries, and they are the positions at which the
    latest calls found the bullet, the most recent first. *)
Theorem trail_holds_latest_positions (x0 y0 speed0 : Q) (color0 : string)
    (game0 : bool) (b0 : Bullet.t) (rs : list (Q * Q * Q)) :
  let b := reset x0 y0 speed0 color0 game0 b0 in
  length (trail (updates rs b)) ≤ 5
  ∧ trail (updates rs b) = take 5 (rev (positions rs b)).
Proof.
  intros b.
  assert (trail (updates rs b) = take 5 (rev (positions rs b))) as Htrail.
  { rewrite updates_trail by (simpl; lia). simpl. by rewrite app_nil_r. }
  split; [|done]. rewrite Htrail, length_take. lia.
Qed.
End BulletProperties.

(** A bullet fired upwards from (100, 500) at speed -5: after seven
    updates the trail holds the five positions before the current one. *)
Example trail_after_seven_updates :
  Bullet.trail
    (Bullet.updates (replicate 7 (1, 0, 0)%Q)
       (Bullet.constructor 100 500 (-5) "#00ff00" true))
  = [(100 + 0 + 0 + 0 + 0 + 0 + 0, 500 + -5 + -5 + -5 + -5 + -5 + -5)%Q;
     (100 + 0 + 0 + 0 + 0 + 0, 500 + -5 + -5 + -5 + -5 + -5)%Q;
     (100 + 0 + 0 + 0 + 0, 500 + -5 + -5 + -5 + -5)%Q;
     (100 + 0 + 0 + 0, 500 + -5 + -5 + -5)%Q;
     (100 + 0 + 0, 500 + -5 + -5)%Q].
Proof. reflexivity. Qed.

(** ** The power-up timers *)

Section PowerUpProperties.
Import Game.
Local Open Scope Z_scope.

Lemma swept_idempotent now tm : swept now (swept now tm) = swept now tm.
Proof.
  unfold swept. destruct tm as [[] e]; simpl; [|done].
  destruct (passed now e) eqn:He; simpl; [done|]. by rewrite He.
Qed.

Lemma expirationMap_timer k f g :
  expirationMap k = Some f → timer (powerUps (f g)) = timer (powerUps g).
Proof. destruct k; simpl; intros [= <-]; done. Qed.

(** The loop body rewrites the record of its own key only. *)
Lemma sweep_timer now g key k :
  timer (powerUps (sweep now g key)) k
  = if decide (key = PowerUp.keyed k) then swept now (timer (powerUps g) k)
    else timer (powerUps g) k.
Proof.
  destruct key as [| |k0]; simpl; [done..|].
  unfold swept.
  destruct (decide (PowerUp.keyed k0 = PowerUp.keyed k)) as [[= ->]|Hne].
  - destruct (timer (powerUps g) k) as [a [e|]] eqn:Htm; simpl;
      [|by rewrite andb_false_r].
    destruct (a && (now >? e)) eqn:Hc; [|done].
    destruct (expirationMap k) as [f|] eqn:Hf.
    + rewrite (expirationMap_timer k f _ Hf). simpl.
      by destruct (decide (k = k)).
    + simpl. by destruct (decide (k = k)).
  - assert (k ≠ k0) as Hne' by congruence.
    destruct (timer (powerUps g) k0) as [a [e|]] eqn:Htm; simpl; [|done].
    destruct (a && (now >? e)) eqn:Hc; [|done].
    destruct (expirationMap k0) as [f|] eqn:Hf.
    + rewrite (expirationMap_timer k0 f _ Hf). simpl.
      by destruct (decide (k = k0)).
    + simpl. by destruct (decide (k = k0)).
Qed.

Lemma sweep_fold_stable now keys g k tm :
  timer (powerUps g) k = swept now tm →
  timer (powerUps (foldl (sweep now) g keys)) k = swept now tm.
Proof.
  revert g. induction keys as [|key keys IH]; intros g Htm; [done|].
  cbn [foldl]. apply IH. rewrite sweep_timer, Htm.
  case_decide; [apply swept_idempotent|done].
Qed.

Lemma sweep_fold_timer now keys g k :
  PowerUp.keyed k ∈ keys →
  timer (powerUps (foldl (sweep now) g keys)) k
  = swept now (timer (powerUps g) k).
Proof.
  revert g. induction keys as [|key keys IH]; intros g Hin.
  - by apply elem_of_nil in Hin.
  - cbn [foldl]. destruct (decide (key = PowerUp.keyed k)) as [->|Hne].
    + apply sweep_fold_stable. rewrite sweep_timer. by case_decide.
    + apply elem_of_cons in Hin as [Heq|Hin]; [congruence|].
      rewrite IH by done. rewrite sweep_timer. by case_decide.
Qed.

(** One sweep, record by record. *)
Lemma updatePowerUpTimers_timer now g k :
  timer (powerUps (updatePowerUpTimers now g)) k
  = swept now (timer (powerUps g) k).
Proof.
  unfold updatePowerUpTimers. apply sweep_fold_timer.
  destruct k; apply list_elem_of_In; simpl; tauto.
Qed.

Lemma applyPowerUp_timed k duration score' T g :
  GAME_CONFIG_powerUps (PowerUp.keyed k) = Timed duration score' →
  timer (powerUps (applyPowerUp (PowerUp.keyed k) T g)) k
  = mkTimer true (At (T + duration)).
Proof.
  intros Hcfg. unfold applyPowerUp. rewrite Hcfg.
  destruct k; simpl in Hcfg; try discriminate; done.
Qed.

Lemma sweeps_cons now times g :
  sweeps (now :: times) g = sweeps times (updatePowerUpTimers now g).
Proof. unfold sweeps. by cbn [foldl]. Qed.

Lemma sweeps_keep_active times T duration g k :
  Forall (λ now, now ≤ T + duration) times →
  timer (powerUps g) k = mkTimer true (At (T + duration)) →
  timer (powerUps (sweeps times g)) k = mkTimer true (At (T + duration)).
Proof.
  revert g. induction times as [|now times IH]; intros g Htimes Htm; [done|].
  apply Forall_cons in Htimes as [Hnow Htimes].
  rewrite sweeps_cons. apply IH; [done|].
  rewrite updatePowerUpTimers_timer, Htm. unfold swept. simpl.
  rewrite Z.gtb_ltb. by rewrite (proj2 (Z.ltb_ge _ _) Hnow).
Qed.

Lemma sweeps_keep_inactive times g k :
  active (timer (powerUps g) k) = false →
  active (timer (powerUps (sweeps times g)) k) = false.
Proof.
  revert g. induction times as [|now times IH]; intros g Htm; [done|].
  rewrite sweeps_cons. apply IH. rewrite updatePowerUpTimers_timer. unfold swept.
  rewrite Htm. done.
Qed.

(** C5, as the code has it. A power-up with a duration [D], collected
    at time [T], is reported active as long as every expiration sweep
    since ran at a time of at most [T + D], the time [T + D] included;
    the first sweep at a time after [T + D] reports it inactive, and so
    do the sweeps after that one. A sweep at time [now] switches off
    exactly the active records with a finite expiry time below [now],
    and changes no expiry time. *)
Theorem timed_powerup_expires_after_duration (k : PowerUp.key)
    (D score' T T' : Z) (times later : list Z) (g : Game.t) :
  GAME_CONFIG_powerUps (PowerUp.keyed k) = Timed D score' →
  Forall (λ now, now ≤ T + D) times →
  T + D < T' →
  let g1 := sweeps times (applyPowerUp (PowerUp.keyed k) T g) in
  let g2 := sweeps later (updatePowerUpTimers T' g1) in
  active (timer (powerUps g1) k) = true
  ∧ active (timer (powerUps g2) k) = false
  ∧ ∀ (now : Z) (g' : Game.t) (k' : PowerUp.key),
      (active (timer (powerUps (updatePowerUpTimers now g')) k') = true
       ↔ active (timer (powerUps g') k') = true
         ∧ ¬ ∃ expire, expireTime (timer (powerUps g') k') = At expire
                       ∧ expire < now)
      ∧ expireTime (timer (powerUps (updatePowerUpTimers now g')) k')
        = expireTime (timer (powerUps g') k').
Proof.
  intros Hcfg Htimes Hlate g1 g2.
  assert (timer (powerUps g1) k = mkTimer true (At (T + D))) as Hg1.
  { apply sweeps_keep_active; [done|]. by eapply applyPowerUp_timed. }
  split; [by rewrite Hg1|]. split.
  - apply sweeps_keep_inactive.
    rewrite updatePowerUpTimers_timer, Hg1. unfold swept. simpl.
    rewrite Z.gtb_ltb. by rewrite (proj2 (Z.ltb_lt _ _) Hlate).
  - intros now g' k'. rewrite updatePowerUpTimers_timer. unfold swept.
    destruct (timer (powerUps g') k') as [a [e|]]; simpl.
    + rewrite Z.gtb_ltb. destruct a; simpl.
      * destruct (e <? now) eqn:He; simpl.
        -- apply Z.ltb_lt in He. split; [|done].
           split; [done|]. intros [_ Hno]. exfalso. apply Hno. by exists e.
        -- apply Z.ltb_ge in He. split; [|done].
           split; [|done]. intros _. split; [done|].
           intros (e' & [= <-] & ?). lia.
      * split; [|done]. split; [done|]. by intros [? _].
    + rewrite andb_false_r. split; [|done]. split; [|tauto].
      intros Ha. split; [done|]. by intros (e' & ? & _).
Qed.
End PowerUpProperties.

(** C5 fails as stated at the expiry time itself: rapid fire, of duration
    5000, collected at time 1000, is still active after the sweep that
    runs at time 6000. *)
Lemma powerup_active_at_expiry_counterexample :
  GAME_CONFIG_powerUps (PowerUp.keyed PowerUp.rapidFire) = Timed 5000 100
  ∧ (6000 >= 1000 + 5000)%Z
  ∧ Game.active
      (Game.timer
         (Game.powerUps
            (Game.updatePowerUpTimers 6000
               (Game.applyPowerUp (PowerUp.keyed PowerUp.rapidFire) 1000
                  game_start)))
         PowerUp.rapidFire)
    = true.
Proof. by vm_compute. Qed.

Lemma timed_powerup_expires_after_duration_witness :
  Game.active
    (Game.timer
       (Game.powerUps
          (sweeps [1016; 6000]%Z
             (Game.applyPowerUp (PowerUp.keyed PowerUp.rapidFire) 1000
                game_start)))
       PowerUp.rapidFire)
  = true
  ∧ Game.active
      (Game.timer
         (Game.powerUps
            (sweeps [6017]%Z
               (Game.updatePowerUpTimers 6001
                  (sweeps [1016; 6000]%Z
                     (Game.applyPowerUp (PowerUp.keyed PowerUp.rapidFire) 1000
                        game_start)))))
         PowerUp.rapidFire)
    = false.
Proof.
  destruct (timed_powerup_expires_after_duration PowerUp.rapidFire
              5000 100 1000 6001 [1016; 6000]%Z [6017]%Z game_start)
    as (Hactive & Hinactive & _).
  - reflexivity.
  - repeat constructor; lia.
  - lia.
  - exact (conj Hactive Hinactive).
Defined.

(** ** The bullets of the player against the aliens *)

Example two_aliens_query_order :
  let g := Game.rebuildGrid two_aliens_one_bullet in
  SpatialGrid.getNearbyEntities (Game.spatialGrid g) 110 95 = [0; 1; 2]
  ∧ Game.hits g 2 0 = false
  ∧ Game.hits g 2 1 = true
  ∧ Game.aliens (Game.bulletVsAliens (λ _ _, (0, 0)%Q) (λ _, no_drop) g 2)
    = [0].
Proof. by vm_compute. Qed.

Section ExplosionProperties.
Import Game.

Lemma same_but_items_refl h : same_but_items h h.
Proof. by intros r o _. Qed.

Lemma same_but_items_trans h1 h2 h3 :
  same_but_items h1 h2 → same_but_items h2 h3 → same_but_items h1 h3.
Proof.
  intros H12 H23 r o Ho. by rewrite (H23 r o Ho), (H12 r o Ho).
Qed.

Lemma same_but_items_alter f i h :
  same_but_items h (alter (on_powerUp f) i h).
Proof.
  intros r o Ho. destruct (decide (r = i)) as [->|Hne].
  - rewrite list_lookup_alter_eq.
    destruct (h !! i) as [[b|a|p]|]; cbn; try done.
    split; intros [= <-]; by destruct (Ho _ eq_refl).
  - by rewrite list_lookup_alter_ne.
Qed.

Lemma same_but_items_snoc h p : same_but_items h (h ++ [OPowerUp p]).
Proof.
  intros r o Ho. destruct (decide (r < length h)) as [Hlt|Hge].
  - by rewrite lookup_app_l.
  - rewrite lookup_app_r by lia.
    rewrite (lookup_ge_None_2 h r) by lia.
    destruct (r - length h) as [|k]; cbn.
    + split; [|done]. intros [= <-]. by destruct (Ho _ eq_refl).
    + done.
Qed.

(** A drop changes the pool of the items, the time of the last drop
    and the items of the store, and nothing else. *)
Lemma spawn_frame c x y isBomb g :
  let g' := spawnPowerUpIfAppropriate c x y isBomb g in
  score g' = score g ∧ lives g' = lives g ∧ player g' = player g
  ∧ wingman_active g' = wingman_active g ∧ powerUps g' = powerUps g
  ∧ aliens g' = aliens g ∧ pools_bullets g' = pools_bullets g
  ∧ pools_alienBullets g' = pools_alienBullets g
  ∧ spatialGrid g' = spatialGrid g ∧ log g' = log g
  ∧ same_but_items (heap g) (heap g').
Proof.
  intros g'. subst g'. unfold spawnPowerUpIfAppropriate.
  assert (score g = score g ∧ lives g = lives g ∧ player g = player g
          ∧ wingman_active g = wingman_active g ∧ powerUps g = powerUps g
          ∧ aliens g = aliens g ∧ pools_bullets g = pools_bullets g
          ∧ pools_alienBullets g = pools_alienBullets g
          ∧ spatialGrid g = spatialGrid g ∧ log g = log g
          ∧ same_but_items (heap g) (heap g)) as Hsame
    by (repeat (split; [reflexivity|]); apply same_but_items_refl).
  destruct (_ <? _)%Z; [done|].
  destruct (_ <=? _)%nat; [done|].
  destruct (_ && _); [done|].
  destruct (Qltb _ _); [|done].
  unfold powerUps_get, ObjectPool.get.
  destruct (JsArray.pop _) as [[obj rest]|]; cbn.
  - repeat (split; [reflexivity|]). apply same_but_items_alter.
  - repeat (split; [reflexivity|]). eapply same_but_items_trans;
      [apply same_but_items_snoc|apply same_but_items_alter].
Qed.

Lemma createExplosion_frame c x y g :
  let g' := createExplosion c x y g in
  score g' = score g ∧ lives g' = lives g ∧ player g' = player g
  ∧ wingman_active g' = wingman_active g ∧ powerUps g' = powerUps g
  ∧ aliens g' = aliens g ∧ pools_bullets g' = pools_bullets g
  ∧ pools_alienBullets g' = pools_alienBullets g
  ∧ spatialGrid g' = spatialGrid g
  ∧ same_but_items (heap g) (heap g').
Proof.
  intros g'. subst g'. unfold createExplosion.
  match goal with
  | |- context [spawnPowerUpIfAppropriate c x y false ?g1] =>
      destruct (spawn_frame c x y false g1)
        as (-> & -> & -> & -> & -> & -> & -> & -> & -> & _ & Hheap)
  end.
  by repeat (split; [reflexivity|]).
Qed.


Lemma createExplosion_heap c x y g r o :
  (∀ p, o ≠ OPowerUp p) →
  heap g !! r = Some o → heap (createExplosion c x y g) !! r = Some o.
Proof.
  intros Ho Hr.
  destruct (createExplosion_frame c x y g)
    as (_ & _ & _ & _ & _ & _ & _ & _ & _ & Hheap).
  by apply Hheap.
Qed.

End ExplosionProperties.

Section CollisionProperties.
Import Game.

Lemma bullets_get_aliens g : aliens (bullets_get g).2 = aliens g.
Proof.
  unfold bullets_get.
  by destruct (ObjectPool.get _ _) as [obj [heap' pool']].
Qed.


Lemma createSplitBullets_aliens velocity x y g :
  aliens (createSplitBullets velocity x y g) = aliens g.
Proof.
  unfold createSplitBullets. cbn [emit aliens].
  generalize (seq 0 (if active (timer (powerUps g) PowerUp.quadShot)
                     then 3 else 4)).
  intros l. revert g. induction l as [|i l IH]; intros g; [done|].
  cbn [foldl]. rewrite IH.
  destruct (velocity i) as [speedX speedY].
  pose proof (bullets_get_aliens g) as Hget.
  by destruct (bullets_get g) as [bullet g1].
Qed.


(** The loop stops at the first candidate that passes the test. *)
Lemma scan_first_hit velocity chance bullet candidates g :
  scan velocity chance bullet candidates g
  = match head (filter (λ alien, hits g bullet alien) candidates) with
    | Some alien => resolve velocity chance bullet alien g
    | None => g
    end.
Proof.
  induction candidates as [|alien rest IH]; [done|].
  cbn [scan]. destruct (hits g bullet alien) eqn:Hhit.
  - rewrite filter_cons_True; [done|]. cbv beta. by rewrite Hhit.
  - rewrite filter_cons_False; [done|]. cbv beta. rewrite Hhit. tauto.
Qed.



Lemma bulletVsAliens_first_hit velocity chances g bullet :
  bulletVsAliens velocity chances g bullet
  = match last (filter (λ alien, hits g bullet alien)
                  (SpatialGrid.getNearbyEntities (spatialGrid g)
                     (rect_x (rect_of (heap g) bullet))
                     (rect_y (rect_of (heap g) bullet)))) with
    | Some alien =>
        resolve (velocity bullet) (chances bullet) bullet alien g
    | None => g
    end.
Proof.
  unfold bulletVsAliens.
  by rewrite scan_first_hit, filter_reverse, head_reverse.
Qed.





(** The layout of [createAliens] keeps the aliens apart for a 4 by 10
    bullet, wherever the aliens have moved together. *)
Lemma layout_apart (dx dy : Q) (col row col' row' : Z) :
  (col, row) ≠ (col', row') →
  separated 4 10 (layout_box dx dy col row) (layout_box dx dy col' row').
Proof.
  intros Hne. unfold separated, layout_box. cbn [rect_x rect_y rect_width
    rect_height].
  assert (∀ m n : Z, (m < n)%Z → (inject_Z m + 1 <= inject_Z n)%Q) as Hstep.
  { intros m n Hmn. change 1%Q with (inject_Z 1).
    rewrite <- inject_Z_plus, <- Zle_Qle. lia. }
  destruct (Z.lt_total col col') as [H|[H|H]].
  - apply Hstep in H. left. lra.
  - destruct (Z.lt_total row row') as [H'|[H'|H']].
    + apply Hstep in H'. right. right. left. lra.
    + congruence.
    + apply Hstep in H'. right. right. right. lra.
  - apply Hstep in H. right. left. lra.
Qed.

End CollisionProperties.



(** * Further properties of the engine *)

(** ** ObjectPool: releaseAll, reuse, counters, optimize *)

Section PoolOperations.
Import ObjectPool.
Context {T : Type} (createFn : ref → T) (resetFn : T → T).

Local Abbreviation constructor := (ObjectPool.constructor createFn).
Local Abbreviation get := (ObjectPool.get createFn).
Local Abbreviation release := (ObjectPool.release resetFn).
Local Abbreviation releaseAll := (ObjectPool.releaseAll resetFn).
Local Abbreviation calls := (ObjectPool.calls createFn resetFn).
Local Abbreviation optimize := (ObjectPool.optimize createFn).

Lemma release_each heap pl s (l : list ref) :
  NoDup l →
  foldl (λ st obj, release obj st) (heap, mkPool pl l s) l
  = (foldl (λ h obj, call_resetFn resetFn obj h) heap l,
     mkPool (foldl JsArray.push pl l) [] s).
Proof.
  revert heap pl. induction l as [|obj l IH]; intros heap pl Hnd; [done|].
  apply NoDup_cons in Hnd as [Hobj Hnd].
  cbn [foldl]. unfold ObjectPool.release at 2. cbn [active pool stats].
  assert (JsSet.has (obj :: l) obj = true) as ->
    by (apply has_true; by left).
  assert (JsSet.delete (obj :: l) obj = l) as ->.
  { unfold JsSet.delete. rewrite filter_cons_False by tauto.
    by apply delete_absent. }
  by rewrite IH.
Qed.

(** X1. [releaseAll] does what releasing every active handle, in the
    order of the active set, does: the active set is empty afterwards,
    the handles are appended to the free list in that order, every one of
    them is reset, and the counters stay. *)
Theorem releaseAll_releases_each (st : list T * ObjectPool.t) :
  NoDup (active st.2) →
  releaseAll st = foldl (λ st obj, release obj st) st (active st.2)
  ∧ active (releaseAll st).2 = []
  ∧ pool (releaseAll st).2 = pool st.2 ++ active st.2
  ∧ stats (releaseAll st).2 = stats st.2
  ∧ length (releaseAll st).1 = length st.1.
Proof.
  destruct st as [heap [pl act s]]. cbn [snd fst active pool stats].
  intros Hnd. rewrite (release_each heap pl s act Hnd).
  unfold ObjectPool.releaseAll. cbn [snd fst active pool stats].
  split; [done|]. split; [done|]. split.
  - clear. revert pl. induction act as [|obj act IH]; intros pl.
    + by rewrite app_nil_r.
    + cbn [foldl]. rewrite IH. unfold JsArray.push.
      by rewrite <- app_assoc.
  - split; [done|]. clear. revert heap.
    induction act as [|obj act IH]; intros heap; [done|].
    cbn [foldl]. rewrite IH. unfold call_resetFn. apply length_alter.
Qed.

(** X2. A handle that is released is the next one [get] returns: the
    free list is a stack. Nothing is allocated for it and the object
    comes back reset. *)
Theorem get_after_release_reuses (obj : ref) (st : list T * ObjectPool.t) :
  obj ∈ active st.2 →
  (get (release obj st)).1 = obj
  ∧ (get (release obj st)).2.1 = call_resetFn resetFn obj st.1
  ∧ pool (get (release obj st)).2.2 = pool st.2
  ∧ totalCreated (stats (get (release obj st)).2.2)
    = totalCreated (stats st.2)
  ∧ obj ∈ active (get (release obj st)).2.2.
Proof.
  destruct st as [heap p]. cbn [snd fst]. intros Hobj.
  unfold ObjectPool.release. apply has_true in Hobj. rewrite Hobj.
  unfold ObjectPool.get. cbn [pool active stats].
  rewrite pop_push. cbn [fst snd pool active stats totalCreated].
  split; [done|]. split; [done|]. split; [done|]. split; [done|].
  apply elem_of_add. by left.
Qed.
End PoolOperations.

Lemma releaseAll_releases_each_witness :
  ObjectPool.releaseAll (λ _ : nat, 0)
    ([5; 5; 5], {| ObjectPool.pool := [1];
                   ObjectPool.active := [2; 0];
                   ObjectPool.stats := ObjectPool.mkStats 3 2 2 0 |})
  = ([0; 5; 0], {| ObjectPool.pool := [1; 2; 0];
                   ObjectPool.active := [];
                   ObjectPool.stats := ObjectPool.mkStats 3 2 2 0 |}).
Proof.
  rewrite (proj1 (releaseAll_releases_each (λ _, 7) (λ _ : nat, 0)
                    ([5; 5; 5], {| ObjectPool.pool := [1];
                                   ObjectPool.active := [2; 0];
                                   ObjectPool.stats :=
                                     ObjectPool.mkStats 3 2 2 0 |})
                    ltac:(cbn; repeat constructor; set_solver))).
  reflexivity.
Defined.

Lemma get_after_release_reuses_witness :
  (ObjectPool.get (λ _, 7) (ObjectPool.release (λ _ : nat, 0) 2
     ([5; 5; 5], {| ObjectPool.pool := [1];
                    ObjectPool.active := [2; 0];
                    ObjectPool.stats := ObjectPool.mkStats 3 2 2 0 |}))).1
  = 2.
Proof.
  apply (get_after_release_reuses (λ _, 7) (λ _ : nat, 0) 2
           ([5; 5; 5], {| ObjectPool.pool := [1];
                          ObjectPool.active := [2; 0];
                          ObjectPool.stats := ObjectPool.mkStats 3 2 2 0 |})).
  cbn. set_solver.
Defined.

Section PoolCounters.
Import ObjectPool.
Context {T : Type} (createFn : ref → T) (resetFn : T → T).

Local Abbreviation constructor := (ObjectPool.constructor createFn).
Local Abbreviation get := (ObjectPool.get createFn).
Local Abbreviation release := (ObjectPool.release resetFn).
Local Abbreviation calls := (ObjectPool.calls createFn resetFn).

Lemma length_add s x : length (JsSet.add s x) ≤ S (length s).
Proof.
  unfold JsSet.add. destruct (JsSet.has s x); [lia|].
  rewrite length_app. simpl. lia.
Qed.

Lemma length_delete_le s x : length (JsSet.delete s x) ≤ length s.
Proof. unfold JsSet.delete. apply length_filter. Qed.

Lemma get_counters n k st :
  counters_inv n k st.2 → counters_inv n (S k) (get st).2.2.
Proof.
  destruct st as [heap p]. unfold counters_inv, ObjectPool.get.
  cbn [snd]. intros (Hk & Htot & Hact & Hmax).
  unfold call_createFn, alloc, JsSet.size.
  destruct (JsArray.pop (pool p)) as [[obj rest]|];
    cbn [snd pool active stats totalCreated maxActive poolHits poolMisses];
    [pose proof (length_add (active p) obj)
    |pose proof (length_add (active p) (length heap))]; lia.
Qed.

Lemma release_counters n k obj st :
  counters_inv n k st.2 → counters_inv n k (release obj st).2.
Proof.
  destruct st as [heap p]. unfold counters_inv, ObjectPool.release.
  cbn [snd]. intros (Hk & Htot & Hact & Hmax).
  destruct (JsSet.has (active p) obj); cbn [snd pool active stats]; [|done].
  pose proof (length_delete_le (active p) obj). lia.
Qed.

Lemma calls_counters n k cs st :
  counters_inv n k st.2 → counters_inv n (k + gets cs) (calls cs st).2.
Proof.
  revert k st. induction cs as [|c cs IH]; intros k st Hinv.
  - by rewrite Nat.add_0_r.
  - cbn [ObjectPool.calls foldl]. destruct c as [|obj]; cbn [gets ObjectPool.call].
    + replace (k + S (gets cs)) with (S k + gets cs) by lia.
      apply IH. by apply get_counters.
    + apply IH. by apply release_counters.
Qed.

(** X3. On a pool built with [initialSize] objects, after any
    sequence of [get] and [release] calls: every [get] is counted as a
    hit or as a miss, [totalCreated] is [initialSize] plus the misses,
    and [maxActive] is at least the size of the active set and at most
    the number of [get] calls. *)
Theorem pool_counters (initialSize : nat) (heap0 : list T)
    (cs : list PoolCall) :
  let p := (calls cs (constructor initialSize heap0)).2 in
  poolHits (stats p) + poolMisses (stats p) = gets cs
  ∧ totalCreated (stats p) = initialSize + poolMisses (stats p)
  ∧ length (active p) ≤ maxActive (stats p)
  ∧ maxActive (stats p) ≤ gets cs.
Proof.
  intros p. subst p.
  apply (calls_counters initialSize 0 cs (constructor initialSize heap0)).
  unfold counters_inv, ObjectPool.constructor.
  destruct (prepopulate createFn initialSize heap0 []) as [heap pl].
  cbn. lia.
Qed.

(** X4. [get] never hands out a slot that is in use: on a pool built
    by the constructor and used through [get] and [release], the slot
    that [get] returns was not active before the call, and it is not in
    the free list after it. *)
Theorem get_returns_unused_slot (initialSize : nat) (heap0 : list T)
    (cs : list PoolCall) :
  let st := calls cs (constructor initialSize heap0) in
  ((get st).1 ∉ active st.2) ∧ ((get st).1 ∉ pool (get st).2.2).
Proof.
  intros st.
  pose proof (calls_inv createFn resetFn (length heap0) cs _
                (constructor_inv createFn initialSize heap0)) as Hinv.
  fold st in Hinv. destruct Hinv as [Hperm Hlen].
  assert (NoDup (pool st.2 ++ active st.2)) as Hnd
    by (rewrite Hperm; apply NoDup_seq).
  destruct st as [heap p]. cbn [fst snd] in *.
  unfold ObjectPool.get, call_createFn, alloc.
  destruct (JsArray.pop (pool p)) as [[obj rest]|] eqn:Hpop;
    cbn [fst snd pool].
  - apply pop_Some in Hpop. unfold JsArray.push in Hpop.
    rewrite Hpop in Hnd. apply NoDup_app in Hnd as (Hndp & Hdis & _).
    split.
    + apply Hdis, elem_of_app. right. by left.
    + apply NoDup_app in Hndp as (_ & Hdis' & _).
      intros Hin. apply (Hdis' obj Hin). by left.
  - apply pop_None in Hpop. rewrite Hpop in *. cbn [app] in *.
    split; [|apply not_elem_of_nil].
    intros Hin. rewrite Hperm in Hin. apply elem_of_seq in Hin. lia.
Qed.
End PoolCounters.

Section PoolOptimize.
Import ObjectPool.
Context {T : Type} (createFn : ref → T).

Local Abbreviation optimize := (ObjectPool.optimize createFn).

Lemma Qfloor_unique (n : Z) (x : Q) :
  (inject_Z n <= x)%Q → (x < inject_Z (n + 1))%Q → Qfloor x = n.
Proof.
  intros Hlo Hhi. apply Qfloor_lower in Hlo. apply Qfloor_upper in Hhi. lia.
Qed.

Lemma Qfloor_minus_ceiling (z : Z) (q : Q) :
  Qfloor (inject_Z z - q) = (z - Qceiling q)%Z.
Proof.
  unfold Qceiling. apply Qfloor_unique.
  - pose proof (Qfloor_le (- q)) as H.
    replace (z - - Qfloor (- q))%Z with (z + Qfloor (- q))%Z by lia.
    rewrite inject_Z_plus. lra.
  - pose proof (Qlt_floor (- q)) as H.
    replace (z - - Qfloor (- q) + 1)%Z with (z + (Qfloor (- q) + 1))%Z by lia.
    rewrite inject_Z_plus. lra.
Qed.

Lemma Qceiling_minus (z : Z) (q : Q) :
  Qceiling (q - inject_Z z) = (Qceiling q - z)%Z.
Proof.
  unfold Qceiling at 1.
  assert (- (q - inject_Z z) == inject_Z z - q)%Q as -> by ring.
  rewrite Qfloor_minus_ceiling. lia.
Qed.

(** X5. [optimize] leaves the active set and every counter as they
    are and brings the free list to [max(maxActive * 1.5, 10)] objects,
    rounded up: it either drops objects from the front of the free list
    or appends newly allocated ones at its end. [totalCreated] does not
    follow either change. *)
Theorem optimize_resizes_free_list (st : list T * ObjectPool.t) :
  let optimalSize :=
    Qmax (inject_Z (Z.of_nat (maxActive (stats st.2))) * 1.5) 10 in
  active (optimize st).2 = active st.2
  ∧ stats (optimize st).2 = stats st.2
  ∧ Z.of_nat (length (pool (optimize st).2)) = Qceiling optimalSize
  ∧ ((∃ dropped, pool st.2 = dropped ++ pool (optimize st).2
                 ∧ (optimize st).1 = st.1)
     ∨ (∃ k, pool (optimize st).2 = pool st.2 ++ seq (length st.1) k
             ∧ (optimize st).1 = st.1 ++ (createFn <$> seq (length st.1) k))).
Proof.
  destruct st as [heap p]. intros optimalSize. cbn [fst snd] in *.
  assert (10 <= optimalSize)%Q as Hten by apply Q.le_max_r.
  unfold ObjectPool.optimize. fold optimalSize.
  set (len := Z.of_nat (length (pool p))).
  destruct (Qgtb (inject_Z len) optimalSize) eqn:Hgt.
  - apply Qltb_lt in Hgt. cbn [fst snd pool active stats].
    split; [done|]. split; [done|].
    rewrite Qfloor_minus_ceiling.
    assert (0 ≤ Qceiling optimalSize ≤ len)%Z as Hc.
    { split.
      - rewrite <- (Qceiling_Z 0). apply Qceiling_resp_le.
        change (inject_Z 0) with 0%Q. lra.
      - rewrite <- (Qceiling_Z len). apply Qceiling_resp_le. lra. }
    split.
    + rewrite length_drop. subst len. lia.
    + left. exists (take (Z.to_nat (len - Qceiling optimalSize)) (pool p)).
      by rewrite take_drop.
  - destruct (Qltb (inject_Z len) optimalSize) eqn:Hlt.
    + apply Qltb_lt in Hlt. rewrite prepopulate_spec.
      cbn [fst snd pool active stats].
      split; [done|]. split; [done|].
      rewrite Qceiling_minus.
      assert (len ≤ Qceiling optimalSize)%Z as Hc.
      { rewrite <- (Qceiling_Z len). apply Qceiling_resp_le. lra. }
      split.
      * rewrite length_app, length_seq. subst len. lia.
      * right. by eexists.
    + cbn [fst snd]. split; [done|]. split; [done|].
      assert (optimalSize == inject_Z len)%Q as Heq.
      { apply not_true_iff_false in Hgt, Hlt. unfold Qgtb in Hgt.
        rewrite Qltb_lt in Hgt, Hlt.
        apply Qnot_lt_le in Hgt, Hlt. by apply Qle_antisym. }
      split.
      * by rewrite Heq, Qceiling_Z.
      * left. by exists [].
Qed.
End PoolOptimize.

(** A pool that never had more than seven active objects and holds
    twelve free ones keeps eleven of them. *)
Example optimize_shrinks :
  ObjectPool.pool
    (ObjectPool.optimize (λ _, 0)
       ([], {| ObjectPool.pool := seq 0 12;
                ObjectPool.active := [];
                ObjectPool.stats := ObjectPool.mkStats 12 7 0 0 |})).2
  = seq 1 11.
Proof. by vm_compute. Qed.

(** ** SpatialGrid: clear, and what a query can return *)

Section GridContents.
Import SpatialGrid.
Context {E : Type} (ent_x ent_y : E → Q).

Local Abbreviation insert := (SpatialGrid.insert ent_x ent_y).

Local Open Scope Z_scope.

Lemma clear_bucket (g : t E) (i : nat) :
  default [] (grid (clear g) !! i) = [].
Proof.
  unfold clear. cbn [grid].
  destruct (replicate (length (grid g)) [] !! i) as [b|] eqn:Hb; [|done].
  by apply lookup_replicate in Hb as [-> _].
Qed.

Lemma nearby_stored (g : t E) x y entity :
  entity ∈ getNearbyEntities g x y → ∃ index, stored g index entity.
Proof.
  unfold getNearbyEntities.
  assert (∀ l acc,
            entity ∈ foldl (visit g (Qfloor (x / cellSize g))
                              (Qfloor (y / cellSize g))) acc l →
            entity ∈ acc ∨ ∃ index, stored g index entity) as Hfold.
  { induction l as [|[dy dx] l IH]; intros acc Hin; [by left|].
    cbn [foldl] in Hin. apply IH in Hin as [Hin|?]; [|by right].
    unfold visit in Hin. destruct (index_in_grid g _); [|by left].
    apply elem_of_app in Hin as [?|Hin]; [by left|]. right.
    match type of Hin with
    | _ ∈ default [] (grid g !! Z.to_nat ?i) => exists i
    end.
    destruct (grid g !! _) as [bucket|] eqn:Hb; [|by apply elem_of_nil in Hin].
    by exists bucket. }
  intros Hin. apply Hfold in Hin as [Hin|?]; [|done].
  by apply elem_of_nil in Hin.
Qed.

Lemma clear_stores_nothing (g : t E) index entity :
  ¬ stored (clear g) index entity.
Proof.
  intros (bucket & Hb & He). pose proof (clear_bucket g (Z.to_nat index)) as Hc.
  rewrite Hb in Hc. simpl in Hc. subst bucket. by apply elem_of_nil in He.
Qed.

Lemma insert_stored_inv (g : t E) other index entity :
  stored (insert g other) index entity → stored g index entity ∨ entity = other.
Proof.
  unfold SpatialGrid.insert.
  generalize (getCellIndex g (ent_x other) (ent_y other)). intros j.
  destruct (index_in_grid g j); [|by left].
  intros (bucket & Hb & He). cbn [grid] in Hb.
  destruct (decide (Z.to_nat j = Z.to_nat index)) as [Heq|Hne].
  - rewrite Heq, list_lookup_alter_eq in Hb.
    destruct (grid g !! Z.to_nat index) as [old|] eqn:Hold; [|done].
    injection Hb as <-. unfold JsArray.push in He.
    apply elem_of_app in He as [He|He].
    + left. by exists old.
    + right. by apply list_elem_of_singleton in He.
  - rewrite list_lookup_alter_ne in Hb by done. left. by exists bucket.
Qed.

Lemma inserts_stored_inv (g : t E) entities index entity :
  stored (foldl insert g entities) index entity →
  stored g index entity ∨ entity ∈ entities.
Proof.
  revert g. induction entities as [|other entities IH]; intros g Hs;
    [by left|].
  cbn [foldl] in Hs. apply IH in Hs as [Hs|Hin].
  - apply insert_stored_inv in Hs as [?| ->]; [by left|]. right. by left.
  - right. by right.
Qed.

(** X6. After [clear] every query returns the empty sequence, and the
    grid keeps its buckets. *)
Theorem clear_empties_every_query (g : t E) (x y : Q) :
  getNearbyEntities (clear g) x y = []
  ∧ length (grid (clear g)) = length (grid g).
Proof.
  split; [|apply length_replicate].
  unfold getNearbyEntities.
  generalize (Qfloor (x / cellSize (clear g))) (Qfloor (y / cellSize (clear g))).
  intros col row. induction neighbourhood as [|[dy dx] l IH]; [done|].
  cbn [foldl]. unfold visit at 2. rewrite clear_bucket.
  by destruct (index_in_grid (clear g) _).
Qed.

(** X7. A query returns nothing but entities that were inserted since
    the last [clear]. *)
Theorem query_returns_only_inserted (g : t E) (entities : list E)
    (x y : Q) (entity : E) :
  entity ∈ getNearbyEntities (foldl insert (clear g) entities) x y →
  entity ∈ entities.
Proof.
  intros Hin. apply nearby_stored in Hin as [index Hs].
  apply inserts_stored_inv in Hs as [Hs|?]; [|done].
  by apply clear_stores_nothing in Hs.
Qed.
End GridContents.

Lemma query_returns_only_inserted_witness :
  (120, 75)%Q ∈ [(120, 75)%Q; (700, 20)%Q].
Proof.
  apply (query_returns_only_inserted fst snd game_grid
           [(120, 75)%Q; (700, 20)%Q] 160 110 (120, 75)%Q).
  vm_compute. by left.
Defined.

Section GridCount.
Import SpatialGrid.
Context {E : Type} (ent_x ent_y : E → Q).

Local Abbreviation insert := (SpatialGrid.insert ent_x ent_y).

Local Open Scope Z_scope.

Lemma concat_alter_push (l : list (list E)) (i : nat) (entity : E) :
  (i < length l)%nat →
  length (concat (alter (λ bucket, JsArray.push bucket entity) i l))
  = S (length (concat l)).
Proof.
  revert i. induction l as [|b l IH]; intros i Hi; [simpl in Hi; lia|].
  destruct i as [|i]; simpl.
  - unfold JsArray.push. rewrite !length_app. simpl. lia.
  - simpl in Hi. rewrite !length_app.
    change (list_alter ?f i l) with (alter f i l).
    rewrite IH by lia. lia.
Qed.

Lemma insert_count (g : t E) entity :
  length (concat (grid (insert g entity)))
  = (length (concat (grid g))
     + if index_in_grid g (getCellIndex g (ent_x entity) (ent_y entity))
       then 1 else 0)%nat.
Proof.
  unfold SpatialGrid.insert.
  destruct (index_in_grid g _) eqn:Hin; [|lia].
  apply index_in_grid_true in Hin. cbn [grid].
  rewrite concat_alter_push by lia. lia.
Qed.

Lemma insert_same_index (g : t E) other x y :
  getCellIndex (insert g other) x y = getCellIndex g x y
  ∧ ∀ index, index_in_grid (insert g other) index = index_in_grid g index.
Proof.
  unfold SpatialGrid.insert. destruct (index_in_grid g _); [|done].
  split; [done|]. intros index. unfold index_in_grid. cbn [grid].
  by rewrite length_alter.
Qed.

Lemma inserts_count (keep : E → bool) (g : t E) entities :
  (∀ entity,
     index_in_grid g (getCellIndex g (ent_x entity) (ent_y entity))
     = keep entity) →
  length (concat (grid (foldl insert g entities)))
  = (length (concat (grid g)) + length (filter (λ e, keep e) entities))%nat.
Proof.
  revert g. induction entities as [|entity entities IH]; intros g Hkeep.
  - simpl. lia.
  - cbn [foldl]. rewrite IH.
    + rewrite insert_count, Hkeep.
      destruct (keep entity) eqn:Hk.
      * rewrite filter_cons_True by (by rewrite Hk). simpl. lia.
      * rewrite filter_cons_False by (rewrite Hk; tauto). lia.
    + intros e. destruct (insert_same_index g entity (ent_x e) (ent_y e))
        as [-> ->]. apply Hkeep.
Qed.

Lemma insert_bucket (g : t E) entity (i : nat) :
  grid (insert g entity) !! i
  = (λ bucket,
       if decide (getCellIndex g (ent_x entity) (ent_y entity) = Z.of_nat i)
       then JsArray.push bucket entity else bucket) <$> grid g !! i.
Proof.
  unfold SpatialGrid.insert.
  destruct (index_in_grid g _) eqn:Hin.
  - apply index_in_grid_true in Hin. cbn [grid].
    destruct (decide (getCellIndex g (ent_x entity) (ent_y entity)
                      = Z.of_nat i)) as [Hi|Hi].
    + rewrite Hi, Nat2Z.id, list_lookup_alter_eq.
      by destruct (grid g !! i).
    + rewrite list_lookup_alter_ne by lia. by destruct (grid g !! i).
  - destruct (grid g !! i) as [bucket|] eqn:Hb; [|done]. cbn.
    rewrite decide_False; [done|]. intros Hi.
    apply lookup_lt_Some in Hb.
    assert (index_in_grid g
              (getCellIndex g (ent_x entity) (ent_y entity)) = true)
      by (apply index_in_grid_true; lia).
    congruence.
Qed.

Lemma inserts_bucket (g : t E) entities (i : nat) :
  grid (foldl insert g entities) !! i
  = (λ bucket,
       bucket
       ++ filter (λ entity,
                    getCellIndex g (ent_x entity) (ent_y entity)
                    = Z.of_nat i) entities) <$> grid g !! i.
Proof.
  revert g. induction entities as [|entity entities IH]; intros g.
  - cbn [foldl]. destruct (grid g !! i); [|done]. cbn.
    by rewrite app_nil_r.
  - cbn [foldl]. rewrite IH, insert_bucket.
    destruct (grid g !! i) as [bucket|]; [|done].
    cbn [fmap option_fmap option_map]. f_equal.
    assert (filter (λ e, getCellIndex (insert g entity) (ent_x e) (ent_y e)
                         = Z.of_nat i) entities
            = filter (λ e, getCellIndex g (ent_x e) (ent_y e) = Z.of_nat i)
                entities) as ->.
    { apply list_filter_iff. intros e.
      by destruct (insert_same_index g entity (ent_x e) (ent_y e))
        as [-> _]. }
    destruct (decide (getCellIndex g (ent_x entity) (ent_y entity)
                      = Z.of_nat i)) as [Hi|Hi].
    + rewrite filter_cons_True by done. unfold JsArray.push.
      by rewrite <- (assoc_L (++)).
    + by rewrite filter_cons_False.
Qed.

(** X8. The grid holds one reference for each entity whose flat cell
    index is in range, and none for the others: after [clear] and a
    sequence of [insert] calls, the bucket of every index holds exactly
    the inserted entities that have this flat cell index, once for each
    insertion and in the order of the insertions, so that the buckets
    hold together as many references as there were entities with an
    index in range. *)
Theorem grid_holds_one_reference_per_entity (g : t E) (entities : list E) :
  let g' := foldl insert (clear g) entities in
  length (grid g') = length (grid g)
  ∧ (∀ (i : nat) bucket,
       grid g' !! i = Some bucket →
       bucket = filter (λ entity,
                          getCellIndex g (ent_x entity) (ent_y entity)
                          = Z.of_nat i) entities)
  ∧ length (concat (grid g'))
    = length (filter (λ entity,
                        index_in_grid g (getCellIndex g (ent_x entity)
                                                        (ent_y entity)))
                     entities).
Proof.
  intros g'. subst g'. split; [|split].
  - assert (∀ (g0 : t E) es,
              length (grid (foldl insert g0 es)) = length (grid g0)) as Hlen.
    { intros g0 es. revert g0. induction es as [|e es IH]; intros g0;
        [done|].
      cbn [foldl]. rewrite IH. unfold SpatialGrid.insert.
      destruct (index_in_grid g0 _); [|done]. cbn [grid].
      by rewrite length_alter. }
    rewrite Hlen. unfold clear. cbn [grid]. by rewrite length_replicate.
  - intros i bucket Hb. rewrite inserts_bucket in Hb.
    destruct (grid (clear g) !! i) as [b0|] eqn:Hb0; [|done].
    unfold clear in Hb0. cbn [grid] in Hb0.
    apply lookup_replicate in Hb0 as [-> _].
    cbn [fmap option_fmap option_map app] in Hb.
    by injection Hb as <-.
  - rewrite (inserts_count
               (λ entity, index_in_grid g (getCellIndex g (ent_x entity)
                                                          (ent_y entity)))).
    + unfold clear. cbn [grid].
      assert (∀ n, concat (replicate n (@nil E)) = []) as ->; [|done].
      induction n; [done|]. by simpl.
    + intros entity. unfold index_in_grid, clear, getCellIndex. cbn.
      by rewrite length_replicate.
Qed.
End GridCount.

Example grid_counts_references :
  length (concat (SpatialGrid.grid
                    (foldl (SpatialGrid.insert fst snd)
                       (SpatialGrid.clear game_grid)
                       [(120, 75)%Q; (100, -5)%Q; (-10, 100)%Q])))
  = 2.
Proof. by vm_compute. Qed.

(** ** Player: how far one update moves *)

Section PlayerMotion.
Local Open Scope Q_scope.

Lemma clamp_cases (lo hi v : Q) :
  lo <= hi →
  (v < lo ∧ Qmax lo (Qmin hi v) == lo)
  ∨ (lo <= v ∧ v <= hi ∧ Qmax lo (Qmin hi v) == v)
  ∨ (hi < v ∧ Qmax lo (Qmin hi v) == hi).
Proof.
  intros Hle.
  destruct (Q.min_spec hi v) as [[H1 Hmin]|[H1 Hmin]];
    destruct (Q.max_spec lo (Qmin hi v)) as [[H2 Hmax]|[H2 Hmax]];
    rewrite Hmin in *; rewrite Hmax.
  - right. right. split; [done|reflexivity].
  - right. right. split; [done|]. lra.
  - right. left. split; [lra|]. split; [done|reflexivity].
  - destruct (Qlt_le_dec v lo) as [Hv|Hv].
    + left. split; [done|reflexivity].
    + right. left. split; [done|]. split; [done|]. lra.
Qed.


(** X10. With keyboard control, a player inside the play field moves
    by at most its speed in one update and stops at the walls: with no
    arrow key held it stays, with the left key alone it goes to
    [max(0, x - speed)], with the right key alone to
    [min(canvasWidth - width, x + speed)]. *)
Theorem keyboard_control_steps (keys : gset string) (canvasWidth : Q)
    (p : Player.t) :
  0 <= Player.speed p →
  0 <= Player.x p → Player.x p <= canvasWidth - Player.width p →
  let p' := Player.update keys canvasWidth None false p in
  Player.x p - Player.speed p <= Player.x p'
  ∧ Player.x p' <= Player.x p + Player.speed p
  ∧ ("ArrowLeft" ∉ keys → "ArrowRight" ∉ keys → Player.x p' == Player.x p)
  ∧ ("ArrowLeft" ∈ keys → "ArrowRight" ∉ keys →
     Player.x p' == Qmax 0 (Player.x p - Player.speed p))
  ∧ ("ArrowLeft" ∉ keys → "ArrowRight" ∈ keys →
     Player.x p'
     == Qmin (canvasWidth - Player.width p) (Player.x p + Player.speed p)).
Proof.
  intros Hs Hx0 Hx1 p'. subst p'. unfold Player.update.
  destruct p as [x y width height speed flags multiplier animation].
  cbn [Player.set_x Player.set_thrusterAnimation Player.x Player.width
       Player.speed] in *.
  assert (0 <= canvasWidth - width) as Hhi by lra.
  pose proof (Q.max_spec 0 (x - speed)) as Hmax.
  pose proof (Q.min_spec (canvasWidth - width) (x + speed)) as Hmin.
  destruct (bool_decide ("ArrowLeft" ∈ keys)) eqn:Hl;
    [apply bool_decide_eq_true in Hl|apply bool_decide_eq_false in Hl];
    (destruct (Qgtb x 0) eqn:Hgt;
      [apply Qltb_lt in Hgt
      |apply not_true_iff_false in Hgt; unfold Qgtb in Hgt;
       rewrite Qltb_lt in Hgt; apply Qnot_lt_le in Hgt]);
    cbn [andb Player.set_x Player.set_thrusterAnimation Player.x Player.width
         Player.speed] in *;
    (destruct (bool_decide ("ArrowRight" ∈ keys)) eqn:Hr;
      [apply bool_decide_eq_true in Hr|apply bool_decide_eq_false in Hr]);
    cbn [andb Player.set_x Player.set_thrusterAnimation Player.x Player.width
         Player.speed] in *;
    try (match goal with
         | |- context [Qltb ?a ?b] =>
             destruct (Qltb a b) eqn:Hlt;
             [apply Qltb_lt in Hlt
             |apply not_true_iff_false in Hlt;
              rewrite Qltb_lt in Hlt; apply Qnot_lt_le in Hlt]
         end);
    cbn [andb Player.set_x Player.set_thrusterAnimation Player.x Player.width
         Player.speed] in *;
    match goal with
    | |- context [Qmax 0 (Qmin ?hi ?v)] =>
        destruct (clamp_cases 0 hi v Hhi) as [[? Hc]|[(? & ? & Hc)|[? Hc]]];
        rewrite Hc
    end;
    repeat split; intros; try done; try tauto;
    destruct Hmax as [[? Hmax]|[? Hmax]];
    destruct Hmin as [[? Hmin]|[? Hmin]];
    try rewrite Hmax; try rewrite Hmin; lra.
Qed.
End PlayerMotion.


Lemma keyboard_control_steps_witness :
  (Player.x (Player.update {["ArrowLeft"]} 800 None false
               (Player.constructor 3 550))
   == Qmax 0 (3 - 5))%Q.
Proof.
  apply (keyboard_control_steps {["ArrowLeft"]} 800
           (Player.constructor 3 550)); by vm_compute.
Defined.

(** ** Bullet: the path of a bullet *)

Section BulletMotion.
Import Bullet.
Local Open Scope Q_scope.




End BulletMotion.


Example bullet_after_three_updates :
  (Bullet.y (Bullet.updates (replicate 3 (1, 0, 0)%Q)
               (Bullet.constructor 100 500 (-5) "#00ff00" true)) == 485)%Q.
Proof. by vm_compute. Qed.

(** ** The power-ups: the player properties, the shield, the counters *)

Section PowerUpEffects.
Import Game.
Local Open Scope Z_scope.

Lemma fired_swept now g k :
  swept now (timer (powerUps g) k)
  = if fired now g k
    then mkTimer false (expireTime (timer (powerUps g) k))
    else timer (powerUps g) k.
Proof. done. Qed.

(** What one entry of the sweep does to a property of the player. *)
Lemma sweep_flag now g key f :
  Player.flags (player (sweep now g key)) f
  = match key with
    | PowerUp.keyed k =>
        if bool_decide (flag_key f = Some k) && fired now g k
        then false else Player.flags (player g) f
    | _ => Player.flags (player g) f
    end.
Proof.
  destruct key as [| |k]; [done..|]. unfold sweep, fired.
  destruct (timer (powerUps g) k) as [a [e|]]; cbn [active expireTime passed];
    [|by rewrite !andb_false_r].
  destruct (a && (now >? e)); [|by rewrite andb_false_r].
  rewrite andb_true_r.
  destruct k, f; done.
Qed.

Lemma sweep_fired now g key k :
  key ≠ PowerUp.keyed k → fired now (sweep now g key) k = fired now g k.
Proof.
  intros Hne. unfold fired. rewrite sweep_timer. by rewrite decide_False.
Qed.

Lemma sweep_fold_flag now keys g f :
  NoDup keys →
  Player.flags (player (foldl (sweep now) g keys)) f
  = match flag_key f with
    | Some k =>
        if bool_decide (PowerUp.keyed k ∈ keys) && fired now g k
        then false else Player.flags (player g) f
    | None => Player.flags (player g) f
    end.
Proof.
  revert g. induction keys as [|key keys IH]; intros g Hnd.
  - cbn [foldl]. destruct (flag_key f); [|done].
    rewrite bool_decide_eq_false_2; [done|]. apply not_elem_of_nil.
  - apply NoDup_cons in Hnd as [Hkey Hnd]. cbn [foldl].
    rewrite IH by done. rewrite sweep_flag.
    destruct (flag_key f) as [k|] eqn:Hf.
    + destruct (decide (key = PowerUp.keyed k)) as [->|Hne].
      * rewrite (bool_decide_eq_false_2 (PowerUp.keyed k ∈ keys)) by done.
        rewrite (bool_decide_eq_true_2 (_ ∈ _ :: _)) by (apply elem_of_cons; by left).
        rewrite (bool_decide_eq_true_2 (Some k = Some k)) by done.
        done.
      * rewrite sweep_fired by done.
        assert (bool_decide (PowerUp.keyed k ∈ key :: keys)
                = bool_decide (PowerUp.keyed k ∈ keys)) as ->.
        { apply bool_decide_ext. rewrite elem_of_cons. naive_solver. }
        destruct (bool_decide (PowerUp.keyed k ∈ keys) && fired now g k);
          [done|].
        destruct key as [| |k']; [done..|].
        rewrite bool_decide_eq_false_2; [done|]. congruence.
    + destruct key as [| |k']; [done..|].
      by rewrite bool_decide_eq_false_2.
Qed.

Lemma entries_NoDup : NoDup entries.
Proof. apply NoDup_ListNoDup. repeat constructor; simpl; intuition discriminate. Qed.

(** One sweep, property by property. *)
Lemma updatePowerUpTimers_flag now g f :
  Player.flags (player (updatePowerUpTimers now g)) f
  = match flag_key f with
    | Some k => if fired now g k then false else Player.flags (player g) f
    | None => Player.flags (player g) f
    end.
Proof.
  unfold updatePowerUpTimers. rewrite sweep_fold_flag by apply entries_NoDup.
  destruct (flag_key f) as [k|]; [|done].
  rewrite bool_decide_eq_true_2; [done|].
  destruct k; apply list_elem_of_In; simpl; tauto.
Qed.
End PowerUpEffects.

Section PowerUpCollection.
Import Game.
Local Open Scope Z_scope.

Lemma applyPowerUp_timer_other type T g k :
  type ≠ PowerUp.keyed k →
  timer (powerUps (applyPowerUp type T g)) k = timer (powerUps g) k.
Proof.
  intros Hne. unfold applyPowerUp.
  destruct type as [| |k']; [done..|].
  assert (k ≠ k') as Hk by congruence.
  destruct k'; cbn; by rewrite decide_False.
Qed.

Lemma applyPowerUp_flag_kept type T g f :
  Player.flags (player g) f = true →
  Player.flags (player (applyPowerUp type T g)) f = true.
Proof.
  intros Hf. unfold applyPowerUp.
  destruct type as [| |k]; [done..|].
  destruct k; cbn; try done; by case_decide.
Qed.

Lemma applyPowerUp_flag_set k D score' T g f :
  GAME_CONFIG_powerUps (PowerUp.keyed k) = Timed D score' →
  flag_key f = Some k →
  Player.flags (player (applyPowerUp (PowerUp.keyed k) T g)) f = true.
Proof.
  intros Hcfg Hf. unfold applyPowerUp.
  destruct k; try discriminate Hcfg; destruct f; try discriminate Hf; done.
Qed.

Lemma not_fired_before now T D g k :
  timer (powerUps g) k = mkTimer true (At (T + D)) →
  now ≤ T + D → fired now g k = false.
Proof.
  intros Htm Hnow. unfold fired. rewrite Htm. cbn.
  rewrite Z.gtb_ltb. by apply Z.ltb_ge.
Qed.

Lemma sweeps_keep_flag times T D g k f :
  Forall (λ now, now ≤ T + D) times →
  flag_key f = Some k →
  timer (powerUps g) k = mkTimer true (At (T + D)) →
  Player.flags (player g) f = true →
  Player.flags (player (sweeps times g)) f = true.
Proof.
  revert g. induction times as [|now times IH]; intros g Htimes Hf Htm Hflag;
    [done|].
  apply Forall_cons in Htimes as [Hnow Htimes].
  rewrite sweeps_cons. apply IH; [done..| |].
  - rewrite updatePowerUpTimers_timer, fired_swept.
    by rewrite (not_fired_before now T D g k Htm Hnow).
  - rewrite updatePowerUpTimers_flag, Hf.
    by rewrite (not_fired_before now T D g k Htm Hnow).
Qed.

(** X12. The player property of a timed power-up follows its record:
    collecting the power-up at time [T] sets the property, the sweeps
    that run up to [T + D] leave it set, and the sweep that switches the
    record off, at a time after [T + D], clears it. *)
Theorem player_flag_follows_powerup (k : PowerUp.key) (f : Flag)
    (D score' T T' : Z) (times : list Z) (g : Game.t) :
  GAME_CONFIG_powerUps (PowerUp.keyed k) = Timed D score' →
  flag_key f = Some k →
  Forall (λ now, now ≤ T + D) times →
  T + D < T' →
  let g1 := sweeps times (applyPowerUp (PowerUp.keyed k) T g) in
  Player.flags (player g1) f = true
  ∧ Player.flags (player (updatePowerUpTimers T' g1)) f = false.
Proof.
  intros Hcfg Hf Htimes Hlate g1.
  assert (timer (powerUps g1) k = mkTimer true (At (T + D))) as Htm.
  { apply sweeps_keep_active; [done|]. by eapply applyPowerUp_timed. }
  split.
  - eapply sweeps_keep_flag; [done..| |].
    + by eapply applyPowerUp_timed.
    + by eapply applyPowerUp_flag_set.
  - rewrite updatePowerUpTimers_flag, Hf. unfold fired. rewrite Htm. cbn.
    rewrite Z.gtb_ltb. by rewrite (proj2 (Z.ltb_lt _ _) Hlate).
Qed.

Lemma shield_kept_by_event e g :
  timer (powerUps g) PowerUp.shield = mkTimer true Infinity →
  Player.flags (player g) shield = true →
  timer (powerUps (powerUp_event g e)) PowerUp.shield = mkTimer true Infinity
  ∧ Player.flags (player (powerUp_event g e)) shield = true.
Proof.
  intros Htm Hflag. destruct e as [type now|now]; cbn [powerUp_event].
  - split; [|by apply applyPowerUp_flag_kept].
    destruct (decide (type = PowerUp.keyed PowerUp.shield)) as [->|Hne].
    + done.
    + by rewrite applyPowerUp_timer_other.
  - split.
    + by rewrite updatePowerUpTimers_timer, Htm.
    + rewrite updatePowerUpTimers_flag. cbn [flag_key]. unfold fired.
      by rewrite Htm.
Qed.

(** X13. The shield is permanent: once it is collected, no expiration
    sweep and no collection of any power-up, in any order and at any
    times, switches its record off, gives it an expiry time or clears
    the property of the player. *)
Theorem shield_survives_timers (T : Z) (es : list PowerUpEvent) (g : Game.t) :
  let g' := powerUp_events es (applyPowerUp (PowerUp.keyed PowerUp.shield) T g) in
  timer (powerUps g') PowerUp.shield = mkTimer true Infinity
  ∧ Player.flags (player g') shield = true.
Proof.
  intros g'. subst g'.
  assert (timer (powerUps (applyPowerUp (PowerUp.keyed PowerUp.shield) T g))
            PowerUp.shield = mkTimer true Infinity
          ∧ Player.flags
              (player (applyPowerUp (PowerUp.keyed PowerUp.shield) T g))
              shield = true) as Hstart by done.
  revert Hstart.
  generalize (applyPowerUp (PowerUp.keyed PowerUp.shield) T g). intros g0.
  revert g0. induction es as [|e es IH]; intros g0 [Htm Hflag]; [done|].
  unfold powerUp_events. cbn [foldl]. apply IH.
  by apply shield_kept_by_event.
Qed.

(** X14. Collecting a timed power-up restarts its timer: whatever the
    record held, it is active afterwards and expires [D] after the time
    of the collection, so the time left of an earlier collection is not
    added. The records of the other keys are not touched. *)
Theorem collect_restarts_timer (k : PowerUp.key) (D score' T : Z)
    (g : Game.t) :
  GAME_CONFIG_powerUps (PowerUp.keyed k) = Timed D score' →
  timer (powerUps (applyPowerUp (PowerUp.keyed k) T g)) k
  = mkTimer true (At (T + D))
  ∧ ∀ k', k' ≠ k →
      timer (powerUps (applyPowerUp (PowerUp.keyed k) T g)) k'
      = timer (powerUps g) k'.
Proof.
  intros Hcfg. split; [by eapply applyPowerUp_timed|].
  intros k' Hne. apply applyPowerUp_timer_other. congruence.
Qed.

(** X15. Every collection scores the configured points. Only ['life']
    changes the lives, adding one up to the cap of five, and only
    ['bomb'] adds a bomb, which is ready at once. *)
Theorem collect_scores_lives_bombs (type : PowerUp.type) (T : Z) (g : Game.t) :
  let g' := applyPowerUp type T g in
  score g' = (score g + inject_Z (config_score (GAME_CONFIG_powerUps type)))%Q
  ∧ lives g' = (if decide (type = PowerUp.life)
                then Z.min (lives g + 1) 5 else lives g)
  ∧ bomb_count (powerUps g')
    = (if decide (type = PowerUp.bomb)
       then S (bomb_count (powerUps g)) else bomb_count (powerUps g))
  ∧ (type = PowerUp.bomb → bomb_ready (powerUps g') = true).
Proof.
  unfold applyPowerUp. destruct type as [| |k]; [done..|].
  destruct k; done.
Qed.
End PowerUpCollection.

Lemma player_flag_follows_powerup_witness :
  Player.flags
    (Game.player
       (sweeps [1016; 6000]%Z
          (Game.applyPowerUp (PowerUp.keyed PowerUp.rapidFire) 1000
             game_start)))
    rapidFire
  = true.
Proof.
  apply (player_flag_follows_powerup PowerUp.rapidFire rapidFire
           5000 100 1000 6001 [1016; 6000]%Z game_start).
  - reflexivity.
  - reflexivity.
  - repeat constructor; lia.
  - lia.
Defined.

Lemma collect_restarts_timer_witness :
  Game.timer
    (Game.powerUps
       (Game.applyPowerUp (PowerUp.keyed PowerUp.laser) 3000
          (Game.applyPowerUp (PowerUp.keyed PowerUp.laser) 1000 game_start)))
    PowerUp.laser
  = Game.mkTimer true (Game.At (3000 + 2500)).
Proof.
  apply (collect_restarts_timer PowerUp.laser 2500 150 3000). reflexivity.
Defined.

Section ScoreMultiplier.
Import Game.

Lemma sweep_multiplier_value now g key :
  multiplier_value (powerUps g) = 1%Q →
  multiplier_value (powerUps (sweep now g key)) = 1%Q.
Proof.
  intros Hone. destruct key as [| |k]; [done..|]. unfold sweep.
  destruct (timer (powerUps g) k) as [a [e|]]; cbn [active expireTime];
    [|done].
  destruct (a && (now >? e)%Z); [|done].
  destruct k; done.
Qed.

Lemma updatePowerUpTimers_multiplier_value now g :
  multiplier_value (powerUps g) = 1%Q →
  multiplier_value (powerUps (updatePowerUpTimers now g)) = 1%Q.
Proof.
  unfold updatePowerUpTimers. generalize entries. intros keys. revert g.
  induction keys as [|key keys IH]; intros g Hone; [done|].
  cbn [foldl]. by apply IH, sweep_multiplier_value.
Qed.

Lemma applyPowerUp_multiplier_value type T g :
  multiplier_value (powerUps (applyPowerUp type T g))
  = multiplier_value (powerUps g).
Proof.
  unfold applyPowerUp. destruct type as [| |k]; [done..|]. by destruct k.
Qed.

(** X16. The multiplier power-up never reaches the score of a kill:
    collecting it sets [player.pointsMultiplier] to 2, and
    [powerUps.multiplier.value], the factor that the collision code
    reads, stays 1 through every collection and every sweep. *)
Theorem multiplier_value_stays_one (es : list PowerUpEvent) (T : Z)
    (g : Game.t) :
  multiplier_value (powerUps g) = 1%Q →
  multiplier_value (powerUps (powerUp_events es g)) = 1%Q
  ∧ Player.pointsMultiplier
      (player (applyPowerUp (PowerUp.keyed PowerUp.multiplier) T
                 (powerUp_events es g)))
    = 2%Q
  ∧ multiplier_value
      (powerUps (applyPowerUp (PowerUp.keyed PowerUp.multiplier) T
                   (powerUp_events es g)))
    = 1%Q.
Proof.
  intros Hone.
  assert (multiplier_value (powerUps (powerUp_events es g)) = 1%Q) as Hes.
  { revert g Hone. induction es as [|e es IH]; intros g Hone; [done|].
    unfold powerUp_events. cbn [foldl]. apply IH.
    destruct e as [type now|now]; cbn [powerUp_event].
    - by rewrite applyPowerUp_multiplier_value.
    - by apply updatePowerUpTimers_multiplier_value. }
  split; [done|]. split; [done|].
  by rewrite applyPowerUp_multiplier_value.
Qed.
End ScoreMultiplier.

Lemma multiplier_value_stays_one_witness :
  Game.multiplier_value
    (Game.powerUps
       (powerUp_events
          [Collect (PowerUp.keyed PowerUp.multiplier) 1000; Sweep 1016;
           Sweep 20000]
          game_start))
  = 1%Q.
Proof.
  apply (multiplier_value_stays_one
           [Collect (PowerUp.keyed PowerUp.multiplier) 1000; Sweep 1016;
            Sweep 20000] 0 game_start).
  reflexivity.
Defined.

(** ** The grid as a filter for the collision test *)

Section GridNear.
Import SpatialGrid.
Context {E : Type} (ent_x ent_y : E → Q).

Local Abbreviation insert := (SpatialGrid.insert ent_x ent_y).

Local Open Scope Z_scope.

(** On a grid laid out for a [width] by [height] field, an entity
    inserted inside the field is returned by the queries at most one
    cell size away, whatever is inserted afterwards. *)
Lemma inserted_is_near (g : t E) (width height size : Q) (entity : E)
    (later : list E) (x y : Q) :
  grid_inv width height size g →
  (0 < size)%Q →
  (0 <= ent_x entity)%Q → (ent_x entity < width)%Q →
  (0 <= ent_y entity)%Q → (ent_y entity < height)%Q →
  (x <= ent_x entity + size)%Q → (ent_x entity <= x + size)%Q →
  (y <= ent_y entity + size)%Q → (ent_y entity <= y + size)%Q →
  entity ∈ getNearbyEntities (foldl insert (insert g entity) later) x y.
Proof.
  intros Hinv Hc Hx0 Hxw Hy0 Hyh Hx1 Hx2 Hy1 Hy2.
  pose proof Hinv as (Hcs & Hcols & Hrows & Hlen).
  pose proof (Qfloor_div_nonneg _ _ Hc Hx0) as Hcol0.
  pose proof (Qfloor_div_lt_ceiling _ _ _ Hc Hxw) as Hcol1.
  pose proof (Qfloor_div_nonneg _ _ Hc Hy0) as Hrow0.
  pose proof (Qfloor_div_lt_ceiling _ _ _ Hc Hyh) as Hrow1.
  assert (index_in_grid g (getCellIndex g (ent_x entity) (ent_y entity))
          = true) as Hin.
  { apply index_in_grid_true. unfold getCellIndex.
    rewrite Hlen, Hcs, Hcols, Hrows. nia. }
  set (g2 := foldl insert (insert g entity) later).
  assert (stored g2 (getCellIndex g (ent_x entity) (ent_y entity)) entity)
    as Hstored by apply inserts_keep, insert_stores, Hin.
  assert (grid_inv width height size g2) as (Hcs2 & Hcols2 & Hrows2 & Hlen2)
    by apply inserts_inv, insert_inv, Hinv.
  pose proof (Qfloor_div_near x (ent_x entity) size Hc Hx1) as Hc1.
  pose proof (Qfloor_div_near (ent_x entity) x size Hc Hx2) as Hc2.
  pose proof (Qfloor_div_near y (ent_y entity) size Hc Hy1) as Hr1.
  pose proof (Qfloor_div_near (ent_y entity) y size Hc Hy2) as Hr2.
  unfold getCellIndex in Hstored, Hin. rewrite Hcs, Hcols in Hstored, Hin.
  assert ((Qfloor (y / cellSize g2)
           + (Qfloor (ent_y entity / size) - Qfloor (y / size))) * cols g2
          + (Qfloor (x / cellSize g2)
             + (Qfloor (ent_x entity / size) - Qfloor (x / size)))
          = Qfloor (ent_y entity / size) * Qceiling (width / size)
            + Qfloor (ent_x entity / size)) as Hindex
    by (rewrite Hcs2, Hcols2; lia).
  apply (nearby_contains g2 x y
           (Qfloor (ent_y entity / size) - Qfloor (y / size))
           (Qfloor (ent_x entity / size) - Qfloor (x / size))).
  - apply neighbourhood_covers; lia.
  - rewrite Hindex. apply index_in_grid_true.
    apply index_in_grid_true in Hin.
    rewrite Hlen2, Hcols2, Hrows2. rewrite Hlen, Hcols, Hrows in Hin. done.
  - by rewrite Hindex.
Qed.
End GridNear.

Section GridFilter.
Import Game.
Local Open Scope Q_scope.

(** X17. The grid does not hide a hit. When the grid is laid out for
    the field with cells at least as wide and as high as the aliens and
    the bullets, every alien of [this.aliens] that is inside the field
    and overlaps the bullet is among the candidates that the query at
    the bullet returns after the grid is rebuilt; so the loop of that
    bullet resolves a hit. *)
Theorem colliding_alien_is_candidate (velocity : ref → nat → Q * Q)
    (chances : ref → Chance) (g : Game.t) (width height size : Q)
    (bullet alien : ref) :
  grid_inv width height size (spatialGrid g) →
  0 < size →
  alien ∈ aliens g →
  0 <= rect_x (rect_of (heap g) alien) →
  rect_x (rect_of (heap g) alien) < width →
  0 <= rect_y (rect_of (heap g) alien) →
  rect_y (rect_of (heap g) alien) < height →
  rect_width (rect_of (heap g) alien) <= size →
  rect_height (rect_of (heap g) alien) <= size →
  rect_width (rect_of (heap g) bullet) <= size →
  rect_height (rect_of (heap g) bullet) <= size →
  collision (rect_of (heap g) bullet) (rect_of (heap g) alien) = true →
  let g' := rebuildGrid g in
  alien ∈ SpatialGrid.getNearbyEntities (spatialGrid g')
            (rect_x (rect_of (heap g') bullet))
            (rect_y (rect_of (heap g') bullet))
  ∧ ∃ target, hits g' bullet target = true
              ∧ bulletVsAliens velocity chances g' bullet
                = resolve (velocity bullet) (chances bullet) bullet target
                    g'.
Proof.
  intros Hinv Hc Halien Hx0 Hxw Hy0 Hyh Hwa Hha Hwb Hhb Hcol g'.
  assert (alien ∈ SpatialGrid.getNearbyEntities (spatialGrid g')
            (rect_x (rect_of (heap g') bullet))
            (rect_y (rect_of (heap g') bullet))) as Hnear.
  { subst g'. unfold rebuildGrid. cbn [spatialGrid heap set_spatialGrid].
    rewrite <- !foldl_app.
    apply list_elem_of_split in Halien as (before & after & Haliens).
    rewrite Haliens, <- !app_assoc. cbn [app].
    rewrite foldl_app. cbn [foldl].
    apply collision_true in Hcol as (H1 & H2 & H3 & H4).
    eapply (inserted_is_near _ _ _ width height size); try done; try lra.
    by apply inserts_inv, clear_inv. }
  split; [done|].
  assert (hits g' bullet alien = true) as Hhit.
  { unfold hits. subst g'. cbn [aliens heap rebuildGrid set_spatialGrid].
    rewrite Hcol, andb_true_r. by apply bool_decide_eq_true. }
  rewrite bulletVsAliens_first_hit.
  destruct (last (filter _ _)) as [target|] eqn:Hlast.
  - exists target. split; [|done].
    apply last_Some in Hlast as [l' Hl'].
    assert (target ∈ filter (λ a, hits g' bullet a)
              (SpatialGrid.getNearbyEntities (spatialGrid g')
                 (rect_x (rect_of (heap g') bullet))
                 (rect_y (rect_of (heap g') bullet)))) as Hin
      by (rewrite Hl'; apply elem_of_app; right; by left).
    apply list_elem_of_filter in Hin as [Ht _]. by apply Is_true_true.
  - apply last_None in Hlast.
    assert (alien ∈ filter (λ a, hits g' bullet a)
              (SpatialGrid.getNearbyEntities (spatialGrid g')
                 (rect_x (rect_of (heap g') bullet))
                 (rect_y (rect_of (heap g') bullet)))) as Hin
      by (apply list_elem_of_filter; split; [by rewrite Hhit|done]).
    rewrite Hlast in Hin. by apply elem_of_nil in Hin.
Qed.
End GridFilter.

Lemma colliding_alien_is_candidate_witness :
  1 ∈ SpatialGrid.getNearbyEntities
        (Game.spatialGrid (Game.rebuildGrid two_aliens_one_bullet))
        (rect_x (rect_of (Game.heap (Game.rebuildGrid two_aliens_one_bullet)) 2))
        (rect_y (rect_of (Game.heap (Game.rebuildGrid two_aliens_one_bullet)) 2)).
Proof.
  apply (colliding_alien_is_candidate (λ _ _, (0, 0)%Q) (λ _, no_drop)
           two_aliens_one_bullet 800 600 50 2 1); try by vm_compute.
  apply elem_of_cons. right. apply elem_of_cons. by left.
Defined.

(** ** What a hit does *)

Section HitProperties.
Import Game.
Local Open Scope Q_scope.

Lemma bullets_release_inactive obj g :
  obj ∉ ObjectPool.active (pools_bullets (bullets_release obj g)).
Proof.
  unfold bullets_release, ObjectPool.release.
  destruct (JsSet.has _ obj) eqn:Hhas; cbn.
  - rewrite elem_of_delete. tauto.
  - by apply has_false.
Qed.

Lemma bullets_release_frame obj g :
  score (bullets_release obj g) = score g
  ∧ powerUps (bullets_release obj g) = powerUps g
  ∧ aliens (bullets_release obj g) = aliens g
  ∧ ∀ r, r ≠ obj → heap (bullets_release obj g) !! r = heap g !! r.
Proof.
  unfold bullets_release, ObjectPool.release.
  destruct (JsSet.has _ obj); cbn; [|done].
  repeat split; try done. intros r Hne. unfold ObjectPool.call_resetFn.
  by rewrite list_lookup_alter_ne.
Qed.

Lemma bullets_get_frame g :
  score (bullets_get g).2 = score g
  ∧ powerUps (bullets_get g).2 = powerUps g.
Proof.
  unfold bullets_get.
  by destruct (ObjectPool.get _ _) as [obj [heap' pool']].
Qed.

Lemma createSplitBullets_frame velocity x y g :
  score (createSplitBullets velocity x y g) = score g
  ∧ powerUps (createSplitBullets velocity x y g) = powerUps g.
Proof.
  unfold createSplitBullets. cbn [emit score powerUps].
  generalize (seq 0 (if active (timer (powerUps g) PowerUp.quadShot)
                     then 3 else 4))%nat.
  intros l. revert g. induction l as [|i l IH]; intros g; [done|].
  cbn [foldl]. destruct (IH
    (let '(speedX, speedY) := velocity i in
     let '(bullet, g0) := bullets_get g in
     emit (SplitParticles x y)
       (set_heap g0
          (alter (on_bullet (λ b,
                    Bullet.set_speedX
                      (Bullet.reset x y speedY "#ff88cc" true b) speedX))
                 bullet (heap g0))))) as [-> ->].
  destruct (velocity i) as [speedX speedY].
  destruct (bullets_get_frame g) as [Hs Hp].
  by destruct (bullets_get g) as [bullet g1].
Qed.

(** X18. A hit on a shielded alien whose shield strength is above 1
    takes one off the strength and nothing else off the alien: it stays
    in [this.aliens], the score stays, and the bullet is released, also
    when it is a piercing one. *)
Theorem shield_absorbs_hit (velocity : nat → Q * Q) (chance : Chance)
    (bullet alien : ref) (b : Bullet.t) (a : Alien.t) (g : Game.t) :
  heap g !! bullet = Some (OBullet b) →
  heap g !! alien = Some (OAlien a) →
  Alien.type_ a = Alien.shielded →
  (1 < Alien.shieldStrength a)%Z →
  let g' := resolve velocity chance bullet alien g in
  aliens g' = aliens g
  ∧ score g' = score g
  ∧ heap g' !! alien
    = Some (OAlien (Alien.set_shieldStrength a (Alien.shieldStrength a - 1)))
  ∧ bullet ∉ ObjectPool.active (pools_bullets g').
Proof.
  intros Hb Ha Htype Hstrong g'. subst g'. unfold resolve.
  rewrite Hb, Ha, Htype.
  rewrite bool_decide_eq_true_2 by done.
  rewrite (proj2 (Z.gtb_lt _ _)) by lia. cbn [andb emit aliens score heap
    pools_bullets].
  assert (alien ≠ bullet) as Hne by (intros ->; congruence).
  match goal with
  | |- context [createExplosion ?c ?x ?y ?g1] =>
      destruct (createExplosion_frame c x y g1)
        as (-> & _ & _ & _ & _ & -> & -> & _ & _ & Hitems)
  end.
  match goal with
  | |- context [bullets_release bullet ?g1] =>
      destruct (bullets_release_frame bullet g1) as (-> & _ & -> & Hheap);
      pose proof (bullets_release_inactive bullet g1)
  end.
  cbn [set_heap score aliens].
  split; [done|]. split; [done|]. split; [|done].
  apply Hitems; [done|]. rewrite Hheap by done. cbn [set_heap heap].
  unfold ref in *. by rewrite list_lookup_alter_eq, Ha.
Qed.

(** X19. A hit on an alien without such a shield is a kill: the first
    entry of [this.aliens] that is this alien is spliced out and the
    others stay in their order, and the score grows by
    [(4 - row) * 10], times 1.5 for a shooter and 2 for a shielded
    alien, times [multiplier.value] while the multiplier is active. *)
Theorem kill_removes_alien_and_scores (velocity : nat → Q * Q)
    (chance : Chance) (bullet alien : ref) (b : Bullet.t) (a : Alien.t)
    (g : Game.t) :
  heap g !! bullet = Some (OBullet b) →
  heap g !! alien = Some (OAlien a) →
  Alien.type_ a ≠ Alien.shielded ∨ (Alien.shieldStrength a <= 1)%Z →
  alien ∈ aliens g →
  let g' := resolve velocity chance bullet alien g in
  (∃ i, aliens g !! i = Some alien
        ∧ (∀ j, (j < i)%nat → aliens g !! j ≠ Some alien)
        ∧ aliens g' = delete i (aliens g))
  ∧ score g'
    == score g
       + (4 - inject_Z (Alien.row a)) * 10 * type_factor (Alien.type_ a)
         * (if active (timer (powerUps g) PowerUp.multiplier)
            then multiplier_value (powerUps g) else 1).
Proof.
  intros Hb Ha Hweak Halien g'. subst g'. unfold resolve.
  rewrite Hb, Ha.
  assert (bool_decide (Alien.type_ a = Alien.shielded)
          && (Alien.shieldStrength a >? 1)%Z = false) as ->.
  { apply andb_false_iff. destruct Hweak as [Ht|Hs].
    - left. by apply bool_decide_eq_false.
    - right. rewrite Z.gtb_ltb. by apply Z.ltb_ge. }
  cbn [emit set_score aliens score].
  destruct (createExplosion_frame chance (Alien.x a + Alien.width a / 2)
              (Alien.y a + Alien.height a / 2) g)
    as (Hes & _ & _ & _ & Hep & Hea & _).
  set (ge := createExplosion chance (Alien.x a + Alien.width a / 2)
               (Alien.y a + Alien.height a / 2) g) in *.
  match goal with
  | |- context [list_find _ (aliens ?g1)] =>
      assert (aliens g1 = aliens g ∧ score g1 = score g
              ∧ powerUps g1 = powerUps g) as (Hal & Hsc & Hpu)
  end.
  { destruct (Bullet.flags b splitShot).
    { destruct (bullets_release_frame bullet
                  (createSplitBullets velocity (Bullet.x b) (Bullet.y b) ge))
        as (-> & -> & -> & _).
      rewrite createSplitBullets_aliens.
      by destruct (createSplitBullets_frame velocity (Bullet.x b) (Bullet.y b)
                     ge) as (-> & ->). }
    destruct (Bullet.flags b diamondShot); [done|].
    destruct (Bullet.flags b chainLightning);
      match goal with
      | |- context [bullets_release bullet ?g1] =>
          by destruct (bullets_release_frame bullet g1) as (-> & -> & -> & _)
      end. }
  rewrite Hal.
  destruct (list_find (λ r, r = alien) (aliens g)) as [[i r]|] eqn:Hfind.
  - apply list_find_Some in Hfind as (Hi & -> & Hfirst).
    cbn [set_aliens aliens score powerUps]. rewrite Hsc, Hpu. split.
    + exists i. split; [done|]. split; [|done].
      intros j Hj Hjl. by apply (Hfirst j alien Hjl Hj).
    + unfold type_factor. destruct (Alien.type_ a); ring.
  - exfalso. apply list_find_None in Hfind.
    by apply (proj1 (Forall_forall _ _) Hfind alien Halien).
Qed.

(** X20. Whether the bullet outlives a kill: a piercing bullet that is
    not a split bullet stays in the active set of its pool, every other
    bullet is released. *)
Theorem bullet_released_unless_piercing (velocity : nat → Q * Q)
    (chance : Chance) (bullet alien : ref) (b : Bullet.t) (a : Alien.t)
    (g : Game.t) :
  heap g !! bullet = Some (OBullet b) →
  heap g !! alien = Some (OAlien a) →
  Alien.type_ a ≠ Alien.shielded ∨ (Alien.shieldStrength a <= 1)%Z →
  let g' := resolve velocity chance bullet alien g in
  if negb (Bullet.flags b splitShot) && Bullet.flags b diamondShot
  then pools_bullets g' = pools_bullets g
  else bullet ∉ ObjectPool.active (pools_bullets g').
Proof.
  intros Hb Ha Hweak g'. subst g'. unfold resolve.
  rewrite Hb, Ha.
  assert (bool_decide (Alien.type_ a = Alien.shielded)
          && (Alien.shieldStrength a >? 1)%Z = false) as ->.
  { apply andb_false_iff. destruct Hweak as [Ht|Hs].
    - left. by apply bool_decide_eq_false.
    - right. rewrite Z.gtb_ltb. by apply Z.ltb_ge. }
  cbn [emit set_score pools_bullets].
  assert (∀ g1, pools_bullets
                  (match list_find (λ r, r = alien) (aliens g1) with
                   | Some (alienIndex, _) =>
                       set_aliens g1 (delete alienIndex (aliens g1))
                   | None => g1
                   end) = pools_bullets g1) as Hsplice
    by (intros g1; by destruct (list_find _ _) as [[? ?]|]).
  rewrite Hsplice.
  destruct (Bullet.flags b splitShot); cbn [negb andb];
    [apply bullets_release_inactive|].
  destruct (Bullet.flags b diamondShot);
    [apply createExplosion_frame|].
  destruct (Bullet.flags b chainLightning); apply bullets_release_inactive.
Qed.
End HitProperties.

Lemma shield_absorbs_hit_witness :
  Game.aliens
    (Game.resolve (λ _, (0, 0)%Q) drop_bomb 1%nat 0%nat one_shielded_alien)
  = Game.aliens one_shielded_alien.
Proof.
  apply (shield_absorbs_hit (λ _, (0, 0)%Q) drop_bomb 1%nat 0%nat
           green_bullet shielded_alien one_shielded_alien);
    [reflexivity..|by vm_compute].
Defined.

Lemma kill_removes_alien_and_scores_witness :
  (Game.score
     (Game.resolve (λ _, (0, 0)%Q) drop_bomb 2%nat 1%nat
        two_aliens_one_bullet)
   == Game.score two_aliens_one_bullet
      + (4 - inject_Z 1%Z) * 10 * type_factor Alien.normal
        * (if Game.active
                (Game.timer (Game.powerUps two_aliens_one_bullet)
                   PowerUp.multiplier)
           then Game.multiplier_value (Game.powerUps two_aliens_one_bullet)
           else 1))%Q.
Proof.
  apply (kill_removes_alien_and_scores (λ _, (0, 0)%Q) drop_bomb 2%nat
           1%nat
           (Bullet.mkBullet 110 95 (-5) 0 "#00ff00" (λ _, false) true [] 4 10)
           (Alien.mkAlien 100 90 1 40 30 Alien.normal 0)
           two_aliens_one_bullet); [reflexivity..| |].
  - left. discriminate.
  - cbn. apply elem_of_cons. right. apply elem_of_cons. by left.
Defined.

Lemma bullet_released_unless_piercing_witness :
  2%nat ∉ ObjectPool.active
        (Game.pools_bullets
           (Game.resolve (λ _, (0, 0)%Q) drop_bomb 2%nat 1%nat
              two_aliens_one_bullet)).
Proof.
  apply (bullet_released_unless_piercing (λ _, (0, 0)%Q) drop_bomb 2%nat
           1%nat
           (Bullet.mkBullet 110 95 (-5) 0 "#00ff00" (λ _, false) true [] 4 10)
           (Alien.mkAlien 100 90 1 40 30 Alien.normal 0)
           two_aliens_one_bullet); [reflexivity..|].
  left. discriminate.
Defined.

(** ** The bullets of the aliens against the player *)

Section PlayerHitProperties.
Import Game.

Lemma alienBullets_release_frame obj g :
  lives (alienBullets_release obj g) = lives g
  ∧ powerUps (alienBullets_release obj g) = powerUps g
  ∧ player (alienBullets_release obj g) = player g
  ∧ obj ∉ ObjectPool.active (pools_alienBullets (alienBullets_release obj g)).
Proof.
  unfold alienBullets_release, ObjectPool.release.
  destruct (JsSet.has _ obj) eqn:Hhas; cbn.
  - repeat split. rewrite elem_of_delete. tauto.
  - repeat split. by apply has_false.
Qed.



Lemma alienBulletVsPlayer_step now chance st bullet :
  let r := alienBulletVsPlayer now chance st bullet in
  (lives (r.1).1 = lives st.1 ∧ r.2 = false
   ∧ (active (timer (powerUps (r.1).1) PowerUp.shield) = true →
      active (timer (powerUps st.1) PowerUp.shield) = true))
  ∨ (lives (r.1).1 = (lives st.1 - 1)%Z
     ∧ active (timer (powerUps st.1) PowerUp.shield) = false
     ∧ active (timer (powerUps (r.1).1) PowerUp.shield) = false
     ∧ r.2 = (lives (r.1).1 <=? 0)%Z).
Proof.
  destruct st as [g shake]. intros r. subst r. unfold alienBulletVsPlayer.
  destruct (collision _ _); [|left; by cbn].
  destruct (alienBullets_release_frame bullet g) as (Hl & Hp & _ & _).
  rewrite Hp.
  destruct (active (timer (powerUps g) PowerUp.shield)) eqn:Hs;
    cbn [fst snd];
    match goal with
    | |- context [createExplosion ?c ?x ?y ?g1] =>
        destruct (createExplosion_frame c x y g1)
          as (_ & He1 & _ & _ & He3 & _);
        rewrite ?He1, ?He3; clear He1 He3
    end; cbn.
  - left. by rewrite Hl.
  - right. by rewrite Hl, Hp.
Qed.

Lemma alienBulletsLoop_lives now chances bullets st :
  let r := alienBulletsLoop now chances bullets st in
  let shields :=
    if active (timer (powerUps st.1) PowerUp.shield) then 1%Z else 0%Z in
  (lives st.1 - Z.max 0 (Z.of_nat (length bullets) - shields) ≤ lives (r.1).1
   ∧ lives (r.1).1 ≤ lives st.1)%Z
  ∧ (r.2 = true → (lives (r.1).1 ≤ 0 ∧ lives (r.1).1 < lives st.1)%Z)
  ∧ (r.2 = false → (lives (r.1).1 < lives st.1)%Z → (0 < lives (r.1).1)%Z).
Proof.
  revert st. induction bullets as [|bullet rest IH]; intros st; cbn zeta.
  - cbn. destruct (active _); repeat split; try lia; done.
  - cbn [alienBulletsLoop].
    pose proof (alienBulletVsPlayer_step (now bullet) (chances bullet) st
                  bullet) as Hstep.
    cbn zeta in Hstep.
    destruct (alienBulletVsPlayer (now bullet) (chances bullet) st bullet)
      as [st' over].
    cbn [fst snd] in Hstep.
    specialize (IH st'). cbn zeta in IH.
    rewrite length_cons, Nat2Z.inj_succ.
    destruct IH as ([IHlo IHhi] & IHover & IHon).
    destruct Hstep as [(Hl & -> & Hs)|(Hl & Hs & Hs' & ->)].
    + rewrite <- Hl.
      assert (0 `max` (Z.of_nat (length rest)
                - (if active (timer (powerUps st'.1) PowerUp.shield)
                   then 1 else 0))
              ≤ 0 `max` (Z.succ (Z.of_nat (length rest))
                - (if active (timer (powerUps st.1) PowerUp.shield)
                   then 1 else 0)))%Z.
      { destruct (active (timer (powerUps st'.1) PowerUp.shield)).
        - rewrite Hs by done. lia.
        - destruct (active (timer (powerUps st.1) PowerUp.shield)); lia. }
      split; [lia|]. split; [done|]. done.
    + rewrite Hs. rewrite Hs' in IHlo.
      destruct (Z.leb_spec (lives st'.1) 0); cbn [fst snd].
      * split; [lia|]. split; [lia|]. done.
      * split; [lia|]. split.
        -- intros Ho. specialize (IHover Ho). lia.
        -- intros Ho Hlt.
           destruct (Z.eq_dec
                       (lives (alienBulletsLoop now chances rest st').1.1)
                       (lives st'.1)); [lia|].
           apply IHon; [done|lia].
Qed.

(** X22. In one frame the bullets of the aliens cost the player at most
    one life each, and one life less when the shield is active, since
    the first hit only takes the shield. The loop ends with [gameOver()]
    only when a hit has taken the last life, and a player who was hit
    and is not game over has a life left. *)
Theorem alien_bullets_cost_one_life_each (now : ref → Z)
    (chances : ref → Chance) (g : Game.t) (shake : ScreenShake) :
  let r := alienBulletsVsPlayer now chances (g, shake) in
  let g' := (r.1).1 in
  let n := length (ObjectPool.active (pools_alienBullets g)) in
  let shields :=
    if active (timer (powerUps g) PowerUp.shield) then 1%Z else 0%Z in
  (lives g - Z.max 0 (Z.of_nat n - shields) ≤ lives g' ∧ lives g' ≤ lives g)%Z
  ∧ (r.2 = true → (lives g' ≤ 0 ∧ lives g' < lives g)%Z)
  ∧ (r.2 = false → (lives g' < lives g)%Z → (0 < lives g')%Z).
Proof.
  intros r g' n shields. subst r g' n shields. unfold alienBulletsVsPlayer.
  pose proof (alienBulletsLoop_lives now chances
    (reverse (ObjectPool.getActiveObjects (pools_alienBullets (g, shake).1)))
    (g, shake)) as H.
  cbn zeta in H. rewrite length_reverse in H.
  by unfold ObjectPool.getActiveObjects in *.
Qed.

End PlayerHitProperties.

(** ** The items against the player *)

Section ItemProperties.
Import Game.
Local Open Scope Q_scope.

Lemma powerUps_release_frame d obj g :
  score (powerUps_release d obj g) = score g
  ∧ lives (powerUps_release d obj g) = lives g
  ∧ powerUps (powerUps_release d obj g) = powerUps g
  ∧ player (powerUps_release d obj g) = player g
  ∧ log (powerUps_release d obj g) = log g
  ∧ lastDropTime (powerUps_release d obj g) = lastDropTime g
  ∧ ∀ r, r ≠ obj → heap (powerUps_release d obj g) !! r = heap g !! r.
Proof.
  unfold powerUps_release, ObjectPool.release.
  destruct (JsSet.has _ obj); cbn; [|done].
  repeat split; try done. intros r Hne. unfold ObjectPool.call_resetFn.
  by rewrite list_lookup_alter_ne.
Qed.

Lemma powerUps_release_active d obj p g :
  obj ∈ ObjectPool.active (pools_powerUps g) →
  heap g !! obj = Some (OPowerUp p) →
  ObjectPool.active (pools_powerUps (powerUps_release d obj g))
  = JsSet.delete (ObjectPool.active (pools_powerUps g)) obj
  ∧ ObjectPool.pool (pools_powerUps (powerUps_release d obj g))
    = ObjectPool.pool (pools_powerUps g) ++ [obj]
  ∧ heap (powerUps_release d obj g) !! obj
    = Some (OPowerUp (PowerUp.reset 0 0 d p)).
Proof.
  intros Hin Hp. unfold powerUps_release, ObjectPool.release.
  apply has_true in Hin. rewrite Hin. cbn. split; [done|]. split; [done|].
  unfold ObjectPool.call_resetFn. unfold ref in *.
  by rewrite list_lookup_alter_eq, Hp.
Qed.

Lemma applyPowerUp_frame type T g :
  score (applyPowerUp type T g)
  = score g + inject_Z (config_score (GAME_CONFIG_powerUps type))
  ∧ heap (applyPowerUp type T g) = heap g
  ∧ pools_powerUps (applyPowerUp type T g) = pools_powerUps g
  ∧ lastDropTime (applyPowerUp type T g) = lastDropTime g
  ∧ player_rect (player (applyPowerUp type T g)) = player_rect (player g).
Proof.
  unfold applyPowerUp. destruct type as [| |k]; [done..|].
  destruct k; done.
Qed.

Lemma applyPowerUp_powerUps type T g h :
  powerUps g = powerUps h →
  powerUps (applyPowerUp type T g) = powerUps (applyPowerUp type T h).
Proof.
  intros H. unfold applyPowerUp.
  destruct type as [| |k]; [..|destruct k]; cbn; by rewrite H.
Qed.

(** A drop right after a release takes the released item again: it is
    the last entry of the free list. *)
Lemma spawn_takes_last c x y isBomb g item rest q :
  ObjectPool.pool (pools_powerUps g) = rest ++ [item] →
  heap g !! item = Some (OPowerUp q) →
  let g' := spawnPowerUpIfAppropriate c x y isBomb g in
  g' = g
  ∨ ((minDropInterval ≤ chance_now c - lastDropTime g)%Z
     ∧ ObjectPool.active (pools_powerUps g')
       = JsSet.add (ObjectPool.active (pools_powerUps g)) item
     ∧ heap g' !! item
       = Some (OPowerUp (PowerUp.reset x y (chance_selected c) q))
     ∧ (∀ r, r ≠ item → heap g' !! r = heap g !! r)
     ∧ lastDropTime g' = chance_now c).
Proof.
  intros Hpool Hq g'. subst g'. unfold spawnPowerUpIfAppropriate.
  destruct (Z.ltb_spec (chance_now c - lastDropTime g) minDropInterval);
    [by left|].
  destruct (_ <=? _)%nat; [by left|].
  destruct (_ && _); [by left|].
  destruct (Qltb _ _); [|by left].
  right. split; [done|].
  unfold powerUps_get, ObjectPool.get. rewrite Hpool, pop_snoc. cbn.
  split; [done|]. unfold ref in *. split.
  - by rewrite list_lookup_alter_eq, Hq.
  - split; [|done]. intros r Hne. by rewrite list_lookup_alter_ne.
Qed.

Lemma collectPowerUp_miss drawn now chances g item :
  touches g item = false → collectPowerUp drawn now chances g item = g.
Proof. unfold touches, collectPowerUp. by intros ->. Qed.

Lemma collectPowerUp_hit drawn now chances g item p :
  touches g item = true →
  item ∈ ObjectPool.active (pools_powerUps g) →
  heap g !! item = Some (OPowerUp p) →
  let g' := collectPowerUp drawn now chances g item in
  score g'
  = score g + inject_Z (config_score (GAME_CONFIG_powerUps (drawn item)))
  ∧ powerUps g' = powerUps (applyPowerUp (drawn item) (now item) g)
  ∧ ExplosionParticles 0 0 ∈ log g'
  ∧ (∀ r, r ≠ item → heap g' !! r = heap g !! r)
  ∧ player_rect (player g') = player_rect (player g)
  ∧ ((ObjectPool.active (pools_powerUps g')
      = JsSet.delete (ObjectPool.active (pools_powerUps g)) item
      ∧ heap g' !! item
        = Some (OPowerUp (PowerUp.reset 0 0 (drawn item) p))
      ∧ lastDropTime g' = lastDropTime g)
     ∨ (ObjectPool.active (pools_powerUps g')
        = JsSet.delete (ObjectPool.active (pools_powerUps g)) item ++ [item]
        ∧ heap g' !! item
          = Some (OPowerUp
                    (PowerUp.reset 0 0 (chance_selected (chances item)) p))
        ∧ lastDropTime g' = chance_now (chances item)
        ∧ (minDropInterval
           ≤ chance_now (chances item) - lastDropTime g)%Z)).
Proof.
  intros Hhit Hin Hp g'. subst g'. unfold touches in Hhit.
  unfold collectPowerUp. rewrite Hhit.
  destruct (powerUps_release_frame (drawn item) item g)
    as (Hs & _ & Hpu & Hpl & _ & Hld & Hheap).
  destruct (powerUps_release_active (drawn item) item p g Hin Hp)
    as (Hact & Hpool & Hitem).
  unfold powerUp_at. rewrite Hitem. cbn [PowerUp.reset PowerUp.type_
    PowerUp.x PowerUp.y].
  set (g0 := powerUps_release (drawn item) item g) in *.
  destruct (applyPowerUp_frame (drawn item) (now item) g0)
    as (Hs' & Hh' & Hpool' & Hld' & Hrect').
  set (g1 := applyPowerUp (drawn item) (now item) g0) in *.
  unfold createExplosion.
  set (g2 := emit (PlaySound 220 0.2 "sawtooth")
               (emit (ExplosionParticles 0 0) g1)).
  destruct (spawn_frame (chances item) 0 0 false g2)
    as (Hs2 & _ & Hpl2 & _ & Hpu2 & _ & _ & _ & _ & Hlog2 & _).
  rewrite Hs2, Hpu2, Hpl2, Hlog2.
  assert (ObjectPool.pool (pools_powerUps g2)
          = ObjectPool.pool (pools_powerUps g) ++ [item]) as Hpool2
    by (subst g2; cbn [emit pools_powerUps]; by rewrite Hpool', Hpool).
  assert (heap g2 !! item
          = Some (OPowerUp (PowerUp.reset 0 0 (drawn item) p))) as Hitem2
    by (subst g2; cbn [emit heap]; by rewrite Hh').
  split; [subst g2; cbn [emit score]; by rewrite Hs', Hs|].
  split; [subst g2 g1; cbn [emit powerUps]; by apply applyPowerUp_powerUps|].
  split.
  { subst g2. cbn [emit log]. rewrite !elem_of_app. left. right.
    by apply list_elem_of_singleton. }
  assert (∀ r, r ≠ item → heap g2 !! r = heap g !! r) as Hheap2.
  { intros r Hne. subst g2. cbn [emit heap]. rewrite Hh'. by apply Hheap. }
  assert (player_rect (player g2) = player_rect (player g)) as Hrect2
    by (subst g2; cbn [emit player]; by rewrite Hrect', Hpl).
  assert (ObjectPool.active (pools_powerUps g2)
          = JsSet.delete (ObjectPool.active (pools_powerUps g)) item)
    as Hact2 by (subst g2; cbn [emit pools_powerUps]; by rewrite Hpool', Hact).
  assert (lastDropTime g2 = lastDropTime g) as Hld2
    by (subst g2; cbn [emit lastDropTime]; by rewrite Hld', Hld).
  destruct (spawn_takes_last (chances item) 0 0 false g2 item
              (ObjectPool.pool (pools_powerUps g))
              (PowerUp.reset 0 0 (drawn item) p) Hpool2 Hitem2)
    as [->|(Htime & Hact3 & Hitem3 & Hheap3 & Hld3)].
  - split; [done|]. split; [done|]. by left.
  - split; [intros r Hne; by rewrite Hheap3, Hheap2|].
    split; [done|]. right.
    rewrite Hact3, Hitem3, Hld3, Hact2. rewrite Hld2 in Htime.
    split; [|done]. unfold JsSet.add.
    assert (JsSet.has
              (JsSet.delete (ObjectPool.active (pools_powerUps g)) item)
              item = false) as ->; [|done].
    apply has_false. rewrite elem_of_delete. tauto.
Qed.

(** X23. Collecting an item releases it before its type is read: the
    release resets the item at (0, 0) and draws a new type, so the
    power-up that is applied, and the points that are scored, are those
    of the type the reset draws, not of the type the item had, and the
    explosion is at (0, 0). When the explosion drops no power-up the
    item stays released; when it drops one, the pool hands out the item
    that was just released, so that the collected item is active
    again, at (0, 0) and with the type selected for the drop, which can
    only happen 2000 ms or more after the last drop. *)
Theorem collected_item_applies_redrawn_type (drawn : ref → PowerUp.type)
    (now : ref → Z) (chances : ref → Chance) (item : ref) (p : PowerUp.t)
    (g : Game.t) :
  heap g !! item = Some (OPowerUp p) →
  item ∈ ObjectPool.active (pools_powerUps g) →
  collision (powerUp_rect p) (player_rect (player g)) = true →
  let g' := collectPowerUp drawn now chances g item in
  score g'
  = score g + inject_Z (config_score (GAME_CONFIG_powerUps (drawn item)))
  ∧ powerUps g' = powerUps (applyPowerUp (drawn item) (now item) g)
  ∧ ExplosionParticles 0 0 ∈ log g'
  ∧ (((item ∉ ObjectPool.active (pools_powerUps g'))
      ∧ heap g' !! item
        = Some (OPowerUp (PowerUp.reset 0 0 (drawn item) p))
      ∧ lastDropTime g' = lastDropTime g)
     ∨ (item ∈ ObjectPool.active (pools_powerUps g')
        ∧ heap g' !! item
          = Some (OPowerUp
                    (PowerUp.reset 0 0 (chance_selected (chances item)) p))
        ∧ lastDropTime g' = chance_now (chances item)
        ∧ (minDropInterval
           ≤ chance_now (chances item) - lastDropTime g)%Z)).
Proof.
  intros Hp Hin Hhit g'.
  assert (touches g item = true) as Ht.
  { unfold touches, rect_of. unfold ref in *. by rewrite Hp. }
  destruct (collectPowerUp_hit drawn now chances g item p Ht Hin Hp)
    as (Hs & Hpu & Hlog & _ & _ & Hcases).
  split; [done|]. split; [done|]. split; [done|].
  destruct Hcases as [(Hact & Hitem & Hld)|(Hact & Hitem & Hld & Htime)].
  - left. subst g'. rewrite Hact, elem_of_delete. split; [tauto|done].
  - right. subst g'. rewrite Hact, elem_of_app. split; [|done].
    right. by apply list_elem_of_singleton.
Qed.

Lemma collect_loop drawn now chances items g :
  NoDup items →
  (∀ item, item ∈ items →
     item ∈ ObjectPool.active (pools_powerUps g)
     ∧ ∃ p, heap g !! item = Some (OPowerUp p)) →
  let g' := foldl (collectPowerUp drawn now chances) g items in
  score g'
  == score g
     + inject_Z
         (foldr (λ item s,
                   if touches g item
                   then (config_score (GAME_CONFIG_powerUps (drawn item))
                         + s)%Z
                   else s) 0%Z items)
  ∧ (∀ r, r ∈ ObjectPool.active (pools_powerUps g') →
          r ∈ ObjectPool.active (pools_powerUps g))
  ∧ (∀ r, r ∈ ObjectPool.active (pools_powerUps g) →
          ¬ (r ∈ items ∧ touches g r = true) →
          r ∈ ObjectPool.active (pools_powerUps g')).
Proof.
  revert g. induction items as [|item rest IH]; intros g Hnd Hok g'.
  - subst g'. cbn. split; [ring|]. split; [done|]. by intros r Hr _.
  - apply NoDup_cons in Hnd as [Hfresh Hnd].
    destruct (Hok item) as (Hin & p & Hp); [by left|].
    subst g'. cbn [foldl foldr].
    set (g1 := collectPowerUp drawn now chances g item).
    assert ((∀ r, r ≠ item → heap g1 !! r = heap g !! r)
            ∧ player_rect (player g1) = player_rect (player g)
            ∧ score g1
              == score g
                 + inject_Z (if touches g item
                             then config_score
                                    (GAME_CONFIG_powerUps (drawn item))
                             else 0%Z)
            ∧ (∀ r, r ∈ ObjectPool.active (pools_powerUps g1) →
                    r ∈ ObjectPool.active (pools_powerUps g))
            ∧ (∀ r, r ∈ ObjectPool.active (pools_powerUps g) →
                    ¬ (r = item ∧ touches g r = true) →
                    r ∈ ObjectPool.active (pools_powerUps g1)))
      as (Hheap & Hrect & Hscore & Hsub & Hkeep).
    { subst g1. destruct (touches g item) eqn:Ht.
      - destruct (collectPowerUp_hit drawn now chances g item p Ht Hin Hp)
          as (-> & _ & _ & Hheap & Hrect & Hcases).
        split; [done|]. split; [done|]. split; [done|].
        destruct Hcases as [(-> & _)|(-> & _)].
        + split.
          * intros r. rewrite elem_of_delete. tauto.
          * intros r Hr Hno. rewrite elem_of_delete. split; [|done].
            intros ->. by apply Hno.
        + split.
          * intros r. rewrite elem_of_app, elem_of_delete.
            intros [[_ ?]|Hr]; [done|].
            by apply list_elem_of_singleton in Hr as ->.
          * intros r Hr Hno. rewrite elem_of_app, elem_of_delete.
            left. split; [|done]. intros ->. by apply Hno.
      - rewrite collectPowerUp_miss by done.
        split; [done|]. split; [done|]. split.
        + unfold inject_Z. ring.
        + split; [done|]. by intros r Hr _. }
    assert (∀ r, r ∈ rest → touches g1 r = touches g r) as Htouch.
    { intros r Hr. unfold touches, rect_of.
      rewrite Hrect, Hheap; [done|]. intros ->. done. }
    destruct (IH g1 Hnd) as (IHscore & IHsub & IHkeep).
    { intros r Hr. split.
      - apply Hkeep; [by apply Hok; right|]. intros [-> _]. done.
      - destruct (Hok r) as (_ & q & Hq); [by right|].
        exists q. rewrite Hheap; [done|]. intros ->. done. }
    split; [|split].
    + rewrite IHscore, Hscore.
      assert (foldr (λ item s,
                if touches g1 item
                then (config_score (GAME_CONFIG_powerUps (drawn item)) + s)%Z
                else s) 0%Z rest
              = foldr (λ item s,
                if touches g item
                then (config_score (GAME_CONFIG_powerUps (drawn item)) + s)%Z
                else s) 0%Z rest) as ->.
      { clear -Htouch. induction rest as [|r rest IHr]; [done|].
        cbn [foldr]. rewrite Htouch by by left.
        rewrite IHr; [done|]. intros r' Hr'. apply Htouch. by right. }
      destruct (touches g item).
      * rewrite inject_Z_plus. ring.
      * unfold inject_Z at 1. ring.
    + intros r Hr. by apply Hsub, IHsub.
    + intros r Hr Hno. apply IHkeep.
      * apply Hkeep; [done|]. intros [-> Ht]. apply Hno.
        split; [by left|done].
      * intros [Hr' Ht]. apply Hno. split; [by right|].
        by rewrite <- Htouch.
Qed.

(** X24. One pass over the items adds the points of the types that the
    resets draw for the active items that overlap the player: they do
    not depend on the types the items had. No item becomes active that
    was not, since a drop only takes an item that the pass has just
    released, and the active items that miss the player stay
    active. *)
Theorem item_pass_scores_redrawn_types (drawn : ref → PowerUp.type)
    (now : ref → Z) (chances : ref → Chance) (g : Game.t) :
  NoDup (ObjectPool.active (pools_powerUps g)) →
  (∀ item, item ∈ ObjectPool.active (pools_powerUps g) →
     ∃ p, heap g !! item = Some (OPowerUp p)) →
  let g' := checkPowerUpCollisions drawn now chances g in
  score g' == score g + inject_Z (collected_score drawn g)
  ∧ (∀ item, item ∈ ObjectPool.active (pools_powerUps g') →
             item ∈ ObjectPool.active (pools_powerUps g))
  ∧ (∀ item, item ∈ ObjectPool.active (pools_powerUps g) →
             touches g item = false →
             item ∈ ObjectPool.active (pools_powerUps g')).
Proof.
  intros Hnd Hok g'. subst g'. unfold checkPowerUpCollisions, collected_score.
  unfold ObjectPool.getActiveObjects.
  destruct (collect_loop drawn now chances
              (reverse (ObjectPool.active (pools_powerUps g))) g)
    as (Hscore & Hsub & Hkeep).
  - by rewrite reverse_Permutation.
  - intros item Hin. rewrite elem_of_reverse in Hin. split; [done|].
    by apply Hok.
  - split; [done|]. split; [done|].
    intros item Hin Hmiss. apply Hkeep; [done|].
    intros [_ Ht]. congruence.
Qed.

End ItemProperties.

Lemma collected_item_applies_redrawn_type_witness :
  Game.score
    (Game.collectPowerUp (λ _, PowerUp.bomb) (λ _, 0%Z) (λ _, drop_bomb)
       player_under_fire 1%nat)
  = (Game.score player_under_fire
     + inject_Z (config_score (GAME_CONFIG_powerUps PowerUp.bomb)))%Q.
Proof.
  apply (collected_item_applies_redrawn_type (λ _, PowerUp.bomb)
           (λ _, 0%Z) (λ _, drop_bomb) 1%nat life_item player_under_fire);
    [reflexivity| |reflexivity].
  apply elem_of_cons. by left.
Defined.

(** In the game under fire the explosion of the collection drops a
    power-up: the collected item is active again, as a bomb at
    (0, 0). *)
Example collected_item_comes_back :
  let g' :=
    Game.collectPowerUp (λ _, PowerUp.life) (λ _, 0%Z) (λ _, drop_bomb)
      player_under_fire 1%nat in
  ObjectPool.active (Game.pools_powerUps g') = [1%nat]
  ∧ Game.heap g' !! 1%nat
    = Some (OPowerUp (PowerUp.mkPowerUp 0 0 20 20 2 PowerUp.bomb)).
Proof. by vm_compute. Qed.

Lemma item_pass_scores_redrawn_types_witness :
  (Game.score
     (Game.checkPowerUpCollisions (λ _, PowerUp.bomb) (λ _, 0%Z)
        (λ _, drop_bomb) player_under_fire)
   == Game.score player_under_fire
      + inject_Z (collected_score (λ _, PowerUp.bomb) player_under_fire))%Q.
Proof.
  apply (item_pass_scores_redrawn_types (λ _, PowerUp.bomb) (λ _, 0%Z)
           (λ _, drop_bomb) player_under_fire).
  - cbn. apply NoDup_singleton.
  - intros item Hin. cbn in Hin. apply list_elem_of_singleton in Hin as ->.
    by exists life_item.
Defined.

(** ** Shooting *)

Section ShootProperties.
Import Game.
Local Open Scope Q_scope.

Lemma Qsum_app a b : Qsum (a ++ b) == Qsum a + Qsum b.
Proof.
  unfold Qsum. induction a as [|x a IH]; cbn [foldr app].
  - ring.
  - rewrite IH. ring.
Qed.

Lemma laser_score_snoc g l x :
  laser_score g (l ++ [x])
  == laser_score g l + (if beam_hits g x then laser_points g x else 0).
Proof.
  unfold laser_score. rewrite filter_app, map_app, Qsum_app.
  destruct (beam_hits g x) eqn:Hx.
  - rewrite filter_cons_True by done. cbn. ring.
  - rewrite filter_cons_False by (by rewrite Hx). cbn. ring.
Qed.

Lemma beam_hits_items g g1 r :
  same_but_items (heap g) (heap g1) → player g1 = player g →
  beam_hits g1 r = beam_hits g r.
Proof.
  intros Hitems Hp. unfold beam_hits, in_beam. rewrite Hp.
  unfold same_but_items, ref in *.
  destruct (heap g !! r) as [[b|a|q]|] eqn:Hr.
  - by rewrite (proj2 (Hitems r (OBullet b) ltac:(done)) Hr).
  - by rewrite (proj2 (Hitems r (OAlien a) ltac:(done)) Hr).
  - destruct (heap g1 !! r) as [[b'|a'|q']|] eqn:Hr1; try done.
    apply (Hitems r (OAlien a')) in Hr1; [congruence|done].
  - destruct (heap g1 !! r) as [[b'|a'|q']|] eqn:Hr1; try done.
    apply (Hitems r (OAlien a')) in Hr1; [congruence|done].
Qed.

Lemma laser_points_items g g1 r :
  same_but_items (heap g) (heap g1) → powerUps g1 = powerUps g →
  laser_points g1 r = laser_points g r.
Proof.
  intros Hitems Hp. unfold laser_points. rewrite Hp.
  unfold same_but_items, ref in *.
  destruct (heap g !! r) as [[b|a|q]|] eqn:Hr.
  - by rewrite (proj2 (Hitems r (OBullet b) ltac:(done)) Hr).
  - by rewrite (proj2 (Hitems r (OAlien a) ltac:(done)) Hr).
  - destruct (heap g1 !! r) as [[b'|a'|q']|] eqn:Hr1; try done.
    apply (Hitems r (OAlien a')) in Hr1; [congruence|done].
  - destruct (heap g1 !! r) as [[b'|a'|q']|] eqn:Hr1; try done.
    apply (Hitems r (OAlien a')) in Hr1; [congruence|done].
Qed.

Lemma laserStep_at chances g hit i x :
  aliens g !! i = Some x →
  (beam_hits g x = false ∧ laserStep chances (g, hit) i = (g, hit))
  ∨ (beam_hits g x = true
     ∧ ∃ g1, laserStep chances (g, hit) i = (g1, true)
             ∧ aliens g1 = delete i (aliens g)
             ∧ score g1 = score g + laser_points g x
             ∧ same_but_items (heap g) (heap g1)
             ∧ player g1 = player g
             ∧ powerUps g1 = powerUps g
             ∧ pools_bullets g1 = pools_bullets g).
Proof.
  intros Hx. unfold laserStep, beam_hits, laser_points. rewrite Hx.
  destruct (heap g !! x) as [[b|a|p]|]; [by left| |by left..].
  destruct (in_beam g a); [|by left].
  right. split; [done|]. eexists. split; [done|].
  destruct (createExplosion_frame (chances i)
              (Alien.x a + Alien.width a / 2)
              (Alien.y a + Alien.height a / 2) g)
    as (Hs & _ & Hp & _ & Hpu & Ha & Hpb & _ & _ & Hitems).
  cbn [emit set_score set_aliens aliens score heap player powerUps
    pools_bullets].
  by rewrite Hs, Hp, Hpu, Ha, Hpb.
Qed.

Lemma laser_loop chances l : ∀ suffix g hit,
  aliens g = l ++ suffix →
  let r := foldl (laserStep chances) (g, hit)
             (reverse (seq 0 (length l))) in
  aliens r.1 = filter (λ x, beam_hits g x = false) l ++ suffix
  ∧ score r.1 == score g + laser_score g l
  ∧ same_but_items (heap g) (heap r.1)
  ∧ player r.1 = player g
  ∧ powerUps r.1 = powerUps g
  ∧ pools_bullets r.1 = pools_bullets g.
Proof.
  induction l as [|x l IH] using rev_ind; intros suffix g hit Haliens r.
  - subst r. cbn. split; [done|]. split.
    { unfold laser_score, Qsum. cbn. ring. }
    split; [apply same_but_items_refl|done].
  - subst r. rewrite length_app. cbn [length]. rewrite Nat.add_1_r.
    rewrite seq_S, reverse_app. cbn [reverse app foldl Nat.add].
    rewrite reverse_singleton. cbn [app foldl].
    assert (aliens g !! length l = Some x) as Hx.
    { rewrite Haliens, <- (assoc_L (++)). by apply list_lookup_middle. }
    rewrite filter_app, laser_score_snoc.
    destruct (laserStep_at chances g hit (length l) x Hx)
      as [(Hb & ->)|(Hb & g1 & -> & Ha1 & Hs1 & Hh1 & Hp1 & Hpu1 & Hpb1)].
    + rewrite Hb, filter_cons_True by done.
      destruct (IH (x :: suffix) g hit) as (-> & -> & Hh & -> & -> & ->);
        [by rewrite Haliens, <- (assoc_L (++))|].
      split; [by rewrite <- (assoc_L (++))|]. split; [ring|]. done.
    + rewrite Hb, filter_cons_False by (by rewrite Hb).
      assert (∀ r, beam_hits g1 r = beam_hits g r) as Hbeam
        by (intros r; by apply beam_hits_items).
      assert (laser_score g1 l = laser_score g l) as Hsc.
      { unfold laser_score. f_equal.
        erewrite (list_filter_iff _ (λ r, beam_hits g r = true));
          [|intros r; by rewrite Hbeam].
        apply map_ext. intros r. by apply laser_points_items. }
      destruct (IH suffix g1 true) as (Ha & Hs & Hh & Hp & Hpu & Hpb).
      { rewrite Ha1, Haliens, <- (assoc_L (++)). cbn [app].
        by rewrite delete_middle. }
      rewrite Ha, Hs, Hp, Hpu, Hpb, Hsc, Hs1, Hp1, Hpu1, Hpb1.
      split.
      { rewrite filter_nil, app_nil_r. f_equal.
        apply list_filter_iff. intros r. by rewrite Hbeam. }
      split; [ring|]. split; [|done].
      by eapply same_but_items_trans.
Qed.

(** X25. With the laser active, [shoot] fires the beam and no bullet:
    the aliens that are left are those outside the beam, in their
    order; a shielded alien in the beam is removed like any other. The
    score grows by [(4 - row) * 10] times the multiplier for each alien
    in the beam, without the factor of its type. The bullets and the
    aliens of the store, and so the shield strengths, and the bullet
    pool are untouched; the explosions can only add or reset power-up
    items. *)
Theorem laser_removes_aliens_in_beam (nowLaser now : Z)
    (chances : nat → Chance) (g : Game.t) :
  active (timer (powerUps g) PowerUp.laser) = true →
  let g' := (shoot nowLaser now chances g).1 in
  aliens g' = filter (λ alien, beam_hits g alien = false) (aliens g)
  ∧ score g' == score g + laser_score g (aliens g)
  ∧ same_but_items (heap g) (heap g')
  ∧ pools_bullets g' = pools_bullets g
  ∧ (shoot nowLaser now chances g).2 = addScreenShake 1 50 now.
Proof.
  intros Hlaser g'. subst g'. unfold shoot. rewrite Hlaser.
  unfold fireLaser.
  destruct (laser_loop chances (aliens g) [] g false)
    as (Ha & Hs & Hh & _ & _ & Hpb).
  { by rewrite app_nil_r. }
  rewrite app_nil_r in Ha.
  destruct (foldl (laserStep chances) (g, false)
              (reverse (seq 0 (length (aliens g)))))
    as [g1 laserHit].
  cbn [fst snd] in *.
  by destruct laserHit; cbn [fst snd emit aliens score heap pools_bullets].
Qed.

(** X26. The configuration of a shot lists as many positions and
    speeds as it counts bullets: one bullet, four with the quad shot,
    three with the quad shot and the split shot together. For a player
    inside the field and more than 8 wide every position is a positive
    number within the width of the player, so that no bullet falls
    back to the first position. *)
Theorem bullet_configuration_is_aligned (g : Game.t) :
  let config := getBulletConfiguration g in
  length (positions config) = count config
  ∧ length (speeds config) = count config
  ∧ count config
    = (if active (timer (powerUps g) PowerUp.quadShot)
       then if active (timer (powerUps g) PowerUp.splitShot)
            then 3 else 4
       else 1)%nat
  ∧ (0 <= Player.x (player g) → 8 < Player.width (player g) →
     ∀ i x, positions config !! i = Some x →
       js_or (positions config !! i)
             (default 0 (positions config !! 0%nat)) = x
       ∧ Player.x (player g) <= x
       ∧ x <= Player.x (player g) + Player.width (player g)).
Proof.
  intros config. subst config. unfold getBulletConfiguration.
  assert (∀ x : Q, 0 < x → Qeq_bool x 0 = false) as Hpos.
  { intros x Hx. apply not_true_is_false. intros Heq.
    apply Qeq_bool_iff in Heq. lra. }
  destruct (active (timer (powerUps g) PowerUp.quadShot));
    [destruct (active (timer (powerUps g) PowerUp.splitShot))|];
    cbn [positions speeds count take length].
  1, 2: split; [done|]; split; [done|]; split; [done|];
    intros Hx Hw i x Hi;
    do 4 (destruct i as [|i]; [cbn [lookup list_lookup] in Hi;
      first [discriminate Hi|injection Hi as <-; cbn [js_or lookup list_lookup];
      rewrite Hpos by lra; split; [done|]; lra]|]);
    done.
  assert (∀ c, positions c = [Player.x (player g)
                               + Player.width (player g) / 2] →
               speeds c = [0] → count c = 1%nat →
            length (positions c) = count c
            ∧ length (speeds c) = count c
            ∧ count c = 1%nat
            ∧ (0 <= Player.x (player g) → 8 < Player.width (player g) →
               ∀ i x, positions c !! i = Some x →
                 js_or (positions c !! i)
                       (default 0 (positions c !! 0%nat)) = x
                 ∧ Player.x (player g) <= x
                 ∧ x <= Player.x (player g) + Player.width (player g))) as H.
  { intros c -> -> ->. split; [done|]. split; [done|]. split; [done|].
    intros Hx Hw i x Hi. destruct i as [|i]; [|done].
    cbn [lookup list_lookup] in Hi.
    injection Hi as <-. cbn [js_or lookup list_lookup].
    assert (0 < Player.width (player g) / 2)
      by (apply Qlt_shift_div_l; lra).
    assert (Player.width (player g) / 2 <= Player.width (player g))
      by (apply Qle_shift_div_r; lra).
    rewrite Hpos by lra. split; [done|]. lra. }
  by repeat (destruct (active _); cbn [set_color]); apply H.
Qed.

Lemma shootBullet_recycles config g i obj rest b :
  ObjectPool.pool (pools_bullets g) = rest ++ [obj] →
  heap g !! obj = Some (OBullet b) →
  let g' := shootBullet config g i in
  let on k := active (timer (powerUps g) k) in
  ∃ b', heap g' !! obj = Some (OBullet b')
    ∧ obj ∈ ObjectPool.active (pools_bullets g')
    ∧ Bullet.x b' = js_or (positions config !! i)
                          (default 0 (positions config !! 0%nat))
    ∧ Bullet.y b' = Player.y (player g) - 10
    ∧ Bullet.speed b' = - Bullet.config_speed
    ∧ Bullet.flags b' splitShot = on PowerUp.splitShot
    ∧ Bullet.flags b' guidedShot
      = Bullet.flags b guidedShot || on PowerUp.guidedShot
    ∧ Bullet.flags b' diamondShot
      = Bullet.flags b diamondShot || on PowerUp.diamondShot
    ∧ Bullet.flags b' chainLightning
      = Bullet.flags b chainLightning || on PowerUp.chainLightning.
Proof.
  intros Hpool Hb g' on. subst g' on.
  unfold shootBullet, bullets_get, ObjectPool.get.
  rewrite Hpool, pop_snoc. cbn [set_heap set_pools_bullets heap powerUps
    player pools_bullets ObjectPool.active].
  unfold ref in *. rewrite list_lookup_alter_eq, Hb.
  cbn [fmap option_fmap option_map on_bullet].
  eexists. split; [done|]. split.
  { apply elem_of_add. by left. }
  destruct (active (timer (powerUps g) PowerUp.splitShot)),
    (active (timer (powerUps g) PowerUp.guidedShot)),
    (active (timer (powerUps g) PowerUp.diamondShot)),
    (active (timer (powerUps g) PowerUp.chainLightning));
    cbn; rewrite ?orb_true_r, ?orb_false_r; done.
Qed.

(** X27. A bullet that is released and shot again is the same object,
    and it keeps the marks of its first flight: the reset clears only
    [splitShot], and [shoot] only sets marks, so the bullet is a
    guided, diamond or chain bullet when it was one before or when the
    power-up is active now. It starts at the middle of the player, 10
    above it. *)
Theorem recycled_bullet_keeps_marks (nowLaser now : Z)
    (chances : nat → Chance) (obj : ref) (b : Bullet.t) (g : Game.t) :
  heap g !! obj = Some (OBullet b) →
  obj ∈ ObjectPool.active (pools_bullets g) →
  active (timer (powerUps g) PowerUp.laser) = false →
  active (timer (powerUps g) PowerUp.quadShot) = false →
  let g' := (shoot nowLaser now chances (bullets_release obj g)).1 in
  let on k := active (timer (powerUps g) k) in
  ∃ b', heap g' !! obj = Some (OBullet b')
    ∧ obj ∈ ObjectPool.active (pools_bullets g')
    ∧ Bullet.x b' = Player.x (player g) + Player.width (player g) / 2
    ∧ Bullet.y b' = Player.y (player g) - 10
    ∧ Bullet.flags b' splitShot = on PowerUp.splitShot
    ∧ Bullet.flags b' guidedShot
      = Bullet.flags b guidedShot || on PowerUp.guidedShot
    ∧ Bullet.flags b' diamondShot
      = Bullet.flags b diamondShot || on PowerUp.diamondShot
    ∧ Bullet.flags b' chainLightning
      = Bullet.flags b chainLightning || on PowerUp.chainLightning.
Proof.
  intros Hb Hin Hlaser Hquad g' on. subst g' on.
  set (g0 := bullets_release obj g).
  assert (powerUps g0 = powerUps g ∧ player g0 = player g
          ∧ ObjectPool.pool (pools_bullets g0)
            = ObjectPool.pool (pools_bullets g) ++ [obj]
          ∧ heap g0 !! obj
            = Some (OBullet (Bullet.reset 0 0 0 "#00ff00" true b)))
    as (Hpu & Hpl & Hpool & Hb0).
  { subst g0. unfold bullets_release, ObjectPool.release.
    apply has_true in Hin. rewrite Hin. cbn.
    repeat split. unfold ObjectPool.call_resetFn. unfold ref in *.
    by rewrite list_lookup_alter_eq, Hb. }
  unfold shoot. rewrite Hpu, Hlaser. cbn [fst].
  assert (count (getBulletConfiguration g0) = 1%nat
          ∧ positions (getBulletConfiguration g0)
            = [Player.x (player g) + Player.width (player g) / 2])
    as [Hcount Hpos].
  { unfold getBulletConfiguration. rewrite Hpu, Hpl, Hquad.
    by repeat (destruct (active _); cbn [set_color count positions]). }
  rewrite Hcount. cbn [seq foldl].
  destruct (shootBullet_recycles (getBulletConfiguration g0) g0 0%nat obj
              (ObjectPool.pool (pools_bullets g))
              (Bullet.reset 0 0 0 "#00ff00" true b) Hpool Hb0)
    as (b' & Hb' & Hact & Hx & Hy & _ & Hsplit & Hguided & Hdiamond & Hchain).
  exists b'. rewrite Hpu, Hpl in *.
  split; [done|]. split; [done|]. split.
  { rewrite Hx, Hpos. cbn [lookup list_lookup default js_or].
    by destruct (Qeq_bool _ _). }
  done.
Qed.

End ShootProperties.

Lemma laser_removes_aliens_in_beam_witness :
  Game.aliens (Game.shoot 5 5 (λ _, drop_bomb) laser_game).1
  = filter (λ alien, beam_hits laser_game alien = false)
      (Game.aliens laser_game).
Proof.
  apply (laser_removes_aliens_in_beam 5 5 (λ _, drop_bomb) laser_game).
  reflexivity.
Defined.

(** In that game the beam takes the shielded alien 1, of shield
    strength 2, and leaves the alien 0; the explosion drops a bomb. *)
Example laser_takes_shielded_alien :
  let g' := (Game.shoot 5 5 (λ _, drop_bomb) laser_game).1 in
  beam_hits laser_game 1 = true
  ∧ Game.aliens g' = [0%nat]
  ∧ (Game.score g' == Game.score laser_game + 40)%Q
  ∧ ObjectPool.active (Game.pools_powerUps g') = [2%nat].
Proof. by vm_compute. Qed.

Lemma recycled_bullet_keeps_marks_witness :
  ∃ b',
    Game.heap
      (Game.shoot 5 5 (λ _, no_drop)
         (Game.bullets_release 0%nat diamond_in_flight)).1
      !! 0%nat
    = Some (OBullet b')
    ∧ Bullet.flags b' diamondShot = true.
Proof.
  destruct (recycled_bullet_keeps_marks 5 5 (λ _, no_drop) 0%nat
              diamond_bullet diamond_in_flight)
    as (b' & Hb' & _ & _ & _ & _ & _ & Hdiamond & _);
    [reflexivity| |reflexivity|reflexivity|].
  - apply elem_of_cons. by left.
  - exists b'. split; [exact Hb'|exact Hdiamond].
Defined.

(** ** The type of a new item *)

Section SelectProperties.
Local Open Scope Q_scope.

Lemma random_index_lt (r : Q) (n : nat) :
  0 <= r → r < 1 → (0 < n)%nat → (random_index r n < n)%nat.
Proof.
  intros H0 H1 Hn. unfold random_index.
  assert (0 < inject_Z (Z.of_nat n)) as Hpos.
  { change 0 with (inject_Z 0). rewrite <- Zlt_Qlt. lia. }
  assert (0 <= Qfloor (r * inject_Z (Z.of_nat n)))%Z.
  { change 0%Z with (Qfloor 0). apply Qfloor_resp_le. nra. }
  assert (Qfloor (r * inject_Z (Z.of_nat n)) < Z.of_nat n)%Z.
  { rewrite Zlt_Qlt. eapply Qle_lt_trans; [apply Qfloor_le|]. nra. }
  lia.
Qed.

Lemma pick_listed (r : Q) (l : list PowerUp.type) :
  0 <= r → r < 1 → (0 < length l)%nat →
  ∃ t, l !! random_index r (length l) = Some t ∧ t ∈ l.
Proof.
  intros H0 H1 Hn.
  destruct (lookup_lt_is_Some_2 l (random_index r (length l))) as [t Ht].
  { by apply random_index_lt. }
  exists t. split; [done|]. by eapply list_elem_of_lookup_2.
Qed.


Lemma indexOf_split :
  indexOf (PowerUp.keyed PowerUp.splitShot) PowerUp.types = Some 8%nat.
Proof. by vm_compute. Qed.

Lemma indexOf_quad :
  indexOf (PowerUp.keyed PowerUp.quadShot) PowerUp.types = Some 3%nat.
Proof. by vm_compute. Qed.

Lemma indexOf_quad_without_split :
  indexOf (PowerUp.keyed PowerUp.quadShot) (delete 8%nat PowerUp.types)
  = Some 3%nat.
Proof. by vm_compute. Qed.

Ltac listed :=
  let t := fresh "t" in
  let Ht := fresh "Ht" in
  intros t Ht;
  match type of Ht with
  | _ ∈ ?L => let L' := eval vm_compute in L in change L with L' in Ht
  end;
  repeat (apply elem_of_cons in Ht as [->|Ht];
          [unfold PowerUp.types, utilityTypes; repeat constructor|]);
  by apply elem_of_nil in Ht.

Ltac closed_test :=
  match goal with
  | |- context [(?a <=? ?n)%nat] =>
      let v := eval vm_compute in (a <=? n)%nat in
      replace (a <=? n)%nat with v by (vm_compute; reflexivity)
  | |- context [(?a <? ?n)%nat] =>
      let v := eval vm_compute in (a <? n)%nat in
      replace (a <? n)%nat with v by (vm_compute; reflexivity)
  end.

Ltac select_step :=
  first
    [ progress cbv beta iota zeta
    | rewrite indexOf_split
    | rewrite indexOf_quad
    | rewrite indexOf_quad_without_split
    | closed_test ].

Lemma pick_from (r : Q) (l types : list PowerUp.type) :
  0 <= r → r < 1 → (0 < length l)%nat → (∀ t, t ∈ l → t ∈ types) →
  ∃ t, l !! random_index r (length l) = Some t ∧ t ∈ types.
Proof.
  intros H0 H1 Hn Hsub.
  destruct (pick_listed r l H0 H1 Hn) as (t & Ht & Hin).
  exists t. split; [done|]. by apply Hsub.
Qed.

(** X28. When every draw of [Math.random()] is in [0, 1), the type
    selected for an item is one of the fourteen listed types, with or
    without a game instance: no index falls outside its array. *)
Theorem select_returns_listed_type (gameInstance : option Game.PowerUps)
    (random : nat → Q) :
  (∀ k, 0 <= random k ∧ random k < 1) →
  ∃ t, selectOptimalType gameInstance random = Some t ∧ t ∈ PowerUp.types.
Proof.
  intros Hr. unfold selectOptimalType.
  destruct gameInstance as [powerUps|].
  - destruct (Game.active (Game.timer powerUps PowerUp.quadShot)),
      (Game.active (Game.timer powerUps PowerUp.splitShot)),
      (Game.active (Game.timer powerUps PowerUp.rapidFire)),
      (Game.active (Game.timer powerUps PowerUp.laser)),
      (Game.active (Game.timer powerUps PowerUp.guidedShot));
      repeat first
        [ select_step
        | match goal with
          | |- context [Qltb ?a ?b] => destruct (Qltb a b)
          end ];
      (apply pick_from; [apply Hr|apply Hr|vm_compute; lia|listed]).
  - apply pick_from; [apply Hr|apply Hr|cbn; lia|done].
Qed.

Lemma not_picked (l : list PowerUp.type) (i : nat) (v : PowerUp.type) :
  v ∉ l → l !! i ≠ Some v.
Proof. intros Hv Hi. apply Hv. by eapply list_elem_of_lookup_2. Qed.

Ltac unlisted :=
  let H := fresh "H" in
  apply not_picked;
  match goal with
  | |- _ ∉ ?L => let L' := eval vm_compute in L in change L with L'
  end;
  intros H;
  repeat (apply elem_of_cons in H as [H|H]; [discriminate H|]);
  by apply elem_of_nil in H.

(** X29. The selection with a game instance avoids the heavy pair of
    quad shot and split shot: while the quad shot is active and the
    first draw is below 0.7 the selected type is not the split shot,
    and while the split shot is active and the draw of that step is
    below 0.7 it is not the quad shot. *)
Theorem select_avoids_heavy_combo (powerUps : Game.PowerUps)
    (random : nat → Q) :
  let on k := Game.active (Game.timer powerUps k) in
  let selected := selectOptimalType (Some powerUps) random in
  (on PowerUp.quadShot = true → random 0%nat < 0.7 →
   selected ≠ Some (PowerUp.keyed PowerUp.splitShot))
  ∧ (on PowerUp.splitShot = true →
     random (if on PowerUp.quadShot then 1 else 0)%nat < 0.7 →
     selected ≠ Some (PowerUp.keyed PowerUp.quadShot)).
Proof.
  intros on selected. subst on selected. unfold selectOptimalType.
  split.
  - intros -> Hlt%Qltb_lt.
    destruct (Game.active (Game.timer powerUps PowerUp.splitShot)),
      (Game.active (Game.timer powerUps PowerUp.rapidFire)),
      (Game.active (Game.timer powerUps PowerUp.laser)),
      (Game.active (Game.timer powerUps PowerUp.guidedShot));
      repeat select_step; rewrite Hlt;
      repeat first
        [ select_step
        | match goal with
          | |- context [Qltb ?a ?b] => destruct (Qltb a b)
          end ];
      unlisted.
  - intros ->.
    destruct (Game.active (Game.timer powerUps PowerUp.quadShot)),
      (Game.active (Game.timer powerUps PowerUp.rapidFire)),
      (Game.active (Game.timer powerUps PowerUp.laser)),
      (Game.active (Game.timer powerUps PowerUp.guidedShot));
      intros Hlt%Qltb_lt; cbv beta iota in Hlt;
      repeat select_step;
      first [ rewrite Hlt
            | destruct (Qltb (random 0%nat) 0.7) eqn:Hfirst;
              repeat select_step; rewrite Hlt ];
      repeat first
        [ select_step
        | match goal with
          | |- context [Qltb ?a ?b] => destruct (Qltb a b)
          end ];
      unlisted.
Qed.

(** X30. While at least two of the shooting power-ups are active, a
    draw below 0.6 makes the selection a utility type: a life, the
    shield, the slow motion, a bomb or the multiplier. *)
Theorem select_prefers_utility (powerUps : Game.PowerUps)
    (random : nat → Q) :
  (∀ k, 0 <= random k ∧ random k < 1) →
  (2 ≤ shooting_count powerUps)%nat →
  random (combo_draws powerUps) < 0.6 →
  ∃ t, selectOptimalType (Some powerUps) random = Some t
       ∧ t ∈ utilityTypes.
Proof.
  intros Hr. unfold selectOptimalType, shooting_count, combo_draws.
  cbv zeta.
  destruct (Game.active (Game.timer powerUps PowerUp.quadShot)),
    (Game.active (Game.timer powerUps PowerUp.splitShot)),
    (Game.active (Game.timer powerUps PowerUp.rapidFire)),
    (Game.active (Game.timer powerUps PowerUp.laser)),
    (Game.active (Game.timer powerUps PowerUp.guidedShot));
    intros Hcount; vm_compute in Hcount; try lia; clear Hcount;
    cbn [Nat.add]; intros Hlt%Qltb_lt;
    repeat select_step;
    try (destruct (Qltb (random 0%nat) 0.7) eqn:Hfirst;
         repeat select_step);
    try (destruct (Qltb (random 1%nat) 0.7) eqn:Hsecond;
         repeat select_step);
    rewrite Hlt;
    (apply pick_from; [apply Hr|apply Hr|vm_compute; lia|listed]).
Qed.

End SelectProperties.

Lemma select_returns_listed_type_witness :
  ∃ t, selectOptimalType None (λ _, 0.5%Q) = Some t ∧ t ∈ PowerUp.types.
Proof.
  apply (select_returns_listed_type None (λ _, 0.5%Q)).
  intros _. split; lra.
Defined.

Lemma select_prefers_utility_witness :
  ∃ t, selectOptimalType (Some quad_and_split) (λ _, 0.5%Q) = Some t
       ∧ t ∈ utilityTypes.
Proof.
  apply (select_prefers_utility quad_and_split (λ _, 0.5%Q)).
  - intros _. split; lra.
  - vm_compute. lia.
  - vm_compute. reflexivity.
Defined.
